(** * sjtu::list — a sentinel-bounded doubly-linked list (src/list.hpp)

    The container is embedded over an explicit memory: a store of [node]
    records and a store of list objects, both addressed by locations.  A C++
    pointer is an [option loc] ([None] is [nullptr]); every member function
    becomes a computation in a small state-and-error monad whose outcomes are
    a normal return, a thrown exception, undefined behaviour (a null or
    dangling dereference) or an exhausted loop budget. *)

From stdpp Require Import gmap list sorting.

Module sjtu.

Abbreviation loc := positive.

(** The two exception classes of exceptions.hpp that list.hpp throws. *)
Inductive exn : Set := invalid_iterator | container_is_empty.

(** [size_t] is a 64-bit unsigned integer; [++] and [--] wrap. *)
Definition size_max : Z := 2 ^ 64.
Definition wrap (z : Z) : Z := z mod size_max.

Section list.

(** The element type with its [operator<] and [operator!=]. *)
Context {T : Type}.
Variable ltb : T → T → bool.
Variable neqb : T → T → bool.

(** [sjtu::sort] of algorithm.hpp: a comparison sort of a range, taken as a
    parameter of the development. *)
Variable ext_sort : ∀ A : Type, (A → A → bool) → list A → list A.

(** ** Memory *)

(** [class node]: the owned [T *val] is embedded as [option T], [None] for the
    [nullptr] of a sentinel. *)
Record node : Type := Node {
  prev : option loc;
  next : option loc;
  val : option T
}.

(** The data members of [class list]. *)
Record list_obj : Type := ListObj {
  head : option loc;
  tail : option loc;
  sz : Z
}.

Record mem : Type := Mem {
  nodes : gmap loc node;
  objs : gmap loc list_obj
}.

Inductive outcome (A : Type) : Type :=
| Ok (a : A) (m : mem)
| Throw (e : exn) (m : mem)
| Fault
| OutOfFuel.
Global Arguments Ok {A} a m.
Global Arguments Throw {A} e m.
Global Arguments Fault {A}.
Global Arguments OutOfFuel {A}.

Definition M (A : Type) : Type := mem → outcome A.

Definition ret {A} (a : A) : M A := λ m, Ok a m.
Definition bind {A B} (c : M A) (k : A → M B) : M B := λ m,
  match c m with
  | Ok a m' => k a m'
  | Throw e m' => Throw e m'
  | Fault => Fault
  | OutOfFuel => OutOfFuel
  end.
Definition throw {A} (e : exn) : M A := λ m, Throw e m.
Definition fault {A} : M A := λ _, Fault.
Definition out_of_fuel {A} : M A := λ _, OutOfFuel.

Notation "x <- c ;; k" := (bind c (λ x, k))
  (at level 100, c at next level, right associativity).
Notation "c ;; k" := (bind c (λ _, k))
  (at level 100, right associativity).

Definition is_null (p : option loc) : bool := bool_decide (p = None).
Definition ptr_eq (p q : option loc) : bool := bool_decide (p = q).

(** *** Node accesses: [p->prev], [p->next], [p->val], [*(p->val)] *)

Definition load (p : option loc) : M node := λ m,
  match p with
  | Some a => match nodes m !! a with Some n => Ok n m | None => Fault end
  | None => Fault
  end.

Definition store (p : option loc) (n : node) : M unit := λ m,
  match p with
  | Some a =>
      match nodes m !! a with
      | Some _ => Ok tt (Mem (<[a:=n]> (nodes m)) (objs m))
      | None => Fault
      end
  | None => Fault
  end.

Definition get_prev (p : option loc) : M (option loc) := n <- load p ;; ret (prev n).
Definition get_next (p : option loc) : M (option loc) := n <- load p ;; ret (next n).
Definition get_val (p : option loc) : M (option T) := n <- load p ;; ret (val n).
Definition deref_val (p : option loc) : M T :=
  n <- load p ;; match val n with Some x => ret x | None => fault end.
Definition set_prev (p q : option loc) : M unit :=
  n <- load p ;; store p (Node q (next n) (val n)).
Definition set_next (p q : option loc) : M unit :=
  n <- load p ;; store p (Node (prev n) q (val n)).
Definition set_val (p : option loc) (v : option T) : M unit :=
  n <- load p ;; store p (Node (prev n) (next n) v).

(** [new node()] and [new node(value)]: a fresh location, links null. *)
Definition new_node (v : option T) : M (option loc) := λ m,
  let a := fresh (dom (nodes m)) in
  Ok (Some a) (Mem (<[a:=Node None None v]> (nodes m)) (objs m)).

(** [delete p]: destroys the node (and with it the owned value). *)
Definition delete_node (p : option loc) : M unit := λ m,
  match p with
  | Some a =>
      match nodes m !! a with
      | Some _ => Ok tt (Mem (delete a (nodes m)) (objs m))
      | None => Fault
      end
  | None => Ok tt m
  end.

(** *** List-object accesses: [l->head], [l->tail], [l->sz] *)

Definition load_obj (l : option loc) : M list_obj := λ m,
  match l with
  | Some a => match objs m !! a with Some o => Ok o m | None => Fault end
  | None => Fault
  end.

Definition store_obj (l : option loc) (o : list_obj) : M unit := λ m,
  match l with
  | Some a =>
      match objs m !! a with
      | Some _ => Ok tt (Mem (nodes m) (<[a:=o]> (objs m)))
      | None => Fault
      end
  | None => Fault
  end.

Definition get_head (l : option loc) : M (option loc) := o <- load_obj l ;; ret (head o).
Definition get_tail (l : option loc) : M (option loc) := o <- load_obj l ;; ret (tail o).
Definition get_sz (l : option loc) : M Z := o <- load_obj l ;; ret (sz o).
Definition set_head (l p : option loc) : M unit :=
  o <- load_obj l ;; store_obj l (ListObj p (tail o) (sz o)).
Definition set_tail (l p : option loc) : M unit :=
  o <- load_obj l ;; store_obj l (ListObj (head o) p (sz o)).
Definition set_sz (l : option loc) (z : Z) : M unit :=
  o <- load_obj l ;; store_obj l (ListObj (head o) (tail o) z).
Definition incr_sz (l : option loc) : M unit := s <- get_sz l ;; set_sz l (wrap (s + 1)).
Definition decr_sz (l : option loc) : M unit := s <- get_sz l ;; set_sz l (wrap (s - 1)).


(** The storage of a list object begins with indeterminate members (here null
    and zero) and ends with the destructor. *)
Definition alloc_obj (this : loc) : M unit := λ m,
  Ok tt (Mem (nodes m) (<[this:=ListObj None None 0]> (objs m))).
Definition free_obj (this : loc) : M unit := λ m,
  Ok tt (Mem (nodes m) (delete this (objs m))).

(** ** The protected helpers [insert] and [erase] on node pointers *)

Definition insert_node (this : loc) (pos cur : option loc) : M (option loc) :=
  pv <- get_prev pos ;;
  set_next cur pos ;;
  set_prev cur pv ;;
  set_prev pos cur ;;
  (if is_null pv then set_head (Some this) cur else set_next pv cur) ;;
  incr_sz (Some this) ;;
  ret cur.

Definition erase_node (this : loc) (pos : option loc) : M (option loc) :=
  p <- get_prev pos ;;
  n <- get_next pos ;;
  (if is_null p then set_head (Some this) n else set_next p n) ;;
  (if is_null n then set_tail (Some this) p else set_prev n p) ;;
  set_next pos None ;;
  set_prev pos None ;;
  decr_sz (Some this) ;;
  ret pos.

(** ** [class iterator] *)

Record iterator : Type := Iterator {
  cur : option loc;
  owner : option loc
}.

(** [iterator()] *)
Definition iterator_default : iterator := Iterator None None.

(** [operator++(int)]: the result pairs the returned copy with the updated
    iterator object. *)
Definition iterator_post_inc (it : iterator) : M (iterator * iterator) :=
  let tmp := it in
  if is_null (owner it) then throw invalid_iterator else
  if is_null (cur it) then throw invalid_iterator else
  tl <- get_tail (owner it) ;;
  if ptr_eq (cur it) tl then throw invalid_iterator else
  n <- get_next (cur it) ;;
  ret (tmp, Iterator n (owner it)).

(** [operator++()] *)
Definition iterator_pre_inc (it : iterator) : M iterator :=
  if is_null (owner it) then throw invalid_iterator else
  if is_null (cur it) then throw invalid_iterator else
  tl <- get_tail (owner it) ;;
  if ptr_eq (cur it) tl then throw invalid_iterator else
  n <- get_next (cur it) ;;
  ret (Iterator n (owner it)).

(** [operator--(int)] *)
Definition iterator_post_dec (it : iterator) : M (iterator * iterator) :=
  let tmp := it in
  if is_null (owner it) then throw invalid_iterator else
  if is_null (cur it) then throw invalid_iterator else
  hd <- get_head (owner it) ;;
  if ptr_eq (cur it) hd then throw invalid_iterator else
  tl <- get_tail (owner it) ;;
  if ptr_eq (cur it) tl then
    s <- get_sz (owner it) ;;
    if (s =? 0)%Z then throw invalid_iterator else
    tl <- get_tail (owner it) ;;
    p <- get_prev tl ;;
    ret (tmp, Iterator p (owner it))
  else
    p <- get_prev (cur it) ;;
    hd <- get_head (owner it) ;;
    if ptr_eq p hd then throw invalid_iterator else
    p <- get_prev (cur it) ;;
    ret (tmp, Iterator p (owner it)).

(** [operator--()] *)
Definition iterator_pre_dec (it : iterator) : M iterator :=
  if is_null (owner it) then throw invalid_iterator else
  if is_null (cur it) then throw invalid_iterator else
  hd <- get_head (owner it) ;;
  if ptr_eq (cur it) hd then throw invalid_iterator else
  tl <- get_tail (owner it) ;;
  if ptr_eq (cur it) tl then
    s <- get_sz (owner it) ;;
    if (s =? 0)%Z then throw invalid_iterator else
    tl <- get_tail (owner it) ;;
    p <- get_prev tl ;;
    ret (Iterator p (owner it))
  else
    p <- get_prev (cur it) ;;
    hd <- get_head (owner it) ;;
    if ptr_eq p hd then throw invalid_iterator else
    p <- get_prev (cur it) ;;
    ret (Iterator p (owner it)).

(** [operator*] and [operator->] *)
Definition iterator_deref (it : iterator) : M T :=
  if is_null (owner it) then throw invalid_iterator else
  if is_null (cur it) then throw invalid_iterator else
  v <- get_val (cur it) ;;
  match v with
  | None => throw invalid_iterator
  | Some _ => deref_val (cur it)
  end.

Definition iterator_arrow (it : iterator) : M (option T) :=
  if is_null (owner it) then throw invalid_iterator else
  if is_null (cur it) then throw invalid_iterator else
  v <- get_val (cur it) ;;
  match v with
  | None => throw invalid_iterator
  | Some _ => get_val (cur it)
  end.

(** ** [class const_iterator] *)

Record const_iterator : Type := ConstIterator {
  ccur : option loc;
  cowner : option loc
}.

Definition const_iterator_default : const_iterator := ConstIterator None None.

(** [const_iterator(const iterator &)] *)
Definition const_iterator_of (it : iterator) : const_iterator :=
  ConstIterator (cur it) (owner it).

Definition const_iterator_post_inc (it : const_iterator)
  : M (const_iterator * const_iterator) :=
  let tmp := it in
  if is_null (cowner it) then throw invalid_iterator else
  if is_null (ccur it) then throw invalid_iterator else
  tl <- get_tail (cowner it) ;;
  if ptr_eq (ccur it) tl then throw invalid_iterator else
  n <- get_next (ccur it) ;;
  ret (tmp, ConstIterator n (cowner it)).

Definition const_iterator_pre_inc (it : const_iterator) : M const_iterator :=
  if is_null (cowner it) then throw invalid_iterator else
  if is_null (ccur it) then throw invalid_iterator else
  tl <- get_tail (cowner it) ;;
  if ptr_eq (ccur it) tl then throw invalid_iterator else
  n <- get_next (ccur it) ;;
  ret (ConstIterator n (cowner it)).

Definition const_iterator_post_dec (it : const_iterator)
  : M (const_iterator * const_iterator) :=
  let tmp := it in
  if is_null (cowner it) then throw invalid_iterator else
  if is_null (ccur it) then throw invalid_iterator else
  hd <- get_head (cowner it) ;;
  if ptr_eq (ccur it) hd then throw invalid_iterator else
  tl <- get_tail (cowner it) ;;
  if ptr_eq (ccur it) tl then
    s <- get_sz (cowner it) ;;
    if (s =? 0)%Z then throw invalid_iterator else
    tl <- get_tail (cowner it) ;;
    p <- get_prev tl ;;
    ret (tmp, ConstIterator p (cowner it))
  else
    p <- get_prev (ccur it) ;;
    hd <- get_head (cowner it) ;;
    if ptr_eq p hd then throw invalid_iterator else
    p <- get_prev (ccur it) ;;
    ret (tmp, ConstIterator p (cowner it)).

Definition const_iterator_pre_dec (it : const_iterator) : M const_iterator :=
  if is_null (cowner it) then throw invalid_iterator else
  if is_null (ccur it) then throw invalid_iterator else
  hd <- get_head (cowner it) ;;
  if ptr_eq (ccur it) hd then throw invalid_iterator else
  tl <- get_tail (cowner it) ;;
  if ptr_eq (ccur it) tl then
    s <- get_sz (cowner it) ;;
    if (s =? 0)%Z then throw invalid_iterator else
    tl <- get_tail (cowner it) ;;
    p <- get_prev tl ;;
    ret (ConstIterator p (cowner it))
  else
    p <- get_prev (ccur it) ;;
    hd <- get_head (cowner it) ;;
    if ptr_eq p hd then throw invalid_iterator else
    p <- get_prev (ccur it) ;;
    ret (ConstIterator p (cowner it)).

Definition const_iterator_deref (it : const_iterator) : M T :=
  if is_null (cowner it) then throw invalid_iterator else
  if is_null (ccur it) then throw invalid_iterator else
  v <- get_val (ccur it) ;;
  match v with
  | None => throw invalid_iterator
  | Some _ => deref_val (ccur it)
  end.

(** ** [operator==] and [operator!=], all eight overloads *)

Definition iterator_eq (a b : iterator) : bool := ptr_eq (cur a) (cur b).
Definition iterator_eq_const (a : iterator) (b : const_iterator) : bool :=
  ptr_eq (cur a) (ccur b).
Definition iterator_neq (a b : iterator) : bool := negb (iterator_eq a b).
Definition iterator_neq_const (a : iterator) (b : const_iterator) : bool :=
  negb (ptr_eq (cur a) (ccur b)).
Definition const_iterator_eq (a b : const_iterator) : bool := ptr_eq (ccur a) (ccur b).
Definition const_iterator_eq_iter (a : const_iterator) (b : iterator) : bool :=
  ptr_eq (ccur a) (cur b).
Definition const_iterator_neq (a b : const_iterator) : bool :=
  negb (const_iterator_eq a b).
Definition const_iterator_neq_iter (a : const_iterator) (b : iterator) : bool :=
  negb (const_iterator_eq_iter a b).

(** ** [class list]: construction, access, insertion and removal *)

(** [begin()], [end()], [cbegin()], [cend()] *)
Definition begin_ (this : loc) : M iterator :=
  s <- get_sz (Some this) ;;
  if negb (s =? 0)%Z then
    h <- get_head (Some this) ;; n <- get_next h ;; ret (Iterator n (Some this))
  else
    t <- get_tail (Some this) ;; ret (Iterator t (Some this)).

Definition cbegin (this : loc) : M const_iterator :=
  s <- get_sz (Some this) ;;
  if negb (s =? 0)%Z then
    h <- get_head (Some this) ;; n <- get_next h ;; ret (ConstIterator n (Some this))
  else
    t <- get_tail (Some this) ;; ret (ConstIterator t (Some this)).

Definition end_ (this : loc) : M iterator :=
  t <- get_tail (Some this) ;; ret (Iterator t (Some this)).

Definition cend (this : loc) : M const_iterator :=
  t <- get_tail (Some this) ;; ret (ConstIterator t (Some this)).

(** [empty()] and [size()] *)
Definition empty (this : loc) : M bool :=
  s <- get_sz (Some this) ;; ret (s =? 0)%Z.
Definition size (this : loc) : M Z := get_sz (Some this).

(** [front()] and [back()] *)
Definition front (this : loc) : M T :=
  s <- get_sz (Some this) ;;
  if (s =? 0)%Z then throw container_is_empty else
  h <- get_head (Some this) ;; n <- get_next h ;; deref_val n.

Definition back (this : loc) : M T :=
  s <- get_sz (Some this) ;;
  if (s =? 0)%Z then throw container_is_empty else
  t <- get_tail (Some this) ;; p <- get_prev t ;; deref_val p.

(** [insert(iterator pos, const T &value)] *)
Definition insert (this : loc) (pos : iterator) (value : T) : M iterator :=
  if negb (ptr_eq (owner pos) (Some this)) then throw invalid_iterator else
  if is_null (cur pos) then throw invalid_iterator else
  let p := cur pos in
  nd <- new_node (Some value) ;;
  pp <- get_prev p ;; set_prev nd pp ;;
  set_next nd p ;;
  pp <- get_prev p ;; set_next pp nd ;;
  set_prev p nd ;;
  incr_sz (Some this) ;;
  ret (Iterator nd (Some this)).

(** [erase(iterator pos)] *)
Definition erase (this : loc) (pos : iterator) : M iterator :=
  if negb (ptr_eq (owner pos) (Some this)) then throw invalid_iterator else
  if is_null (cur pos) then throw invalid_iterator else
  s <- get_sz (Some this) ;;
  if (s =? 0)%Z then throw container_is_empty else
  let p := cur pos in
  tl <- get_tail (Some this) ;;
  if ptr_eq p tl then throw invalid_iterator else
  v <- get_val p ;;
  if bool_decide (v = None) then throw invalid_iterator else
  nxt <- get_next p ;;
  pp <- get_prev p ;; pn <- get_next p ;; set_next pp pn ;;
  pn <- get_next p ;; pp <- get_prev p ;; set_prev pn pp ;;
  delete_node p ;;
  decr_sz (Some this) ;;
  ret (Iterator nxt (Some this)).

Definition push_back (this : loc) (value : T) : M unit :=
  e <- end_ this ;; insert this e value ;; ret tt.

Definition pop_back (this : loc) : M unit :=
  s <- get_sz (Some this) ;;
  if (s =? 0)%Z then throw container_is_empty else
  t <- get_tail (Some this) ;; p <- get_prev t ;;
  erase this (Iterator p (Some this)) ;; ret tt.

Definition push_front (this : loc) (value : T) : M unit :=
  b <- begin_ this ;; insert this b value ;; ret tt.

Definition pop_front (this : loc) : M unit :=
  s <- get_sz (Some this) ;;
  if (s =? 0)%Z then throw container_is_empty else
  h <- get_head (Some this) ;; n <- get_next h ;;
  erase this (Iterator n (Some this)) ;; ret tt.

(** [clear()]; the [while] loop runs on a budget of iterations. *)
Fixpoint clear_loop (fuel : nat) (this : loc) (p : option loc) : M unit :=
  match fuel with
  | O => out_of_fuel
  | S fuel =>
      tl <- get_tail (Some this) ;;
      if ptr_eq p tl then ret tt else
      n <- get_next p ;;
      delete_node p ;;
      clear_loop fuel this n
  end.

Definition clear (fuel : nat) (this : loc) : M unit :=
  h <- get_head (Some this) ;; p <- get_next h ;;
  clear_loop fuel this p ;;
  h <- get_head (Some this) ;; t <- get_tail (Some this) ;; set_next h t ;;
  t <- get_tail (Some this) ;; h <- get_head (Some this) ;; set_prev t h ;;
  set_sz (Some this) 0.

(** [list()] *)
Definition list_ctor (this : loc) : M unit :=
  alloc_obj this ;;
  h <- new_node None ;; set_head (Some this) h ;;
  t <- new_node None ;; set_tail (Some this) t ;;
  h <- get_head (Some this) ;; t <- get_tail (Some this) ;; set_next h t ;;
  h <- get_head (Some this) ;; set_prev h None ;;
  t <- get_tail (Some this) ;; h <- get_head (Some this) ;; set_prev t h ;;
  t <- get_tail (Some this) ;; set_next t None ;;
  set_sz (Some this) 0.

(** The loop shared by the copy constructor and [operator=]:
    [for (p = other.head->next; p != other.tail; p = p->next) push_back( *(p->val))]. *)
Fixpoint copy_loop (fuel : nat) (this other : loc) (p : option loc) : M unit :=
  match fuel with
  | O => out_of_fuel
  | S fuel =>
      ot <- get_tail (Some other) ;;
      if ptr_eq p ot then ret tt else
      x <- deref_val p ;;
      push_back this x ;;
      n <- get_next p ;;
      copy_loop fuel this other n
  end.

(** [list(const list &other)] *)
Definition list_copy_ctor (fuel : nat) (this other : loc) : M unit :=
  list_ctor this ;;
  oh <- get_head (Some other) ;; p <- get_next oh ;;
  copy_loop fuel this other p.

(** [operator=(const list &other)] *)
Definition assign (fuel : nat) (this other : loc) : M unit :=
  if bool_decide (this = other) then ret tt else
  clear fuel this ;;
  oh <- get_head (Some other) ;; p <- get_next oh ;;
  copy_loop fuel this other p.

(** [~list()] *)
Definition list_dtor (fuel : nat) (this : loc) : M unit :=
  clear fuel this ;;
  h <- get_head (Some this) ;; delete_node h ;; set_head (Some this) None ;;
  t <- get_tail (Some this) ;; delete_node t ;; set_tail (Some this) None ;;
  free_obj this.

(** ** The structural algorithms *)

(** *** [sort()] *)

(** The local array [arr] is a list of node pointers; a read or a write past
    its end is undefined behaviour. *)
Definition arr_get (arr : list (option loc)) (i : nat) : M (option loc) :=
  match arr !! i with
  | Some p => ret p
  | None => fault
  end.

Definition arr_set (arr : list (option loc)) (i : nat) (p : option loc)
  : M (list (option loc)) :=
  if decide (i < length arr)%nat then ret (<[i:=p]> arr) else fault.

(** [for (node *p = head->next; p != tail; p = p->next) arr[i++] = p;] *)
Fixpoint sort_collect (fuel : nat) (this : loc) (p : option loc)
    (arr : list (option loc)) (i : nat) : M (list (option loc)) :=
  match fuel with
  | O => out_of_fuel
  | S fuel =>
      tl <- get_tail (Some this) ;;
      if ptr_eq p tl then ret arr else
      arr' <- arr_set arr i p ;;
      n <- get_next p ;;
      sort_collect fuel this n arr' (S i)
  end.

(** The comparator handed to [sjtu::sort]: [*(a->val) < *(b->val)]. *)
Definition has_value (m : mem) (a : option loc) : bool :=
  match deref_val a m with Ok _ _ => true | _ => false end.

Definition node_lt (m : mem) (a b : option loc) : bool :=
  match deref_val a m, deref_val b m with
  | Ok x _, Ok y _ => ltb x y
  | _, _ => false
  end.

(** The call of [sjtu::sort] on the array: the comparator dereferences the
    array's entries, so an entry without a value is undefined behaviour. *)
Definition sort_call (arr : list (option loc)) : M (list (option loc)) := λ m,
  if forallb (has_value m) arr then Ok (ext_sort _ (node_lt m) arr) m else Fault.

(** [for (size_t k = 1; k < sz; ++k) { arr[k-1]->next = arr[k];
    arr[k]->prev = arr[k-1]; }], on the number [n] of remaining iterations. *)
Fixpoint sort_relink (n : nat) (arr : list (option loc)) (k : nat) : M unit :=
  match n with
  | O => ret tt
  | S n =>
      a <- arr_get arr (k - 1) ;; b <- arr_get arr k ;; set_next a b ;;
      b <- arr_get arr k ;; a <- arr_get arr (k - 1) ;; set_prev b a ;;
      sort_relink n arr (S k)
  end.

Definition sort (fuel : nat) (this : loc) : M unit :=
  s <- get_sz (Some this) ;;
  if (s <=? 1)%Z then ret tt else
  let arr := replicate (Z.to_nat s) None in
  h <- get_head (Some this) ;; p <- get_next h ;;
  arr <- sort_collect fuel this p arr 0 ;;
  arr <- sort_call arr ;;
  h <- get_head (Some this) ;; a0 <- arr_get arr 0 ;; set_next h a0 ;;
  a0 <- arr_get arr 0 ;; h <- get_head (Some this) ;; set_prev a0 h ;;
  s <- get_sz (Some this) ;;
  sort_relink (Z.to_nat s - 1) arr 1 ;;
  s <- get_sz (Some this) ;;
  al <- arr_get arr (Z.to_nat s - 1) ;; t <- get_tail (Some this) ;; set_next al t ;;
  t <- get_tail (Some this) ;; s <- get_sz (Some this) ;;
  al <- arr_get arr (Z.to_nat s - 1) ;; set_prev t al.

(** *** [merge(list &other)] *)

(** [while (p1 != tail && p2 != other.tail)]; returns the final [p1], [p2]. *)
Fixpoint merge_loop (fuel : nat) (this other : loc) (p1 p2 : option loc)
  : M (option loc * option loc) :=
  match fuel with
  | O => out_of_fuel
  | S fuel =>
      tl <- get_tail (Some this) ;;
      if ptr_eq p1 tl then ret (p1, p2) else
      ot <- get_tail (Some other) ;;
      if ptr_eq p2 ot then ret (p1, p2) else
      x2 <- deref_val p2 ;; x1 <- deref_val p1 ;;
      if ltb x2 x1 then
        n2 <- get_next p2 ;;
        pp <- get_prev p2 ;; pn <- get_next p2 ;; set_next pp pn ;;
        pn <- get_next p2 ;; pp <- get_prev p2 ;; set_prev pn pp ;;
        q <- get_prev p1 ;; set_prev p2 q ;;
        set_next p2 p1 ;;
        q <- get_prev p1 ;; set_next q p2 ;;
        set_prev p1 p2 ;;
        incr_sz (Some this) ;; decr_sz (Some other) ;;
        merge_loop fuel this other p1 n2
      else
        n1 <- get_next p1 ;;
        merge_loop fuel this other n1 p2
  end.

(** [for (node *q = first; ; q = q->next) { ++moved; if (q == last) break; }] *)
Fixpoint merge_count (fuel : nat) (q last : option loc) (moved : Z) : M Z :=
  match fuel with
  | O => out_of_fuel
  | S fuel =>
      let moved := wrap (moved + 1) in
      if ptr_eq q last then ret moved else
      n <- get_next q ;;
      merge_count fuel n last moved
  end.

Definition merge (fuel : nat) (this other : loc) : M unit :=
  if bool_decide (this = other) then ret tt else
  os <- get_sz (Some other) ;;
  if (os =? 0)%Z then ret tt else
  h <- get_head (Some this) ;; p1 <- get_next h ;;
  oh <- get_head (Some other) ;; p2 <- get_next oh ;;
  ps <- merge_loop fuel this other p1 p2 ;;
  let p2 := ps.2 in
  ot <- get_tail (Some other) ;;
  if ptr_eq p2 ot then ret tt else
  let first := p2 in
  ot <- get_tail (Some other) ;; last <- get_prev ot ;;
  oh <- get_head (Some other) ;; ot <- get_tail (Some other) ;; set_next oh ot ;;
  ot <- get_tail (Some other) ;; oh <- get_head (Some other) ;; set_prev ot oh ;;
  moved <- merge_count fuel first last 0 ;;
  os <- get_sz (Some other) ;; set_sz (Some other) (wrap (os - moved)) ;;
  s <- get_sz (Some this) ;; set_sz (Some this) (wrap (s + moved)) ;;
  t <- get_tail (Some this) ;; set_next last t ;;
  t <- get_tail (Some this) ;; tp <- get_prev t ;; set_prev first tp ;;
  t <- get_tail (Some this) ;; tp <- get_prev t ;; set_next tp first ;;
  t <- get_tail (Some this) ;; set_prev t last.

(** *** [reverse()] *)

(** The body of [for (size_t i = 0; i < sz / 2; ++i)], on the number of
    remaining iterations ([sz] does not change in the loop). *)
Fixpoint reverse_loop (n : nat) (l r : option loc) : M unit :=
  match n with
  | O => ret tt
  | S n =>
      tmp <- get_val l ;;
      rv <- get_val r ;; set_val l rv ;;
      set_val r tmp ;;
      l' <- get_next l ;;
      r' <- get_prev r ;;
      reverse_loop n l' r'
  end.

Definition reverse (this : loc) : M unit :=
  s <- get_sz (Some this) ;;
  if (s <=? 1)%Z then ret tt else
  h <- get_head (Some this) ;; l <- get_next h ;;
  t <- get_tail (Some this) ;; r <- get_prev t ;;
  s <- get_sz (Some this) ;;
  reverse_loop (Z.to_nat (s / 2)) l r.

(** *** [unique()] *)

(** [while (n != tail && !( *(p->val) != *(n->val)))]; returns the final [n]. *)
Fixpoint unique_inner (fuel : nat) (this : loc) (p n : option loc)
  : M (option loc) :=
  match fuel with
  | O => out_of_fuel
  | S fuel =>
      tl <- get_tail (Some this) ;;
      if ptr_eq n tl then ret n else
      x <- deref_val p ;; y <- deref_val n ;;
      if negb (neqb x y) then
        let del := n in
        n' <- get_next n ;;
        dp <- get_prev del ;; dn <- get_next del ;; set_next dp dn ;;
        dn <- get_next del ;; dp <- get_prev del ;; set_prev dn dp ;;
        delete_node del ;;
        decr_sz (Some this) ;;
        unique_inner fuel this p n'
      else ret n
  end.

(** [while (p != tail)] *)
Fixpoint unique_outer (fuel : nat) (this : loc) (p : option loc) : M unit :=
  match fuel with
  | O => out_of_fuel
  | S fuel =>
      tl <- get_tail (Some this) ;;
      if ptr_eq p tl then ret tt else
      n <- get_next p ;;
      n <- unique_inner (S fuel) this p n ;;
      unique_outer fuel this n
  end.

Definition unique (fuel : nat) (this : loc) : M unit :=
  s <- get_sz (Some this) ;;
  if (s <=? 1)%Z then ret tt else
  h <- get_head (Some this) ;; p <- get_next h ;;
  unique_outer fuel this p.

(** ** Client traversal

    [for (it = l.begin(); it != l.end(); ++it) out.push_back( *it);] *)
Fixpoint traverse_loop (fuel : nat) (this : loc) (it : iterator) (out : list T)
  : M (list T) :=
  match fuel with
  | O => out_of_fuel
  | S fuel =>
      e <- end_ this ;;
      if iterator_neq it e then
        x <- iterator_deref it ;;
        it' <- iterator_pre_inc it ;;
        traverse_loop fuel this it' (out ++ [x])
      else ret out
  end.

Definition traverse (fuel : nat) (this : loc) : M (list T) :=
  b <- begin_ this ;; traverse_loop fuel this b [].

(** A run of [push_back] calls, in order. *)
Fixpoint push_all (this : loc) (xs : list T) : M unit :=
  match xs with
  | [] => ret tt
  | x :: xs => push_back this x ;; push_all this xs
  end.

(** ** The representation of a list in memory

    A cell pairs a node's location with the value it holds.  [seg h p l q]
    says that the cells of [l] are linked in [h] in this order, forwards and
    backwards: the first one's [prev] is [p], the last one's [next] is [q]. *)

Definition first_or (l : list (loc * option T)) (q : option loc) : option loc :=
  match l with
  | [] => q
  | c :: _ => Some c.1
  end.

Fixpoint last_or (l : list (loc * option T)) (p : option loc) : option loc :=
  match l with
  | [] => p
  | c :: l' => last_or l' (Some c.1)
  end.

Fixpoint seg (h : gmap loc node) (p : option loc) (l : list (loc * option T))
    (q : option loc) : Prop :=
  match l with
  | [] => True
  | c :: l' =>
      h !! c.1 = Some (Node p (first_or l' q) c.2) ∧ seg h (Some c.1) l' q
  end.

Definition cell (e : loc * T) : loc * option T := (e.1, Some e.2).
Definition cells (es : list (loc * T)) : list (loc * option T) := cell <$> es.

(** The whole chain of a list with sentinels [hd] and [tl] and elements [es]. *)
Definition chain (hd : loc) (es : list (loc * T)) (tl : loc)
  : list (loc * option T) :=
  (hd, None) :: cells es ++ [(tl, None)].

(** [is_list m this hd tl es]: the list object at [this] has the sentinels [hd]
    and [tl], its count is the number of the elements [es], and its chain is
    one doubly-linked sequence of distinct nodes from [hd] ([prev] null) to
    [tl] ([next] null), sentinels without a value, elements with theirs. *)
Definition is_list (m : mem) (this hd tl : loc) (es : list (loc * T)) : Prop :=
  objs m !! this = Some (ListObj (Some hd) (Some tl) (Z.of_nat (length es))) ∧
  (Z.of_nat (length es) < size_max)%Z ∧
  NoDup (chain hd es tl).*1 ∧
  seg (nodes m) None (chain hd es tl) None.


(** What an operation on [this] with chain locations [S] leaves alone: the
    allocated nodes outside [S] and the other list objects. *)
Definition frame (m m' : mem) (S : list loc) (this : loc) : Prop :=
  (∀ a, a ∉ S → is_Some (nodes m !! a) → nodes m' !! a = nodes m !! a) ∧
  (∀ l, l ≠ this → objs m' !! l = objs m !! l).

End list.

(** [const_iterator::operator->] *)
Definition const_iterator_arrow {T : Type} (it : const_iterator) : @M T (option T) :=
  if is_null (cowner it) then throw invalid_iterator else
  if is_null (ccur it) then throw invalid_iterator else
  bind (get_val (ccur it)) (λ v,
  match v with
  | None => throw invalid_iterator
  | Some _ => get_val (ccur it)
  end).

(** ** Contracts and specification functions *)

(** The contract of a decrement operator [dec] of an iterator class with
    constructor [mk]; [res old new] is the value the operator returns. *)
Definition decrement_contract {T I R : Type} (mk : option loc → option loc → I)
    (dec : I → @M T R) (res : I → I → R) : Prop :=
  (∀ m this hd tl es, is_list m this hd tl es →
    (∀ es' a x, es = es' ++ [(a, x)] →
       dec (mk (Some tl) (Some this)) m
       = Ok (res (mk (Some tl) (Some this)) (mk (Some a) (Some this))) m) ∧
    (es = [] → dec (mk (Some tl) (Some this)) m = Throw invalid_iterator m) ∧
    (∀ a x es', es = (a, x) :: es' →
       dec (mk (Some a) (Some this)) m = Throw invalid_iterator m) ∧
    dec (mk (Some hd) (Some this)) m = Throw invalid_iterator m) ∧
  (∀ m c, dec (mk c None) m = Throw invalid_iterator m) ∧
  (∀ m o, dec (mk None o) m = Throw invalid_iterator m).

(** [reverse()] as the specification has it: the nodes stay where they are
    and hold the values in reverse order. *)
Definition reversed {T : Type} (es : list (loc * T)) : list (loc * T) :=
  zip es.*1 (rev es.*2).

(** The unlinking sequence that [erase] and [unique] both run on a node [p]:
    read the successor, bypass the node in both directions, destroy it,
    decrement the count, and go on with the successor. *)
Definition unlink_seq {T A : Type} (this : loc) (p : option loc)
    (k : option loc → @M T A) : @M T A :=
  bind (get_next p) (λ nxt,
  bind (get_prev p) (λ pp, bind (get_next p) (λ pn, bind (set_next pp pn) (λ _,
  bind (get_next p) (λ pn, bind (get_prev p) (λ pp, bind (set_prev pn pp) (λ _,
  bind (delete_node p) (λ _, bind (decr_sz (Some this)) (λ _, k nxt))))))))).

(** [unique()] as the specification has it: of each run of consecutive
    elements equal to the run's first element (equal meaning that [operator!=]
    answers false), only the first is kept. *)
Fixpoint uniq_run {T : Type} (neqb : T → T → bool) (x : T) (es : list (loc * T))
  : list (loc * T) :=
  match es with
  | [] => []
  | e :: es' =>
      if negb (neqb x e.2) then uniq_run neqb x es' else e :: uniq_run neqb e.2 es'
  end.

Definition uniq {T : Type} (neqb : T → T → bool) (es : list (loc * T))
  : list (loc * T) :=
  match es with
  | [] => []
  | e :: es' => e :: uniq_run neqb e.2 es'
  end.

(** What is left of [es] once the leading elements equal to [x] are dropped:
    where the inner loop of [unique] stops. *)
Fixpoint drop_eq {T : Type} (neqb : T → T → bool) (x : T) (es : list (loc * T))
  : list (loc * T) :=
  match es with
  | [] => []
  | e :: es' => if negb (neqb x e.2) then drop_eq neqb x es' else es
  end.

(** [merge] as the specification has it: the two element lists are consumed
    from their fronts, and an element of the second list goes first only when
    it is strictly less than the current element of the first. *)
Fixpoint merged {T : Type} (ltb : T → T → bool) (A : list (loc * T))
  : list (loc * T) → list (loc * T) :=
  fix go (B : list (loc * T)) : list (loc * T) :=
    match A, B with
    | [], _ => B
    | _, [] => A
    | a :: A', b :: B' =>
        if ltb b.2 a.2 then b :: go B' else a :: merged ltb A' B
    end.

(** The [while] loop of [merge] alone: what it links into the first list, and
    what it leaves in the second when the first runs out. *)
Fixpoint mloop {T : Type} (ltb : T → T → bool) (A : list (loc * T))
  : list (loc * T) → list (loc * T) * list (loc * T) :=
  fix go (B : list (loc * T)) : list (loc * T) * list (loc * T) :=
    match A, B with
    | [], _ => ([], B)
    | _, [] => (A, [])
    | a :: A', b :: B' =>
        if ltb b.2 a.2 then (b :: (go B').1, (go B').2)
        else (a :: (mloop ltb A' B).1, (mloop ltb A' B).2)
    end.

(** The splice of [merge]'s loop body: unlink [p2] from the second list, link
    it in before [p1], adjust both counts, go on with [p2]'s old successor. *)
Definition splice_seq {T A : Type} (this other : loc) (p1 p2 : option loc)
    (k : option loc → @M T A) : @M T A :=
  bind (get_next p2) (λ n2,
  bind (get_prev p2) (λ pp, bind (get_next p2) (λ pn, bind (set_next pp pn) (λ _,
  bind (get_next p2) (λ pn, bind (get_prev p2) (λ pp, bind (set_prev pn pp) (λ _,
  bind (get_prev p1) (λ q, bind (set_prev p2 q) (λ _,
  bind (set_next p2 p1) (λ _,
  bind (get_prev p1) (λ q, bind (set_next q p2) (λ _,
  bind (set_prev p1 p2) (λ _,
  bind (incr_sz (Some this)) (λ _, bind (decr_sz (Some other)) (λ _,
  k n2))))))))))))))).

(** What [merge] runs after its loop when the second list is not exhausted:
    the rest of it, from [p2] to its last node, is moved before the tail
    sentinel of the first list. *)
Definition merge_tail {T : Type} (fuel : nat) (this other : loc) (p2 : option loc)
  : @M T unit :=
  let first := p2 in
  bind (get_tail (Some other)) (λ ot, bind (get_prev ot) (λ last,
  bind (get_head (Some other)) (λ oh, bind (get_tail (Some other)) (λ ot,
  bind (set_next oh ot) (λ _,
  bind (get_tail (Some other)) (λ ot, bind (get_head (Some other)) (λ oh,
  bind (set_prev ot oh) (λ _,
  bind (merge_count fuel first last 0) (λ moved,
  bind (get_sz (Some other)) (λ os,
  bind (set_sz (Some other) (wrap (os - moved))) (λ _,
  bind (get_sz (Some this)) (λ s,
  bind (set_sz (Some this) (wrap (s + moved))) (λ _,
  bind (get_tail (Some this)) (λ t, bind (set_next last t) (λ _,
  bind (get_tail (Some this)) (λ t, bind (get_prev t) (λ tp,
  bind (set_prev first tp) (λ _,
  bind (get_tail (Some this)) (λ t, bind (get_prev t) (λ tp,
  bind (set_next tp first) (λ _,
  bind (get_tail (Some this)) (λ t, set_prev t last)))))))))))))))))))))).


(** Ascending order for [operator<]: no element is less than the one before
    it. *)
Definition ascending {T : Type} (ltb : T → T → bool) (xs : list T) : Prop :=
  Sorted (λ x y, ltb y x = false) xs.

(** [x] occurs before [y] in [l]. *)
Definition precedes {A : Type} (x y : A) (l : list A) : Prop :=
  ∃ l1 l2 l3, l = l1 ++ x :: l2 ++ y :: l3.

(** ** An instance: lists of integers

    [int] elements with the built-in [!=] (and [Z.ltb] for [<]), and an
    insertion sort in the place of [sjtu::sort]. *)

Definition Z_neqb (x y : Z) : bool := negb (x =? y)%Z.

Fixpoint sorted_insert {A : Type} (cmp : A → A → bool) (x : A) (l : list A)
  : list A :=
  match l with
  | [] => [x]
  | y :: l' => if cmp y x then y :: sorted_insert cmp x l' else x :: l
  end.

Definition insertion_sort (A : Type) (cmp : A → A → bool) (l : list A) : list A :=
  foldr (sorted_insert cmp) [] l.

(** The memory before anything is allocated. *)
Definition mem0 : @mem Z := Mem ∅ ∅.

(** The memory that a program leaves when it returns. *)
Definition exec {A : Type} (prog : @M Z A) (m : @mem Z) : @mem Z :=
  match prog m with
  | Ok _ m' => m'
  | _ => m
  end.

(** [list<int> l; l.push_back(x1); ...; l.push_back(xn);] with [l] at [this]. *)
Definition build (this : loc) (xs : list Z) : @M Z unit :=
  bind (list_ctor this) (λ _, push_all this xs).

(** Two lists side by side: [A] at 1 and [B] at 2. *)
Definition build2 (xs ys : list Z) : @M Z unit :=
  bind (build 1 xs) (λ _, build 2 ys).

(** A computation that leaves the memory as it found it, whether it returns
    or throws. *)
Definition read_only {T A : Type} (c : @M T A) : Prop :=
  ∀ m, match c m with
       | Ok _ m' | Throw _ m' => m' = m
       | Fault | OutOfFuel => True
       end.
Section proofs.
Context {T : Type}.
Implicit Types (m : @mem T) (h : gmap loc (@node T)) (a b : loc) (p q : option loc)
  (l : list (loc * option T)) (c : loc * option T) (es : list (loc * T)).

(** ** Running the primitives *)

Lemma bind_Ok {A B} (c : M A) (k : A → M B) m (r : A) m' :
  c m = Ok r m' → bind c k m = k r m'.
Proof. unfold bind. by intros ->. Qed.

Lemma bind_ret {A B} (x : A) (k : A → M B) m : bind (ret x) k m = k x m.
Proof. done. Qed.

Lemma load_Ok m a n : nodes m !! a = Some n → load (Some a) m = Ok n m.
Proof. unfold load. by intros ->. Qed.

Lemma get_prev_Ok m a n : nodes m !! a = Some n → get_prev (Some a) m = Ok (prev n) m.
Proof. intros H. unfold get_prev. by rewrite (bind_Ok _ _ _ _ _ (load_Ok _ _ _ H)). Qed.
Lemma get_next_Ok m a n : nodes m !! a = Some n → get_next (Some a) m = Ok (next n) m.
Proof. intros H. unfold get_next. by rewrite (bind_Ok _ _ _ _ _ (load_Ok _ _ _ H)). Qed.
Lemma get_val_Ok m a n : nodes m !! a = Some n → get_val (Some a) m = Ok (val n) m.
Proof. intros H. unfold get_val. by rewrite (bind_Ok _ _ _ _ _ (load_Ok _ _ _ H)). Qed.
Lemma deref_val_Ok m a n x :
  nodes m !! a = Some n → val n = Some x → deref_val (Some a) m = Ok x m.
Proof.
  intros H Hv. unfold deref_val. rewrite (bind_Ok _ _ _ _ _ (load_Ok _ _ _ H)).
  by rewrite Hv.
Qed.
Lemma store_Ok m a n n' :
  nodes m !! a = Some n → store (Some a) n' m = Ok tt (Mem (<[a:=n']> (nodes m)) (objs m)).
Proof. unfold store. by intros ->. Qed.
Lemma set_prev_Ok m a n q :
  nodes m !! a = Some n →
  set_prev (Some a) q m = Ok tt (Mem (<[a:=Node q (next n) (val n)]> (nodes m)) (objs m)).
Proof.
  intros H. unfold set_prev. rewrite (bind_Ok _ _ _ _ _ (load_Ok _ _ _ H)).
  by apply store_Ok with n.
Qed.
Lemma set_next_Ok m a n q :
  nodes m !! a = Some n →
  set_next (Some a) q m = Ok tt (Mem (<[a:=Node (prev n) q (val n)]> (nodes m)) (objs m)).
Proof.
  intros H. unfold set_next. rewrite (bind_Ok _ _ _ _ _ (load_Ok _ _ _ H)).
  by apply store_Ok with n.
Qed.
Lemma set_val_Ok m a n v :
  nodes m !! a = Some n →
  set_val (Some a) v m = Ok tt (Mem (<[a:=Node (prev n) (next n) v]> (nodes m)) (objs m)).
Proof.
  intros H. unfold set_val. rewrite (bind_Ok _ _ _ _ _ (load_Ok _ _ _ H)).
  by apply store_Ok with n.
Qed.
Lemma delete_node_Ok m a n :
  nodes m !! a = Some n →
  delete_node (Some a) m = Ok tt (Mem (delete a (nodes m)) (objs m)).
Proof. unfold delete_node. by intros ->. Qed.

Lemma load_obj_Ok m a o : objs m !! a = Some o → load_obj (Some a) m = Ok o m.
Proof. unfold load_obj. by intros ->. Qed.
Lemma get_head_Ok m a o : objs m !! a = Some o → get_head (Some a) m = Ok (head o) m.
Proof. intros H. unfold get_head. by rewrite (bind_Ok _ _ _ _ _ (load_obj_Ok _ _ _ H)). Qed.
Lemma get_tail_Ok m a o : objs m !! a = Some o → get_tail (Some a) m = Ok (tail o) m.
Proof. intros H. unfold get_tail. by rewrite (bind_Ok _ _ _ _ _ (load_obj_Ok _ _ _ H)). Qed.
Lemma get_sz_Ok m a o : objs m !! a = Some o → get_sz (Some a) m = Ok (sz o) m.
Proof. intros H. unfold get_sz. by rewrite (bind_Ok _ _ _ _ _ (load_obj_Ok _ _ _ H)). Qed.
Lemma store_obj_Ok m a o o' :
  objs m !! a = Some o → store_obj (Some a) o' m = Ok tt (Mem (nodes m) (<[a:=o']> (objs m))).
Proof. unfold store_obj. by intros ->. Qed.
Lemma set_sz_Ok m a o z :
  objs m !! a = Some o →
  set_sz (Some a) z m = Ok tt (Mem (nodes m) (<[a:=ListObj (head o) (tail o) z]> (objs m))).
Proof.
  intros H. unfold set_sz. rewrite (bind_Ok _ _ _ _ _ (load_obj_Ok _ _ _ H)).
  by apply store_obj_Ok with o.
Qed.
Lemma set_head_Ok m a o p :
  objs m !! a = Some o →
  set_head (Some a) p m = Ok tt (Mem (nodes m) (<[a:=ListObj p (tail o) (sz o)]> (objs m))).
Proof.
  intros H. unfold set_head. rewrite (bind_Ok _ _ _ _ _ (load_obj_Ok _ _ _ H)).
  by apply store_obj_Ok with o.
Qed.
Lemma set_tail_Ok m a o p :
  objs m !! a = Some o →
  set_tail (Some a) p m = Ok tt (Mem (nodes m) (<[a:=ListObj (head o) p (sz o)]> (objs m))).
Proof.
  intros H. unfold set_tail. rewrite (bind_Ok _ _ _ _ _ (load_obj_Ok _ _ _ H)).
  by apply store_obj_Ok with o.
Qed.
Lemma incr_sz_Ok m a o :
  objs m !! a = Some o →
  incr_sz (Some a) m
  = Ok tt (Mem (nodes m) (<[a:=ListObj (head o) (tail o) (wrap (sz o + 1))]> (objs m))).
Proof.
  intros H. unfold incr_sz. rewrite (bind_Ok _ _ _ _ _ (get_sz_Ok _ _ _ H)).
  by apply set_sz_Ok.
Qed.
Lemma decr_sz_Ok m a o :
  objs m !! a = Some o →
  decr_sz (Some a) m
  = Ok tt (Mem (nodes m) (<[a:=ListObj (head o) (tail o) (wrap (sz o - 1))]> (objs m))).
Proof.
  intros H. unfold decr_sz. rewrite (bind_Ok _ _ _ _ _ (get_sz_Ok _ _ _ H)).
  by apply set_sz_Ok.
Qed.

(** ** Segments *)

Lemma first_or_app l1 l2 q : first_or (l1 ++ l2) q = first_or l1 (first_or l2 q).
Proof. by destruct l1. Qed.

Lemma last_or_app l1 l2 p : last_or (l1 ++ l2) p = last_or l2 (last_or l1 p).
Proof. revert p. induction l1 as [|c l1 IH]; intros p; simpl; [done|]. by rewrite IH. Qed.

Lemma seg_app h p l1 l2 q :
  seg h p (l1 ++ l2) q ↔ seg h p l1 (first_or l2 q) ∧ seg h (last_or l1 p) l2 q.
Proof.
  revert p. induction l1 as [|c l1 IH]; intros p; simpl.
  - naive_solver.
  - rewrite IH, first_or_app. naive_solver.
Qed.

Lemma seg_frame h h' p l q :
  (∀ a, a ∈ l.*1 → h' !! a = h !! a) → seg h p l q → seg h' p l q.
Proof.
  revert p. induction l as [|c l IH]; intros p Hf; simpl; [done|].
  intros [Hc Hs]. split.
  - rewrite Hf; [done|]. simpl. left.
  - apply IH; [|done]. intros a Ha. apply Hf. simpl. by right.
Qed.

Lemma seg_lookup h p l1 c l2 q :
  seg h p (l1 ++ c :: l2) q →
  h !! c.1 = Some (Node (last_or l1 p) (first_or l2 q) c.2).
Proof. rewrite seg_app. simpl. naive_solver. Qed.

Lemma seg_lookup2 h p l1 c c' l2 q :
  seg h p (l1 ++ c :: c' :: l2) q →
  h !! c.1 = Some (Node (last_or l1 p) (Some c'.1) c.2) ∧
  h !! c'.1 = Some (Node (Some c.1) (first_or l2 q) c'.2).
Proof. rewrite seg_app. simpl. naive_solver. Qed.

Lemma seg_allocated h p l q a : seg h p l q → a ∈ l.*1 → is_Some (h !! a).
Proof.
  intros Hs Ha. apply list_elem_of_fmap in Ha as [c [-> Hc]].
  apply list_elem_of_split in Hc as (l1 & l2 & ->).
  apply seg_lookup in Hs. eauto.
Qed.


Lemma ptr_eq_refl p : ptr_eq p p = true.
Proof. unfold ptr_eq. by rewrite bool_decide_true. Qed.
Lemma ptr_eq_ne p q : p ≠ q → ptr_eq p q = false.
Proof. intros. unfold ptr_eq. by rewrite bool_decide_false. Qed.
Lemma ptr_eq_Some_ne a b : a ≠ b → ptr_eq (Some a) (Some b) = false.
Proof. intros. apply ptr_eq_ne. congruence. Qed.
Lemma is_null_Some a : is_null (Some a) = false.
Proof. done. Qed.
Lemma is_null_None : is_null None = true.
Proof. done. Qed.

Lemma fresh_None m : nodes m !! fresh (dom (nodes m)) = None.
Proof. apply not_elem_of_dom, is_fresh. Qed.

Lemma new_node_Ok m v :
  new_node v m = Ok (Some (fresh (dom (nodes m))))
    (Mem (<[fresh (dom (nodes m)):=Node None None v]> (nodes m)) (objs m)).
Proof. done. Qed.

End proofs.

Ltac solve_neq := first [ done | congruence | set_solver ].

Ltac solve_lookup :=
  cbn [nodes objs];
  repeat first
    [ rewrite lookup_insert_eq
    | rewrite lookup_insert_ne by solve_neq
    | rewrite lookup_delete_ne by solve_neq ];
  first [ reflexivity | eassumption ].

Ltac red_fields := cbn beta iota delta [prev next val head tail sz nodes objs cur owner ccur cowner fst snd].

Ltac step_with lem :=
  erewrite bind_Ok by (eapply lem; solve_lookup); red_fields.

Ltac step :=
  lazymatch goal with
  | |- context [bind (get_prev _) _ _] => step_with @get_prev_Ok
  | |- context [bind (get_next _) _ _] => step_with @get_next_Ok
  | |- context [bind (get_val _) _ _] => step_with @get_val_Ok
  | |- context [bind (set_prev _ _) _ _] => step_with @set_prev_Ok
  | |- context [bind (set_next _ _) _ _] => step_with @set_next_Ok
  | |- context [bind (set_val _ _) _ _] => step_with @set_val_Ok
  | |- context [bind (delete_node _) _ _] => step_with @delete_node_Ok
  | |- context [bind (get_head _) _ _] => step_with @get_head_Ok
  | |- context [bind (get_tail _) _ _] => step_with @get_tail_Ok
  | |- context [bind (get_sz _) _ _] => step_with @get_sz_Ok
  | |- context [bind (set_sz _ _) _ _] => step_with @set_sz_Ok
  | |- context [bind (set_head _ _) _ _] => step_with @set_head_Ok
  | |- context [bind (set_tail _ _) _ _] => step_with @set_tail_Ok
  | |- context [bind (incr_sz _) _ _] => step_with @incr_sz_Ok
  | |- context [bind (decr_sz _) _ _] => step_with @decr_sz_Ok
  | |- context [bind (new_node _) _ _] => rewrite (bind_Ok _ _ _ _ _ (new_node_Ok _ _)); red_fields
  | |- context [bind (ret _) _ _] => rewrite bind_ret
  end.

Section ops.
Context {T : Type}.
Implicit Types (m : @mem T) (h : gmap loc (@node T)) (a b : loc) (p q : option loc)
  (l : list (loc * option T)) (c : loc * option T) (es : list (loc * T)).

Lemma insert_cells m this o l1 app vpp ap vp l2 P Q x :
  objs m !! this = Some o →
  NoDup (l1 ++ (app, vpp) :: (ap, vp) :: l2).*1 →
  seg (nodes m) P (l1 ++ (app, vpp) :: (ap, vp) :: l2) Q →
  let nd := fresh (dom (nodes m)) in
  ∃ m', insert this (Iterator (Some ap) (Some this)) x m
        = Ok (Iterator (Some nd) (Some this)) m' ∧
    objs m' = <[this:=ListObj (head o) (tail o) (wrap (sz o + 1))]> (objs m) ∧
    seg (nodes m') P (l1 ++ (app, vpp) :: (nd, Some x) :: (ap, vp) :: l2) Q ∧
    (∀ a, a ≠ app → a ≠ ap → a ≠ nd → nodes m' !! a = nodes m !! a).
Proof.
  intros Ho Hnd Hs nd.
  pose proof (fresh_None m) as Hfresh. fold nd in Hfresh.
  destruct (seg_lookup2 _ _ _ _ _ _ _ Hs) as [Hpp Hp]. simpl in Hpp, Hp.
  assert (nd ≠ ap) by congruence. assert (nd ≠ app) by congruence.
  assert (app ≠ ap).
  { rewrite fmap_app in Hnd. apply NoDup_app in Hnd as (_ & _ & Hnd).
    simpl in Hnd. apply NoDup_cons in Hnd. set_solver. }
  eexists. split.
  { unfold insert. red_fields.
    rewrite ptr_eq_refl, is_null_Some. cbn [negb].
    repeat step. reflexivity. }
  red_fields. split; [done|]. split.
  - apply seg_app in Hs as [Hs1 Hs2]. simpl in Hs2. destruct Hs2 as (_ & _ & Hs2).
    apply seg_app. split.
    + eapply seg_frame; [|exact Hs1]. intros a Ha.
      rewrite fmap_app in Hnd. apply NoDup_app in Hnd as (_ & Hnd & _).
      specialize (Hnd a Ha). simpl in Hnd.
      assert (a ≠ nd). { intros ->. apply (seg_allocated _ _ _ _ _ Hs1) in Ha. rewrite Hfresh in Ha. by destruct Ha. }
      rewrite !lookup_insert_ne by set_solver. done.
    + simpl. split_and!.
      * solve_lookup.
      * solve_lookup.
      * solve_lookup.
      * eapply seg_frame; [|exact Hs2]. intros a Ha.
        assert (a ≠ nd). { intros ->. apply (seg_allocated _ _ _ _ _ Hs2) in Ha. rewrite Hfresh in Ha. by destruct Ha. }
        rewrite fmap_app in Hnd. apply NoDup_app in Hnd as (_ & _ & Hnd). simpl in Hnd.
        rewrite !NoDup_cons in Hnd.
        rewrite !lookup_insert_ne by set_solver. done.
  - intros a ? ? ?. rewrite !lookup_insert_ne by done. done.
Qed.

End ops.


Section insert_erase.
Context {T : Type}.
Implicit Types (m : @mem T) (h : gmap loc (@node T)) (a b : loc) (p q : option loc)
  (l : list (loc * option T)) (c : loc * option T) (es : list (loc * T)).

Lemma unlink_cells {A} (k : option loc → @M T A) m this o l1 app vpp a va an vn l2 P Q :
  objs m !! this = Some o →
  NoDup (l1 ++ (app, vpp) :: (a, va) :: (an, vn) :: l2).*1 →
  seg (nodes m) P (l1 ++ (app, vpp) :: (a, va) :: (an, vn) :: l2) Q →
  ∃ m', unlink_seq this (Some a) k m = k (Some an) m' ∧
    objs m' = <[this:=ListObj (head o) (tail o) (wrap (sz o - 1))]> (objs m) ∧
    seg (nodes m') P (l1 ++ (app, vpp) :: (an, vn) :: l2) Q ∧
    nodes m' !! a = None ∧
    (∀ b, b ≠ app → b ≠ a → b ≠ an → nodes m' !! b = nodes m !! b).
Proof.
  intros Ho Hnd Hs.
  destruct (seg_lookup2 _ _ _ _ _ _ _ Hs) as [Hpp Hp]. simpl in Hpp, Hp.
  assert (Hn : nodes m !! an = Some (Node (Some a) (first_or l2 Q) vn)).
  { apply seg_app in Hs as [_ Hs]. simpl in Hs. naive_solver. }
  rewrite fmap_app in Hnd. apply NoDup_app in Hnd as (Hnd1 & Hnd2 & Hnd3).
  simpl in Hnd3. rewrite !NoDup_cons in Hnd3.
  assert (app ≠ a) by set_solver. assert (app ≠ an) by set_solver.
  assert (a ≠ an) by set_solver.
  eexists. split.
  { unfold unlink_seq. repeat step. reflexivity. }
  red_fields. split; [done|]. split; [|split].
  - apply seg_app in Hs as [Hs1 Hs2]. simpl in Hs2. destruct Hs2 as (_ & _ & _ & Hs2).
    apply seg_app. split.
    + eapply seg_frame; [|exact Hs1]. intros b Hb.
      specialize (Hnd2 b Hb). simpl in Hnd2.
      rewrite lookup_delete_ne, !lookup_insert_ne by set_solver. done.
    + simpl. split_and!.
      * solve_lookup.
      * solve_lookup.
      * eapply seg_frame; [|exact Hs2]. intros b Hb.
        rewrite lookup_delete_ne, !lookup_insert_ne by set_solver. done.
  - apply lookup_delete_eq.
  - intros b ? ? ?. rewrite lookup_delete_ne, !lookup_insert_ne by done. done.
Qed.

(** ** From cells to lists *)

Lemma cells_app es1 es2 : cells (es1 ++ es2) = cells es1 ++ cells es2.
Proof. apply fmap_app. Qed.

Lemma cells_fst es : (cells es).*1 = es.*1.
Proof. unfold cells. rewrite <-list_fmap_compose. done. Qed.

Lemma length_cells es : length (cells es) = length es.
Proof. apply length_fmap. Qed.

Lemma chain_fst hd es tl : (chain hd es tl).*1 = hd :: es.*1 ++ [tl].
Proof. unfold chain. simpl. by rewrite fmap_app, cells_fst. Qed.

Lemma chain_app hd es1 es2 tl :
  chain hd (es1 ++ es2) tl = ((hd, None) :: cells es1) ++ (cells es2 ++ [(tl, None)]).
Proof. unfold chain. rewrite cells_app. simpl. by rewrite <-app_assoc. Qed.

Lemma pre_snoc hd es :
  ∃ l1 app vpp, (hd, None) :: cells es = l1 ++ [(app, vpp)].
Proof.
  destruct es as [|e es _] using rev_ind.
  - by exists [], hd, None.
  - exists ((hd, None) :: cells es), e.1, (Some e.2). by rewrite cells_app.
Qed.

Lemma post_cons es tl :
  ∃ ap vp l2, cells es ++ [(tl, None)] = (ap, vp) :: l2 ∧
    first_or (cells es) (Some tl) = Some ap.
Proof.
  destruct es as [|e es].
  - by exists tl, None, [].
  - by exists e.1, (Some e.2), (cells es ++ [(tl, None)]).
Qed.

Lemma NoDup_insert_mid (k1 k2 : list loc) (x y : loc) :
  NoDup (k1 ++ y :: k2) → x ∉ k1 ++ y :: k2 → NoDup (k1 ++ y :: x :: k2).
Proof.
  intros Hnd Hx.
  assert (E : k1 ++ y :: x :: k2 ≡ₚ x :: (k1 ++ y :: k2)).
  { rewrite <-(Permutation_middle k1 (x :: k2) y), <-(Permutation_middle k1 k2 y).
    rewrite <-(Permutation_middle k1 k2 x). apply perm_swap. }
  rewrite E. by apply NoDup_cons.
Qed.

Lemma is_list_obj m this hd tl es :
  is_list m this hd tl es →
  objs m !! this = Some (ListObj (Some hd) (Some tl) (Z.of_nat (length es))).
Proof. by intros [? _]. Qed.

Lemma is_list_allocated m this hd tl es a :
  is_list m this hd tl es → a ∈ (chain hd es tl).*1 → is_Some (nodes m !! a).
Proof. intros (_ & _ & _ & Hs). by apply (seg_allocated _ _ _ _ _ Hs). Qed.

Lemma wrap_small z : (0 ≤ z < size_max)%Z → wrap z = z.
Proof. intros. unfold wrap. by apply Z.mod_small. Qed.

(** [insert] at a position of the list: before the first element of [es2], or
    before the tail sentinel when [es2] is empty. *)
Lemma insert_spec m this hd tl es1 es2 x :
  is_list m this hd tl (es1 ++ es2) →
  (Z.of_nat (length (es1 ++ es2)) + 1 < size_max)%Z →
  let nd := fresh (dom (nodes m)) in
  ∃ m', insert this (Iterator (first_or (cells es2) (Some tl)) (Some this)) x m
        = Ok (Iterator (Some nd) (Some this)) m' ∧
    is_list m' this hd tl (es1 ++ (nd, x) :: es2) ∧
    frame m m' (chain hd (es1 ++ es2) tl).*1 this ∧
    nodes m !! nd = None.
Proof.
  intros (Ho & Hlt & Hnd & Hs) Hsz nd.
  destruct (pre_snoc hd es1) as (l1 & app & vpp & E1).
  destruct (post_cons es2 tl) as (ap & vp & l2 & E2 & ->).
  assert (Ech : chain hd (es1 ++ es2) tl = l1 ++ (app, vpp) :: (ap, vp) :: l2).
  { by rewrite chain_app, E1, E2, <-app_assoc. }
  assert (Ech' : chain hd (es1 ++ (nd, x) :: es2) tl
                 = l1 ++ (app, vpp) :: (nd, Some x) :: (ap, vp) :: l2).
  { rewrite chain_app, E1. simpl. by rewrite E2, <-app_assoc. }
  rewrite Ech in *.
  destruct (insert_cells m this _ l1 app vpp ap vp l2 None None x Ho Hnd Hs)
    as (m' & Hrun & Hobjs & Hs' & Hfr).
  fold nd in Hrun, Hs', Hfr.
  assert (Hfresh : nodes m !! nd = None) by apply fresh_None.
  assert (Hnotin : nd ∉ (l1 ++ (app, vpp) :: (ap, vp) :: l2).*1).
  { intros Hin. apply (seg_allocated _ _ _ _ _ Hs) in Hin.
    rewrite Hfresh in Hin. by destruct Hin. }
  exists m'. split; [done|]. split; [|split; [|done]].
  - unfold is_list. rewrite Ech', Hobjs. split_and!.
    + rewrite lookup_insert_eq. simpl. do 2 f_equal.
      rewrite wrap_small by lia. rewrite !length_app. simpl. lia.
    + rewrite length_app in *. simpl in *. lia.
    + rewrite fmap_app in Hnd, Hnotin |- *. simpl in Hnd, Hnotin |- *.
      by apply NoDup_insert_mid.
    + done.
  - split.
    + intros a Ha Hal. rewrite fmap_app in Ha. simpl in Ha. apply Hfr.
      * set_solver.
      * set_solver.
      * intros ->. rewrite Hfresh in Hal. by destruct Hal.
    + intros l Hl. rewrite Hobjs. by rewrite lookup_insert_ne.
Qed.


Lemma NoDup_remove_mid (k1 k2 : list loc) (x y : loc) :
  NoDup (k1 ++ y :: x :: k2) → NoDup (k1 ++ y :: k2).
Proof.
  rewrite <-!Permutation_middle. rewrite (perm_swap x y).
  by intros ?%NoDup_cons_1_2.
Qed.

Lemma is_list_hd m this hd tl es :
  is_list m this hd tl es →
  nodes m !! hd = Some (Node None (first_or (cells es) (Some tl)) None).
Proof.
  intros (_ & _ & _ & Hs). unfold chain in Hs. simpl in Hs.
  destruct Hs as [Hs _]. by rewrite first_or_app in Hs.
Qed.

Lemma is_list_tl m this hd tl es :
  is_list m this hd tl es →
  nodes m !! tl = Some (Node (last_or (cells es) (Some hd)) None None).
Proof.
  intros (_ & _ & _ & Hs). unfold chain in Hs.
  apply (seg_lookup _ _ ((hd, None) :: cells es) (tl, None) []) in Hs. done.
Qed.

Lemma is_list_elem m this hd tl es1 a x es2 :
  is_list m this hd tl (es1 ++ (a, x) :: es2) →
  nodes m !! a = Some (Node (last_or (cells es1) (Some hd))
                            (first_or (cells es2) (Some tl)) (Some x)).
Proof.
  intros (_ & _ & _ & Hs). rewrite chain_app in Hs. simpl in Hs.
  apply (seg_lookup _ _ ((hd, None) :: cells es1) (a, Some x)) in Hs.
  by rewrite first_or_app in Hs.
Qed.

Lemma is_list_hd_ne_tl m this hd tl es : is_list m this hd tl es → hd ≠ tl.
Proof.
  intros (_ & _ & Hnd & _). rewrite chain_fst in Hnd.
  apply NoDup_cons in Hnd as [Hnd _]. set_solver.
Qed.

Lemma is_list_elem_ne m this hd tl es a :
  is_list m this hd tl es → a ∈ es.*1 → a ≠ hd ∧ a ≠ tl.
Proof.
  intros (_ & _ & Hnd & _) Ha. rewrite chain_fst in Hnd.
  apply NoDup_cons in Hnd as [Hnd1 Hnd2].
  apply NoDup_app in Hnd2 as (_ & Hnd2 & _). specialize (Hnd2 a Ha).
  set_solver.
Qed.

Lemma unlink_spec {A} (k : option loc → @M T A) m this hd tl es1 a x es2 :
  is_list m this hd tl (es1 ++ (a, x) :: es2) →
  ∃ m', unlink_seq this (Some a) k m = k (first_or (cells es2) (Some tl)) m' ∧
    is_list m' this hd tl (es1 ++ es2) ∧
    nodes m' !! a = None ∧
    frame m m' (chain hd (es1 ++ (a, x) :: es2) tl).*1 this ∧
    (∀ b, nodes m !! b = None → nodes m' !! b = None).
Proof.
  intros Hl. pose proof Hl as (Ho & Hlt & Hnd & Hs).
  destruct (pre_snoc hd es1) as (l1 & app & vpp & E1).
  destruct (post_cons es2 tl) as (an & vn & l2 & E2 & ->).
  assert (Ech : chain hd (es1 ++ (a, x) :: es2) tl
                = l1 ++ (app, vpp) :: (a, Some x) :: (an, vn) :: l2).
  { rewrite chain_app, E1. simpl. by rewrite E2, <-app_assoc. }
  assert (Ech' : chain hd (es1 ++ es2) tl = l1 ++ (app, vpp) :: (an, vn) :: l2).
  { by rewrite chain_app, E1, E2, <-app_assoc. }
  rewrite Ech in *. rewrite length_app in Ho, Hlt. simpl in Ho, Hlt.
  destruct (unlink_cells k m this _ l1 app vpp a (Some x) an vn l2 None None Ho)
    as (m' & Hrun & Hobjs & Hs' & Hgone & Hfr); [done..|].
  exists m'. split; [done|]. split; [|split; [done|split]].
  - unfold is_list. rewrite Ech', Hobjs. split_and!.
    + rewrite lookup_insert_eq. simpl. do 2 f_equal.
      rewrite wrap_small by lia. rewrite !length_app. lia.
    + rewrite length_app. lia.
    + rewrite fmap_app in Hnd |- *. simpl in Hnd |- *.
      by apply NoDup_remove_mid in Hnd.
    + done.
  - split.
    + intros b Hb Hal. rewrite fmap_app in Hb. simpl in Hb. apply Hfr; set_solver.
    + intros l Hl'. rewrite Hobjs. by rewrite lookup_insert_ne.
  - intros b Hb. destruct (decide (b = a)) as [->|Hba]; [done|].
    assert (Hin : ∀ b', b' ∈ (l1 ++ (app, vpp) :: (a, Some x) :: (an, vn) :: l2).*1 → b ≠ b').
    { intros b' Hc ->. apply (seg_allocated _ _ _ _ _ Hs) in Hc. rewrite Hb in Hc.
      by destruct Hc. }
    rewrite Hfr; [done| |done|]; apply Hin; rewrite fmap_app; set_solver.
Qed.

Lemma erase_spec m this hd tl es1 a x es2 :
  is_list m this hd tl (es1 ++ (a, x) :: es2) →
  ∃ m', erase this (Iterator (Some a) (Some this)) m
        = Ok (Iterator (first_or (cells es2) (Some tl)) (Some this)) m' ∧
    is_list m' this hd tl (es1 ++ es2) ∧
    nodes m' !! a = None ∧
    frame m m' (chain hd (es1 ++ (a, x) :: es2) tl).*1 this.
Proof.
  intros Hl.
  destruct (unlink_spec (λ nxt, ret (Iterator nxt (Some this))) m this hd tl es1 a x es2 Hl)
    as (m' & Hrun & Hl' & Hgone & Hfr & _).
  exists m'. split; [|done].
  pose proof (is_list_obj _ _ _ _ _ Hl) as Ho.
  pose proof (is_list_elem _ _ _ _ _ _ _ _ Hl) as Ha.
  destruct (is_list_elem_ne _ _ _ _ _ a Hl) as [_ ?]; [rewrite fmap_app; set_solver|].
  unfold erase. red_fields.
  rewrite ptr_eq_refl, is_null_Some. cbn [negb].
  step. rewrite length_app. simpl.
  rewrite (proj2 (Z.eqb_neq _ _)) by lia.
  step. rewrite ptr_eq_Some_ne by done.
  step. rewrite bool_decide_false by done.
  exact Hrun.
Qed.

Lemma begin_spec m this hd tl es :
  is_list m this hd tl es →
  begin_ this m = Ok (Iterator (first_or (cells es) (Some tl)) (Some this)) m.
Proof.
  intros Hl. pose proof (is_list_obj _ _ _ _ _ Hl). pose proof (is_list_hd _ _ _ _ _ Hl).
  unfold begin_. step. destruct es as [|e es]; simpl.
  - by step.
  - by repeat step.
Qed.

Lemma end_spec m this hd tl es :
  is_list m this hd tl es → end_ this m = Ok (Iterator (Some tl) (Some this)) m.
Proof. intros Hl. pose proof (is_list_obj _ _ _ _ _ Hl). unfold end_. by step. Qed.

Lemma size_spec m this hd tl es :
  is_list m this hd tl es → size this m = Ok (Z.of_nat (length es)) m.
Proof. intros Hl. unfold size. by erewrite get_sz_Ok by by eapply is_list_obj. Qed.

Lemma push_back_spec m this hd tl es x :
  is_list m this hd tl es →
  (Z.of_nat (length es) + 1 < size_max)%Z →
  let nd := fresh (dom (nodes m)) in
  ∃ m', push_back this x m = Ok tt m' ∧
    is_list m' this hd tl (es ++ [(nd, x)]) ∧
    frame m m' (chain hd es tl).*1 this ∧
    nodes m !! nd = None.
Proof.
  intros Hl Hsz nd.
  destruct (insert_spec m this hd tl es [] x) as (m' & Hrun & Hl' & Hfr & Hnd).
  { by rewrite app_nil_r. } { by rewrite app_nil_r. }
  rewrite app_nil_r in Hfr. fold nd in Hrun, Hl', Hnd.
  exists m'. split; [|done].
  unfold push_back. rewrite (bind_Ok _ _ _ _ _ (end_spec _ _ _ _ _ Hl)).
  by rewrite (bind_Ok _ _ _ _ _ Hrun).
Qed.

Lemma push_front_spec m this hd tl es x :
  is_list m this hd tl es →
  (Z.of_nat (length es) + 1 < size_max)%Z →
  let nd := fresh (dom (nodes m)) in
  ∃ m', push_front this x m = Ok tt m' ∧
    is_list m' this hd tl ((nd, x) :: es) ∧
    frame m m' (chain hd es tl).*1 this ∧
    nodes m !! nd = None.
Proof.
  intros Hl Hsz nd.
  destruct (insert_spec m this hd tl [] es x) as (m' & Hrun & Hl' & Hfr & Hnd); [done..|].
  fold nd in Hrun, Hl', Hnd.
  exists m'. split; [|done].
  unfold push_front. rewrite (bind_Ok _ _ _ _ _ (begin_spec _ _ _ _ _ Hl)).
  by rewrite (bind_Ok _ _ _ _ _ Hrun).
Qed.

Lemma pop_back_spec m this hd tl es a x :
  is_list m this hd tl (es ++ [(a, x)]) →
  ∃ m', pop_back this m = Ok tt m' ∧
    is_list m' this hd tl es ∧
    nodes m' !! a = None ∧
    frame m m' (chain hd (es ++ [(a, x)]) tl).*1 this.
Proof.
  intros Hl.
  destruct (erase_spec m this hd tl es a x [] Hl) as (m' & Hrun & Hl' & Hgone & Hfr).
  rewrite app_nil_r in Hl'.
  exists m'. split; [|done].
  pose proof (is_list_obj _ _ _ _ _ Hl) as Ho. pose proof (is_list_tl _ _ _ _ _ Hl) as Ht.
  unfold pop_back. step. rewrite length_app. simpl.
  rewrite (proj2 (Z.eqb_neq _ _)) by lia.
  repeat step. rewrite cells_app, last_or_app. simpl.
  by rewrite (bind_Ok _ _ _ _ _ Hrun).
Qed.

Lemma pop_front_spec m this hd tl es a x :
  is_list m this hd tl ((a, x) :: es) →
  ∃ m', pop_front this m = Ok tt m' ∧
    is_list m' this hd tl es ∧
    nodes m' !! a = None ∧
    frame m m' (chain hd ((a, x) :: es) tl).*1 this.
Proof.
  intros Hl.
  destruct (erase_spec m this hd tl [] a x es Hl) as (m' & Hrun & Hl' & Hgone & Hfr).
  exists m'. split; [|done].
  pose proof (is_list_obj _ _ _ _ _ Hl) as Ho. pose proof (is_list_hd _ _ _ _ _ Hl) as Ht.
  unfold pop_front. step.
  rewrite (proj2 (Z.eqb_neq _ _)) by (simpl; lia).
  repeat step. simpl.
  by rewrite (bind_Ok _ _ _ _ _ Hrun).
Qed.

End insert_erase.


Ltac dec_run :=
  red_fields;
  rewrite ?is_null_Some, ?ptr_eq_refl;
  repeat first
    [ progress step
    | rewrite ptr_eq_refl
    | rewrite ptr_eq_Some_ne by solve_neq ];
  try reflexivity.

Section iterators.
Context {T : Type}.
Implicit Types (m : @mem T) (a b : loc) (p q : option loc) (es : list (loc * T)).

Lemma decrement_contract_gen {I R} (mk : option loc → option loc → I)
    (dec : I → @M T R) (res : I → I → R) :
  (∀ c o m, dec (mk c o) m =
     (if is_null o then throw invalid_iterator else
      if is_null c then throw invalid_iterator else
      bind (get_head o) (λ hd,
      if ptr_eq c hd then throw invalid_iterator else
      bind (get_tail o) (λ tl,
      if ptr_eq c tl then
        bind (get_sz o) (λ s,
        if (s =? 0)%Z then throw invalid_iterator else
        bind (get_tail o) (λ tl,
        bind (get_prev tl) (λ p, ret (res (mk c o) (mk p o)))))
      else
        bind (get_prev c) (λ p,
        bind (get_head o) (λ hd,
        if ptr_eq p hd then throw invalid_iterator else
        bind (get_prev c) (λ p, ret (res (mk c o) (mk p o)))))))) m) →
  decrement_contract mk dec res.
Proof.
  intros Hdec. split; [|split].
  - intros m this hd tl es Hl.
    pose proof (is_list_obj _ _ _ _ _ Hl) as Ho.
    pose proof (is_list_tl _ _ _ _ _ Hl) as Ht.
    pose proof (is_list_hd_ne_tl _ _ _ _ _ Hl) as Hne.
    split_and!.
    + intros es' a x ->. rewrite Hdec. dec_run.
      rewrite length_app. simpl. rewrite (proj2 (Z.eqb_neq _ _)) by lia.
      dec_run. by rewrite cells_app, last_or_app.
    + intros ->. rewrite Hdec. dec_run.
    + intros a x es' ->. rewrite Hdec.
      pose proof (is_list_elem m this hd tl [] a x es' Hl) as Ha.
      destruct (is_list_elem_ne _ _ _ _ _ a Hl) as [? ?]; [set_solver|].
      dec_run.
    + rewrite Hdec. dec_run.
  - intros m c. by rewrite Hdec.
  - intros m [o|]; by rewrite Hdec.
Qed.

Lemma iterator_pre_dec_contract :
  decrement_contract (T:=T) Iterator iterator_pre_dec (λ _ new, new).
Proof. apply decrement_contract_gen. done. Qed.

Lemma iterator_post_dec_contract :
  decrement_contract (T:=T) Iterator iterator_post_dec (λ old new, (old, new)).
Proof. apply decrement_contract_gen. done. Qed.

Lemma const_iterator_pre_dec_contract :
  decrement_contract (T:=T) ConstIterator const_iterator_pre_dec (λ _ new, new).
Proof. apply decrement_contract_gen. done. Qed.

Lemma const_iterator_post_dec_contract :
  decrement_contract (T:=T) ConstIterator const_iterator_post_dec (λ old new, (old, new)).
Proof. apply decrement_contract_gen. done. Qed.

(** Increment and dereference at an element. *)
Lemma iterator_pre_inc_elem m this hd tl es1 a x es2 :
  is_list m this hd tl (es1 ++ (a, x) :: es2) →
  iterator_pre_inc (Iterator (Some a) (Some this)) m
  = Ok (Iterator (first_or (cells es2) (Some tl)) (Some this)) m.
Proof.
  intros Hl. pose proof (is_list_obj _ _ _ _ _ Hl) as Ho.
  pose proof (is_list_elem _ _ _ _ _ _ _ _ Hl) as Ha.
  destruct (is_list_elem_ne _ _ _ _ _ a Hl) as [? ?]; [rewrite fmap_app; set_solver|].
  unfold iterator_pre_inc. dec_run.
Qed.

Lemma iterator_deref_elem m this hd tl es1 a x es2 :
  is_list m this hd tl (es1 ++ (a, x) :: es2) →
  iterator_deref (Iterator (Some a) (Some this)) m = Ok x m.
Proof.
  intros Hl. pose proof (is_list_elem _ _ _ _ _ _ _ _ Hl) as Ha.
  unfold iterator_deref. dec_run. by eapply deref_val_Ok.
Qed.

Lemma traverse_loop_spec m this hd tl es1 es2 out fuel :
  is_list m this hd tl (es1 ++ es2) →
  length es2 < fuel →
  traverse_loop fuel this (Iterator (first_or (cells es2) (Some tl)) (Some this)) out m
  = Ok (out ++ es2.*2) m.
Proof.
  revert es1 es2 out. induction fuel as [|fuel IH]; intros es1 es2 out Hl Hf; [lia|].
  simpl. rewrite (bind_Ok _ _ _ _ _ (end_spec _ _ _ _ _ Hl)).
  destruct es2 as [|[a x] es2]; simpl.
  - unfold iterator_neq, iterator_eq. simpl. rewrite ptr_eq_refl. simpl.
    by rewrite app_nil_r.
  - destruct (is_list_elem_ne _ _ _ _ _ a Hl) as [? ?]; [rewrite fmap_app; set_solver|].
    unfold iterator_neq, iterator_eq. simpl. rewrite ptr_eq_Some_ne by done. simpl.
    rewrite (bind_Ok _ _ _ _ _ (iterator_deref_elem _ _ _ _ _ _ _ _ Hl)).
    rewrite (bind_Ok _ _ _ _ _ (iterator_pre_inc_elem _ _ _ _ _ _ _ _ Hl)).
    rewrite (IH (es1 ++ [(a, x)]) es2).
    + by rewrite <-app_assoc.
    + by rewrite <-app_assoc.
    + simpl in Hf. lia.
Qed.

Lemma traverse_spec m this hd tl es fuel :
  is_list m this hd tl es → length es < fuel →
  traverse fuel this m = Ok es.*2 m.
Proof.
  intros Hl Hf. unfold traverse.
  rewrite (bind_Ok _ _ _ _ _ (begin_spec _ _ _ _ _ Hl)).
  by rewrite (traverse_loop_spec m this hd tl [] es).
Qed.

End iterators.


Section construct.
Context {T : Type}.
Implicit Types (m : @mem T) (h : gmap loc (@node T)) (a b : loc) (p q : option loc)
  (l : list (loc * option T)) (c : loc * option T) (es : list (loc * T)).

Lemma new_node_spec m v :
  ∃ a, new_node v m = Ok (Some a) (Mem (<[a:=Node None None v]> (nodes m)) (objs m)) ∧
       nodes m !! a = None.
Proof. eexists. split; [apply new_node_Ok|apply fresh_None]. Qed.

Lemma alloc_obj_Ok m this :
  alloc_obj this m = Ok tt (Mem (nodes m) (<[this:=ListObj None None 0]> (objs m))).
Proof. done. Qed.

(** *** Frames *)

Lemma frame_refl m S this : frame m m S this.
Proof. by split. Qed.

Lemma frame_trans m1 m2 m3 S S' this :
  frame m1 m2 S this → frame m2 m3 S' this →
  (∀ a, a ∈ S' → a ∈ S ∨ nodes m1 !! a = None) →
  frame m1 m3 S this.
Proof.
  intros [Hn1 Ho1] [Hn2 Ho2] Hext. split.
  - intros a Ha Hal. rewrite <-(Hn1 a Ha Hal). apply Hn2.
    + intros Ha'. destruct (Hext a Ha') as [?|Hnone]; [done|].
      rewrite Hnone in Hal. by destruct Hal.
    + by rewrite (Hn1 a Ha Hal).
  - intros l Hl. by rewrite Ho2, Ho1.
Qed.

Lemma is_list_frame m m' S this o hd tl es :
  is_list m o hd tl es → o ≠ this →
  (∀ a, a ∈ (chain hd es tl).*1 → a ∉ S) →
  frame m m' S this →
  is_list m' o hd tl es.
Proof.
  intros (Ho & Hlt & Hnd & Hs) Hne Hdisj [Hfn Hfo].
  split_and!; [by rewrite Hfo|done|done|].
  eapply seg_frame; [|done]. intros a Ha. apply Hfn; [by apply Hdisj|].
  by apply (seg_allocated _ _ _ _ _ Hs).
Qed.

(** *** [list()] *)

Lemma list_ctor_spec m this :
  ∃ m' hd tl, list_ctor this m = Ok tt m' ∧
    is_list m' this hd tl [] ∧
    nodes m !! hd = None ∧ nodes m !! tl = None ∧
    frame m m' [] this.
Proof.
  unfold list_ctor. rewrite (bind_Ok _ _ _ _ _ (alloc_obj_Ok _ _)).
  destruct (new_node_spec (Mem (nodes m) (<[this:=ListObj None None 0]> (objs m))) None)
    as (hd & Hrun1 & Hhd). rewrite (bind_Ok _ _ _ _ _ Hrun1). clear Hrun1.
  simpl in Hhd. red_fields.
  step.
  match goal with |- context [bind (new_node None) _ ?m1] =>
    destruct (new_node_spec m1 None) as (tl & Hrun2 & Htl) end.
  rewrite (bind_Ok _ _ _ _ _ Hrun2). clear Hrun2.
  simpl in Htl. red_fields.
  assert (hd ≠ tl). { intros ->. by rewrite lookup_insert_eq in Htl. }
  rewrite lookup_insert_ne in Htl by done.
  eexists _, hd, tl.
  split; [|split; [|split; [done|split; [done|]]]].
  - repeat step. eapply set_sz_Ok. solve_lookup.
  - split_and!; simpl.
    + by rewrite lookup_insert_eq.
    + done.
    + apply NoDup_cons. split; [set_solver|]. apply NoDup_singleton.
    + split_and!; [solve_lookup|solve_lookup|done].
  - split; simpl.
    + intros a _ Hal.
      assert (a ≠ hd). { intros ->. rewrite Hhd in Hal. by destruct Hal. }
      assert (a ≠ tl). { intros ->. rewrite Htl in Hal. by destruct Hal. }
      by rewrite !lookup_insert_ne by done.
    + intros l Hl. by rewrite !lookup_insert_ne by done.
Qed.

(** *** [clear()] *)

Lemma clear_loop_spec m this o tl es P fuel :
  objs m !! this = Some o → tail o = Some tl →
  NoDup (es.*1 ++ [tl]) →
  seg (nodes m) P (cells es) (Some tl) →
  length es < fuel →
  ∃ h', clear_loop fuel this (first_or (cells es) (Some tl)) m = Ok tt (Mem h' (objs m)) ∧
    (∀ b, b ∈ es.*1 → h' !! b = None) ∧
    (∀ b, b ∉ es.*1 → h' !! b = nodes m !! b).
Proof.
  revert m es P. induction fuel as [|fuel IH]; intros m es P Ho Htl Hnd Hs Hf; [lia|].
  destruct es as [|[a x] es]; simpl.
  - exists (nodes m). split; [|split; [intros b Hb; by apply elem_of_nil in Hb|done]]. step. rewrite Htl, ptr_eq_refl. by destruct m.
  - simpl in Hs. destruct Hs as [Ha Hs]. simpl in Hnd.
    apply NoDup_cons in Hnd as [Hnd1 Hnd2].
    assert (a ≠ tl) by set_solver.
    destruct (IH (Mem (delete a (nodes m)) (objs m)) es (Some a)) as (h' & Hrun & Hh1 & Hh2);
      [done|done|done| |simpl in Hf; lia|].
    { simpl. eapply seg_frame; [|done]. intros b Hb. rewrite cells_fst in Hb.
      rewrite lookup_delete_ne; [done|]. set_solver. }
    exists h'. split; [|split].
    + step. rewrite Htl, ptr_eq_Some_ne by done. repeat step. exact Hrun.
    + intros b [->|Hb]%elem_of_cons; [|by apply Hh1].
      rewrite Hh2 by set_solver. simpl. apply lookup_delete_eq.
    + intros b Hb. rewrite Hh2 by set_solver. simpl.
      rewrite lookup_delete_ne; [done|]. set_solver.
Qed.

Lemma clear_spec m this hd tl es fuel :
  is_list m this hd tl es → length es < fuel →
  ∃ m', clear fuel this m = Ok tt m' ∧
    is_list m' this hd tl [] ∧
    (∀ a, a ∈ es.*1 → nodes m' !! a = None) ∧
    frame m m' (chain hd es tl).*1 this.
Proof.
  intros Hl Hf. pose proof Hl as (Ho & Hlt & Hnd & Hs).
  pose proof (is_list_hd _ _ _ _ _ Hl) as Hhd.
  pose proof (is_list_tl _ _ _ _ _ Hl) as Htl.
  pose proof (is_list_hd_ne_tl _ _ _ _ _ Hl) as Hne.
  rewrite chain_fst in Hnd. apply NoDup_cons in Hnd as [Hnd1 Hnd2].
  unfold chain in Hs. simpl in Hs. destruct Hs as [_ Hs]. apply seg_app in Hs as [Hs _].
  simpl in Hs.
  destruct (clear_loop_spec m this _ tl es (Some hd) fuel Ho eq_refl Hnd2 Hs Hf)
    as (h' & Hrun & Hh1 & Hh2).
  assert (hd ∉ es.*1) by set_solver.
  assert (tl ∉ es.*1). { apply NoDup_app in Hnd2 as (_ & Hnd2 & _). set_solver. }
  eexists. split; [|split; [|split]].
  - unfold clear. repeat step. rewrite (bind_Ok _ _ _ _ _ Hrun).
    assert (h' !! hd = nodes m !! hd) as Hh by by apply Hh2.
    assert (h' !! tl = nodes m !! tl) as Ht by by apply Hh2.
    rewrite Hhd in Hh. rewrite Htl in Ht.
    step. step. step. step. step.
    erewrite bind_Ok by (eapply set_prev_Ok; cbn [nodes]; rewrite lookup_insert_ne by done; exact Ht).
    red_fields. eapply set_sz_Ok. done.
  - split_and!; simpl.
    + by rewrite lookup_insert_eq.
    + done.
    + apply NoDup_cons. split; [set_solver|]. apply NoDup_singleton.
    + split_and!; [solve_lookup|solve_lookup|done].
  - intros a Ha. simpl. rewrite !lookup_insert_ne by set_solver. by apply Hh1.
  - split; cbn [nodes objs].
    + intros a Ha _. rewrite chain_fst in Ha.
      rewrite !lookup_insert_ne by set_solver. apply Hh2. set_solver.
    + intros l ?. by rewrite lookup_insert_ne.
Qed.


(** *** Copying *)

Lemma copy_loop_spec fuel m this hd tl es other ohd otl oes1 oes2 :
  this ≠ other →
  is_list m this hd tl es →
  is_list m other ohd otl (oes1 ++ oes2) →
  (chain hd es tl).*1 ## (chain ohd (oes1 ++ oes2) otl).*1 →
  (Z.of_nat (length es + length oes2) < size_max)%Z →
  length oes2 < fuel →
  ∃ m' es', copy_loop fuel this other (first_or (cells oes2) (Some otl)) m = Ok tt m' ∧
    is_list m' this hd tl (es ++ es') ∧
    es'.*2 = oes2.*2 ∧
    (∀ a, a ∈ es'.*1 → nodes m !! a = None) ∧
    frame m m' (chain hd es tl).*1 this.
Proof.
  revert m es oes1 oes2.
  induction fuel as [|fuel IH]; intros m es oes1 oes2 Hne Hl Hlo Hdisj Hsz Hf; [lia|].
  pose proof (is_list_obj _ _ _ _ _ Hlo) as Hoo.
  destruct oes2 as [|[a x] oes2];
    [change (first_or (cells []) (Some otl)) with (Some otl)
    |change (first_or (cells ((a, x) :: oes2)) (Some otl)) with (Some a)].
  - exists m, []. rewrite app_nil_r. split; [|split; [|split; [|split]]].
    + cbn [copy_loop]. step. by rewrite ptr_eq_refl.
    + done.
    + done.
    + intros a Ha. by apply elem_of_nil in Ha.
    + apply frame_refl.
  - pose proof (is_list_elem _ _ _ _ _ _ _ _ Hlo) as Ha.
    destruct (is_list_elem_ne _ _ _ _ _ a Hlo) as [Hah Hat]; [rewrite fmap_app; set_solver|].
    destruct (push_back_spec m this hd tl es x Hl) as (m1 & Hrun1 & Hl1 & Hfr1 & Hnd).
    { simpl in Hsz. lia. }
    set (nd := fresh (dom (nodes m))) in *.
    assert (Hlo1 : is_list m1 other ohd otl (oes1 ++ (a, x) :: oes2)).
    { eapply is_list_frame; [exact Hlo|done| |exact Hfr1].
      intros b Hb Hb'. by apply (Hdisj b). }
    assert (Hndo : nd ∉ (chain ohd (oes1 ++ (a, x) :: oes2) otl).*1).
    { intros Hin. apply (is_list_allocated _ _ _ _ _ _ Hlo) in Hin.
      rewrite Hnd in Hin. by destruct Hin. }
    replace (oes1 ++ (a, x) :: oes2) with ((oes1 ++ [(a, x)]) ++ oes2) in *
      by by rewrite <-app_assoc.
    destruct (IH m1 (es ++ [(nd, x)]) (oes1 ++ [(a, x)]) oes2)
      as (m' & es' & Hrun & Hl' & Hvals & Hfresh & Hfr); [done..| | | |].
    { intros b Hb Hb'. rewrite chain_fst, fmap_app in Hb. simpl in Hb.
      apply (Hdisj b); [|done]. rewrite chain_fst.
      assert (b ≠ nd) by (intros ->; done). set_solver. }
    { rewrite length_app. simpl in *. lia. }
    { simpl in Hf. lia. }
    exists m', ((nd, x) :: es'). split; [|split; [|split; [|split]]].
    + cbn [copy_loop]. step. rewrite ptr_eq_Some_ne by done.
      rewrite (bind_Ok _ _ _ _ _ (deref_val_Ok _ _ _ _ Ha eq_refl)).
      rewrite (bind_Ok _ _ _ _ _ Hrun1).
      pose proof (is_list_elem m1 other ohd otl oes1 a x oes2) as Ha1.
      rewrite <-app_assoc in Hlo1. specialize (Ha1 Hlo1).
      step. exact Hrun.
    + by rewrite <-app_assoc in Hl'.
    + rewrite !fmap_cons. by f_equal.
    + intros b [->|Hb]%elem_of_cons; [done|].
      destruct (nodes m !! b) as [n|] eqn:Hbm; [exfalso|done].
      specialize (Hfresh b Hb).
      assert (Hbin : b ∈ (chain hd (es ++ [(nd, x)]) tl).*1 ∨ b ∉ (chain hd es tl).*1).
      { destruct (decide (b ∈ (chain hd es tl).*1)) as [Hin|Hin]; [left|by right].
        rewrite chain_fst in Hin |- *. rewrite fmap_app. set_solver. }
      destruct Hbin as [Hin|Hin].
      * apply (is_list_allocated _ _ _ _ _ _ Hl1) in Hin. rewrite Hfresh in Hin.
        by destruct Hin.
      * destruct Hfr1 as [Hfr1 _]. rewrite Hfr1 in Hfresh; [congruence|done|by eexists].
    + apply (frame_trans m m1 m' (chain hd es tl).*1
               (chain hd (es ++ [(nd, x)]) tl).*1); [exact Hfr1|exact Hfr|].
      intros b Hb. rewrite chain_fst, fmap_app in Hb. rewrite chain_fst.
      simpl in Hb. destruct (decide (b = nd)) as [->|]; [by right|]. left. set_solver.
Qed.

Lemma list_copy_ctor_spec fuel m this other ohd otl oes :
  this ≠ other →
  is_list m other ohd otl oes →
  length oes < fuel →
  ∃ m' hd tl es, list_copy_ctor fuel this other m = Ok tt m' ∧
    is_list m' this hd tl es ∧ es.*2 = oes.*2 ∧
    is_list m' other ohd otl oes ∧
    (chain hd es tl).*1 ## (chain ohd oes otl).*1 ∧
    (∀ a, a ∈ (chain hd es tl).*1 → nodes m !! a = None) ∧
    frame m m' [] this.
Proof.
  intros Hne Hlo Hf.
  destruct (list_ctor_spec m this) as (m1 & hd & tl & Hrun1 & Hl1 & Hhd & Htl & Hfr1).
  assert (Hlo1 : is_list m1 other ohd otl oes).
  { eapply is_list_frame; [exact Hlo|done| |exact Hfr1]. intros b _ Hb.
    by apply elem_of_nil in Hb. }
  assert (Hd1 : (chain (T:=T) hd [] tl).*1 ## (chain ohd ([] ++ oes) otl).*1).
  { intros b Hb Hb'. apply (is_list_allocated _ _ _ _ _ _ Hlo) in Hb'.
    simpl in Hb. assert (b = hd ∨ b = tl) as [->| ->] by set_solver.
    - rewrite Hhd in Hb'. by destruct Hb'.
    - rewrite Htl in Hb'. by destruct Hb'. }
  pose proof Hlo as (_ & Hlt & _).
  destruct (copy_loop_spec fuel m1 this hd tl [] other ohd otl [] oes)
    as (m' & es & Hrun & Hl' & Hvals & Hfresh & Hfr); [done..|].
  simpl in Hl'.
  assert (Hnew : ∀ a, a ∈ (chain hd es tl).*1 → nodes m !! a = None).
  { intros a Ha. rewrite chain_fst in Ha.
    assert (a = hd ∨ a = tl ∨ a ∈ es.*1) as [->|[->|Hin]] by set_solver; [done..|].
    specialize (Hfresh a Hin).
    destruct (nodes m !! a) as [n|] eqn:Ham; [exfalso|done].
    destruct Hfr1 as [Hfr1 _]. rewrite Hfr1 in Hfresh; [congruence| |by eexists].
    intros Hb. by apply elem_of_nil in Hb. }
  exists m', hd, tl, es. split_and!; try done.
  - unfold list_copy_ctor. rewrite (bind_Ok _ _ _ _ _ Hrun1).
    pose proof (is_list_obj _ _ _ _ _ Hlo1). pose proof (is_list_hd _ _ _ _ _ Hlo1).
    repeat step. exact Hrun.
  - eapply is_list_frame; [exact Hlo1|done| |exact Hfr].
    intros b Hb Hb'. by apply (Hd1 b).
  - intros b Hb Hb'. apply (is_list_allocated _ _ _ _ _ _ Hlo) in Hb'.
    rewrite (Hnew b Hb) in Hb'. by destruct Hb'.
  - apply (frame_trans m m1 m' [] (chain (T:=T) hd [] tl).*1); [exact Hfr1|exact Hfr|].
    intros b Hb. right. apply Hnew. rewrite chain_fst in Hb |- *. set_solver.
Qed.

Lemma assign_self fuel m this : assign fuel this this m = Ok tt m.
Proof. unfold assign. by rewrite bool_decide_true. Qed.

Lemma assign_spec fuel m this hd tl es other ohd otl oes :
  this ≠ other →
  is_list m this hd tl es →
  is_list m other ohd otl oes →
  (chain hd es tl).*1 ## (chain ohd oes otl).*1 →
  length es < fuel → length oes < fuel →
  ∃ m' es', assign fuel this other m = Ok tt m' ∧
    is_list m' this hd tl es' ∧ es'.*2 = oes.*2 ∧
    is_list m' other ohd otl oes ∧
    (chain hd es' tl).*1 ## (chain ohd oes otl).*1.
Proof.
  intros Hne Hl Hlo Hdisj Hf Hfo.
  destruct (clear_spec m this hd tl es fuel Hl Hf) as (m1 & Hrun1 & Hl1 & Hgone & Hfr1).
  assert (Hlo1 : is_list m1 other ohd otl oes).
  { eapply is_list_frame; [exact Hlo|done| |exact Hfr1].
    intros b Hb Hb'. by apply (Hdisj b). }
  assert (Hd1 : (chain (T:=T) hd [] tl).*1 ## (chain ohd ([] ++ oes) otl).*1).
  { intros b Hb Hb'. apply (Hdisj b); [|done]. rewrite chain_fst in Hb |- *.
    set_solver. }
  pose proof Hlo as (_ & Hlt & _).
  destruct (copy_loop_spec fuel m1 this hd tl [] other ohd otl [] oes)
    as (m' & es' & Hrun & Hl' & Hvals & Hfresh & Hfr); [done..|].
  simpl in Hl'.
  exists m', es'. split_and!; try done.
  - unfold assign. rewrite bool_decide_false by done.
    rewrite (bind_Ok _ _ _ _ _ Hrun1).
    pose proof (is_list_obj _ _ _ _ _ Hlo1). pose proof (is_list_hd _ _ _ _ _ Hlo1).
    repeat step. exact Hrun.
  - eapply is_list_frame; [exact Hlo1|done| |exact Hfr].
    intros b Hb Hb'. by apply (Hd1 b).
  - intros b Hb Hb'. rewrite chain_fst in Hb.
    assert (b = hd ∨ b = tl ∨ b ∈ es'.*1) as [->|[->|Hin]] by set_solver.
    + apply (Hdisj hd); [|done]. rewrite chain_fst. set_solver.
    + apply (Hdisj tl); [|done]. rewrite chain_fst. set_solver.
    + apply (is_list_allocated _ _ _ _ _ _ Hlo1) in Hb'.
      rewrite (Hfresh b Hin) in Hb'. by destruct Hb'.
Qed.

End construct.


Section reverse.
Context {T : Type}.
Implicit Types (m : @mem T) (h : gmap loc (@node T)) (a b : loc) (p q : option loc)
  (l : list (loc * option T)) (c : loc * option T) (es : list (loc * T)).

Lemma first_or_fst l l' q : l.*1 = l'.*1 → first_or l q = first_or l' q.
Proof. destruct l, l'; simpl; intros; simplify_eq; congruence. Qed.

Lemma last_or_fst l l' p : l.*1 = l'.*1 → last_or l p = last_or l' p.
Proof.
  revert l' p. induction l as [|c l IH]; intros [|c' l'] p; simpl; intros E;
    simplify_eq; [done|]. rewrite H. by apply IH.
Qed.

Lemma seg_agree h h' p l q a :
  seg h p l q → seg h' p l q → a ∈ l.*1 → h !! a = h' !! a.
Proof.
  revert p. induction l as [|c l IH]; intros p; simpl.
  - intros _ _ Ha. by apply elem_of_nil in Ha.
  - intros [H1 H2] [H1' H2'] [->|Ha]%elem_of_cons; [congruence|]. by eapply IH.
Qed.

Lemma mem_eta m : Mem (nodes m) (objs m) = m.
Proof. by destruct m. Qed.

Lemma reverse_loop_spec n : ∀ m P Q (F M B : list (loc * T)),
  length F = n → length B = n →
  NoDup (F ++ M ++ B).*1 →
  seg (nodes m) P (cells (F ++ M ++ B)) Q →
  ∃ h', reverse_loop n (first_or (cells (F ++ M ++ B)) Q)
                       (last_or (cells (F ++ M ++ B)) P) m = Ok tt (Mem h' (objs m)) ∧
    seg h' P (cells (zip F.*1 (rev B.*2) ++ M ++ zip B.*1 (rev F.*2))) Q ∧
    (∀ a, a ∉ F.*1 → a ∉ B.*1 → h' !! a = nodes m !! a) ∧
    (∀ a nd, nodes m !! a = Some nd →
       ∃ nd', h' !! a = Some nd' ∧ prev nd' = prev nd ∧ next nd' = next nd).
Proof.
  induction n as [|n IH]; intros m P Q F M B HF HB Hnd Hs.
  - destruct F; [|done]. destruct B; [|done]. rewrite app_nil_r in *.
    exists (nodes m). simpl. rewrite mem_eta, app_nil_r. simpl in Hs. split_and!; eauto.
  - destruct F as [|[fa fx] F]; [done|].
    destruct B as [|[ba bx] B _] using rev_ind; [done|].
    rewrite length_app in HB. simpl in HF, HB.
    set (mid := F ++ M ++ B).
    set (mid' := zip F.*1 (rev B.*2) ++ M ++ zip B.*1 (rev F.*2)).
    assert (E : cells (((fa, fx) :: F) ++ M ++ B ++ [(ba, bx)])
                = (fa, Some fx) :: cells mid ++ [(ba, Some bx)]).
    { unfold mid, cells. rewrite ?fmap_app, ?fmap_cons, ?fmap_app. simpl.
      by rewrite <-?app_assoc. }
    assert (E' : cells (zip ((fa, fx) :: F).*1 (rev (B ++ [(ba, bx)]).*2) ++ M ++
                    zip (B ++ [(ba, bx)]).*1 (rev ((fa, fx) :: F).*2))
                  = (fa, Some bx) :: cells mid' ++ [(ba, Some fx)]).
    { rewrite !fmap_app. simpl. rewrite rev_unit. simpl.
      rewrite zip_with_app by (rewrite length_rev, !length_fmap; lia).
      unfold mid', cells. rewrite !fmap_app. simpl. by rewrite <-!app_assoc. }
    rewrite E in Hs |- *. rewrite E'. clear E E'.
    assert (Hnd' : NoDup (fa :: mid.*1 ++ [ba])).
    { unfold mid. rewrite !fmap_app. rewrite !fmap_app in Hnd. simpl in Hnd.
      rewrite <-!app_assoc. exact Hnd. }
    clear Hnd. simpl in Hs |- *.
    apply NoDup_cons in Hnd' as [Hnd1 Hnd2].
    assert (fa ≠ ba) by set_solver.
    apply NoDup_app in Hnd2 as (Hnd2 & Hnd3 & _).
    destruct Hs as [Hfa Hs]. apply seg_app in Hs as [Hs Hba]. simpl in Hs, Hba.
    destruct Hba as [Hba _]. rewrite first_or_app in Hfa. simpl in Hfa.
    rewrite last_or_app. simpl.
    set (m1 := Mem (<[ba:=Node (last_or (cells mid) (Some fa)) Q (Some fx)]>
                     (<[fa:=Node P (first_or (cells mid) (Some ba)) (Some bx)]> (nodes m)))
                   (objs m)).
    assert (Hfa' : fa ∉ mid.*1) by set_solver.
    assert (Hba' : ba ∉ mid.*1).
    { intros Hin. apply (Hnd3 ba Hin). set_solver. }
    destruct (IH m1 (Some fa) (Some ba) F M B) as (h' & Hrun & Hs' & Hout & Hlinks);
      [lia|lia|done| |].
    { simpl. eapply seg_frame; [|exact Hs]. intros a Ha. rewrite cells_fst in Ha.
      rewrite !lookup_insert_ne; [done|set_solver|set_solver]. }
    fold mid' in Hs'.
    assert (Emid : (cells mid').*1 = (cells mid).*1).
    { rewrite !cells_fst. unfold mid, mid'. rewrite !fmap_app.
      rewrite !fst_zip; [done|..]; rewrite length_rev, !length_fmap; lia. }
    unfold mid in Hfa', Hba'. rewrite !fmap_app in Hfa', Hba'.
    exists h'. split; [|split; [|split]].
    + repeat step. fold m1. exact Hrun.
    + split.
      * rewrite Hout by set_solver.
        simpl. rewrite lookup_insert_ne by done. rewrite lookup_insert_eq.
        rewrite first_or_app. simpl. do 2 f_equal.
        by apply first_or_fst.
      * apply seg_app. split; [done|]. simpl. split; [|done].
        rewrite Hout by set_solver.
        simpl. rewrite lookup_insert_eq. do 2 f_equal. by apply last_or_fst.
    + intros a Ha1 Ha2. rewrite ?fmap_cons in Ha1. rewrite ?fmap_app in Ha2.
      simpl in Ha1, Ha2. rewrite Hout by set_solver. simpl.
      rewrite !lookup_insert_ne by set_solver. done.
    + intros a nd Ha.
      destruct (decide (a = ba)) as [->|].
      { destruct (Hlinks ba (Node (last_or (cells mid) (Some fa)) Q (Some fx)))
          as (nd' & ? & ? & ?); [simpl; by rewrite lookup_insert_eq|].
        exists nd'. rewrite Hba in Ha. by simplify_eq. }
      destruct (decide (a = fa)) as [->|].
      { destruct (Hlinks fa (Node P (first_or (cells mid) (Some ba)) (Some bx)))
          as (nd' & ? & ? & ?);
          [simpl; rewrite lookup_insert_ne by done; by rewrite lookup_insert_eq|].
        exists nd'. rewrite Hfa in Ha. by simplify_eq. }
      apply Hlinks. simpl. by rewrite !lookup_insert_ne by done.
Qed.


Lemma half_bounds (n : nat) : 2 * (n / 2) ≤ n ∧ n ≤ 2 * (n / 2) + 1.
Proof.
  pose proof (Nat.div_mod_eq n 2). pose proof (Nat.mod_upper_bound n 2). lia.
Qed.

Lemma split_halves es :
  ∃ F M B, es = F ++ M ++ B ∧ length F = length es / 2 ∧
    length B = length es / 2 ∧ length M ≤ 1.
Proof.
  pose proof (half_bounds (length es)) as [H1 H2].
  set (n := length es / 2) in *.
  exists (take n es), (take (length es - 2 * n) (drop n es)), (drop (length es - n) es).
  split_and!.
  - rewrite <-(take_drop n es) at 1. f_equal.
    rewrite <-(take_drop (length es - 2 * n) (drop n es)) at 1. f_equal.
    rewrite drop_drop. f_equal. lia.
  - rewrite length_take. lia.
  - rewrite length_drop. lia.
  - rewrite length_take, length_drop. lia.
Qed.

Lemma reversed_split (F M B : list (loc * T)) :
  length F = length B → length M ≤ 1 →
  reversed (F ++ M ++ B) = zip F.*1 (rev B.*2) ++ M ++ zip B.*1 (rev F.*2).
Proof.
  intros HFB HM. unfold reversed. rewrite !fmap_app, !rev_app_distr, <-!app_assoc.
  rewrite zip_with_app by (rewrite length_rev, !length_fmap; lia).
  rewrite zip_with_app by (rewrite length_rev, !length_fmap; lia).
  do 2 f_equal. destruct M as [|[a x] [|? ?]]; simpl in *; [done|done|lia].
Qed.

Lemma reversed_fst es : (reversed es).*1 = es.*1.
Proof. unfold reversed. apply fst_zip. by rewrite length_rev, !length_fmap. Qed.

Lemma reversed_snd es : (reversed es).*2 = rev es.*2.
Proof. unfold reversed. apply snd_zip. by rewrite length_rev, !length_fmap. Qed.

Lemma length_reversed es : length (reversed es) = length es.
Proof. by rewrite <-(length_fmap fst), reversed_fst, length_fmap. Qed.

Lemma reversed_involutive es : reversed (reversed es) = es.
Proof.
  unfold reversed at 1. rewrite reversed_fst, reversed_snd, rev_involutive.
  apply zip_fst_snd.
Qed.

Lemma reversed_short es : length es ≤ 1 → reversed es = es.
Proof. destruct es as [|[a x] [|? ?]]; simpl; [done|done|lia]. Qed.

Lemma reverse_spec m this hd tl es :
  is_list m this hd tl es →
  ∃ m', reverse this m = Ok tt m' ∧
    is_list m' this hd tl (reversed es) ∧
    objs m' = objs m ∧
    (∀ a, a ∉ es.*1 → nodes m' !! a = nodes m !! a) ∧
    (∀ a nd, nodes m !! a = Some nd →
       ∃ nd', nodes m' !! a = Some nd' ∧ prev nd' = prev nd ∧ next nd' = next nd) ∧
    (∀ (F : list (loc * T)) e B, es = F ++ e :: B → length F = length B →
       nodes m' !! e.1 = nodes m !! e.1).
Proof.
  intros Hl. pose proof Hl as (Ho & Hlt & Hnd & Hs).
  pose proof (is_list_hd _ _ _ _ _ Hl) as Hhd.
  pose proof (is_list_tl _ _ _ _ _ Hl) as Htl.
  destruct (decide (length es ≤ 1)) as [Hshort|Hlong].
  { exists m. rewrite reversed_short by done. split_and!; try done.
    - unfold reverse. step. by rewrite (proj2 (Z.leb_le _ _)) by lia.
    - eauto. }
  destruct (split_halves es) as (F & M & B & E & HF & HB & HM).
  rewrite chain_fst in Hnd. apply NoDup_cons in Hnd as [Hnd1 Hnd2].
  apply NoDup_app in Hnd2 as (Hnd2 & Hnd3 & _).
  unfold chain in Hs. simpl in Hs. destruct Hs as [Hs0 Hs].
  apply seg_app in Hs as [Hs Hs1]. simpl in Hs, Hs1. destruct Hs1 as [Hs1 _].
  destruct (reverse_loop_spec (length es / 2) m (Some hd) (Some tl) F M B)
    as (h' & Hrun & Hs' & Hout & Hlinks); [done|done|by rewrite <-E|by rewrite <-E|].
  rewrite <-E in Hrun. rewrite <-reversed_split, <-E in Hs' by lia.
  assert (HFB : ∀ a, a ∉ es.*1 → (a ∉ F.*1) ∧ (a ∉ B.*1)).
  { intros a. rewrite E, !fmap_app. set_solver. }
  assert (hd ∉ es.*1) by set_solver.
  assert (tl ∉ es.*1). { intros Hin. apply (Hnd3 tl Hin). set_solver. }
  exists (Mem h' (objs m)). split; [|split; [|split; [|split; [|split]]]].
  - unfold reverse. step. rewrite (proj2 (Z.leb_gt _ _)) by lia.
    repeat step.
    replace (Z.to_nat (Z.of_nat (length es) / 2)) with (length es / 2); [done|].
    change 2%Z with (Z.of_nat 2). by rewrite <-Nat2Z.inj_div, Nat2Z.id.
  - split_and!; cbn [nodes objs].
    + by rewrite length_reversed.
    + by rewrite length_reversed.
    + rewrite chain_fst, reversed_fst. apply NoDup_cons. split; [done|].
      apply NoDup_app. split_and!; [done|done|apply NoDup_singleton].
    + unfold chain. simpl. split.
      * rewrite Hout by (by apply HFB). rewrite Hs0. do 2 f_equal.
        rewrite !first_or_app. apply first_or_fst.
        by rewrite !cells_fst, reversed_fst.
      * apply seg_app. split; [done|]. simpl. split; [|done].
        rewrite Hout by (by apply HFB). rewrite Hs1. do 2 f_equal.
        apply last_or_fst. by rewrite !cells_fst, reversed_fst.
  - done.
  - intros a Ha. simpl. apply Hout; by apply HFB.
  - done.
  - intros F' c B' E' Hlen. simpl.
    assert (length es = 2 * length F' + 1).
    { rewrite E', length_app. simpl. lia. }
    pose proof (half_bounds (length es)).
    rewrite E' in Hnd2. rewrite E in E'.
    apply app_inj_1 in E' as [-> E']; [|lia].
    destruct M as [|c0 [|? ?]]; simpl in HM, E'; [|simplify_eq|lia].
    { subst B. cbn [length] in HB. lia. }
    rewrite fmap_app, fmap_cons in Hnd2.
    apply NoDup_app in Hnd2 as (_ & Hnd2 & Hnd4). apply NoDup_cons in Hnd4 as [Hnd4 _].
    apply Hout; [|done]. intros Hin. apply (Hnd2 _ Hin). set_solver.
Qed.

Lemma reverse_twice m this hd tl es m' :
  is_list m this hd tl es →
  reverse this m = Ok tt m' → reverse this m' = Ok tt m.
Proof.
  intros Hl Hrun.
  destruct (reverse_spec m this hd tl es Hl) as (m1 & Hrun1 & Hl1 & Ho1 & Hout1 & _).
  rewrite Hrun in Hrun1. injection Hrun1 as <-.
  destruct (reverse_spec m' this hd tl _ Hl1) as (m2 & Hrun2 & Hl2 & Ho2 & Hout2 & _).
  rewrite reversed_involutive in Hl2. rewrite reversed_fst in Hout2.
  rewrite Hrun2. f_equal.
  rewrite <-(mem_eta m2), <-(mem_eta m). f_equal; [|congruence].
  apply map_eq. intros a.
  destruct (decide (a ∈ es.*1)) as [Hin|Hout].
  - destruct Hl2 as (_ & _ & _ & Hs2), Hl as (_ & _ & _ & Hs).
    apply (seg_agree _ _ _ _ _ _ Hs2 Hs). rewrite chain_fst. set_solver.
  - by rewrite Hout2, Hout1.
Qed.

End reverse.


Section unique.
Context {T : Type} (neqb : T → T → bool).
Implicit Types (m : @mem T) (h : gmap loc (@node T)) (a b : loc) (p q : option loc)
  (l : list (loc * option T)) (c : loc * option T) (es : list (loc * T)).

Lemma uniq_run_drop x es : uniq_run neqb x es = uniq neqb (drop_eq neqb x es).
Proof.
  induction es as [|e es IH]; simpl; [done|].
  destruct (negb (neqb x e.2)); [done|]. done.
Qed.

Lemma drop_eq_length x es : length (drop_eq neqb x es) ≤ length es.
Proof.
  induction es as [|e es IH]; simpl; [lia|].
  destruct (negb (neqb x e.2)); simpl; lia.
Qed.

Lemma drop_eq_subseteq x es : drop_eq neqb x es ⊆ es.
Proof.
  induction es as [|e es IH]; simpl; [done|].
  destruct (negb (neqb x e.2)); set_solver.
Qed.

Lemma uniq_subseteq es : uniq neqb es ⊆ es.
Proof.
  remember (length es) as n eqn:Hn. revert es Hn.
  induction n as [n IH] using lt_wf_ind; intros es Hn.
  destruct es as [|e es]; simpl; [done|].
  rewrite uniq_run_drop.
  pose proof (drop_eq_length e.2 es). pose proof (drop_eq_subseteq e.2 es).
  assert (uniq neqb (drop_eq neqb e.2 es) ⊆ drop_eq neqb e.2 es).
  { eapply IH; [|done]. simpl in Hn. lia. }
  set_solver.
Qed.

Lemma uniq_length es : length (uniq neqb es) ≤ length es.
Proof.
  remember (length es) as n eqn:Hn. revert es Hn.
  induction n as [n IH] using lt_wf_ind; intros es Hn.
  destruct es as [|e es]; simpl; [lia|].
  rewrite uniq_run_drop.
  pose proof (drop_eq_length e.2 es).
  assert (length (uniq neqb (drop_eq neqb e.2 es)) ≤ length (drop_eq neqb e.2 es)).
  { eapply IH; [|done]. simpl in Hn. lia. }
  simpl in Hn. lia.
Qed.

Lemma unique_inner_spec : ∀ rest fuel m this hd tl E1 pa px,
  is_list m this hd tl (E1 ++ (pa, px) :: rest) →
  length rest < fuel →
  ∃ m', unique_inner neqb fuel this (Some pa) (first_or (cells rest) (Some tl)) m
        = Ok (first_or (cells (drop_eq neqb px rest)) (Some tl)) m' ∧
    is_list m' this hd tl (E1 ++ (pa, px) :: drop_eq neqb px rest) ∧
    (∀ a, a ∈ rest.*1 → a ∉ (drop_eq neqb px rest).*1 → nodes m' !! a = None) ∧
    frame m m' (chain hd (E1 ++ (pa, px) :: rest) tl).*1 this ∧
    (∀ b, nodes m !! b = None → nodes m' !! b = None).
Proof.
  induction rest as [|[a y] rest IH]; intros fuel m this hd tl E1 pa px Hl Hf;
    (destruct fuel as [|fuel]; [simpl in Hf; lia|]);
    pose proof (is_list_obj _ _ _ _ _ Hl) as Ho.
  - exists m. split; [|split; [done|split; [|split; [apply frame_refl|done]]]].
    + cbn [unique_inner]. step. by rewrite ptr_eq_refl.
    + intros a Ha. by apply elem_of_nil in Ha.
  - pose proof (is_list_elem _ _ _ _ _ _ _ _ Hl) as Hp.
    assert (Hl2 : is_list m this hd tl ((E1 ++ [(pa, px)]) ++ (a, y) :: rest))
      by by rewrite <-app_assoc.
    pose proof (is_list_elem _ _ _ _ _ _ _ _ Hl2) as Hn.
    destruct (is_list_elem_ne _ _ _ _ _ a Hl2) as [_ Hat]; [rewrite fmap_app; set_solver|].
    cbn [drop_eq snd].
    change (first_or (cells ((a, y) :: rest)) (Some tl)) with (Some a).
    destruct (negb (neqb px y)) eqn:Heq.
    + destruct (unlink_spec (λ n', unique_inner neqb fuel this (Some pa) n')
                  m this hd tl _ a y rest Hl2) as (m1 & Hrun1 & Hl1 & Hgone1 & Hfr1 & Hna1).
      rewrite <-app_assoc in Hl1. simpl in Hl1.
      destruct (IH fuel m1 this hd tl E1 pa px Hl1) as (m' & Hrun & Hl' & Hgone & Hfr & Hna);
        [simpl in Hf; lia|].
      exists m'. split; [|split; [done|split; [|split]]].
      * cbn [unique_inner]. step. rewrite ptr_eq_Some_ne by done.
        rewrite (bind_Ok _ _ _ _ _ (deref_val_Ok _ _ _ _ Hp eq_refl)).
        rewrite (bind_Ok _ _ _ _ _ (deref_val_Ok _ _ _ _ Hn eq_refl)).
        rewrite Heq. etrans; [exact Hrun1|]. exact Hrun.
      * intros b [->|Hb]%elem_of_cons Hb'; [by apply Hna|by apply Hgone].
      * rewrite <-app_assoc in Hfr1. simpl in Hfr1.
        eapply frame_trans; [exact Hfr1|exact Hfr|].
        intros b Hb. left. rewrite chain_fst, fmap_app in Hb |- *.
        rewrite !fmap_cons. simpl in Hb |- *. set_solver.
      * intros b Hb. by apply Hna, Hna1.
    + exists m. split; [|split; [done|split; [|split; [apply frame_refl|done]]]].
      * cbn [unique_inner]. step. rewrite ptr_eq_Some_ne by done.
        rewrite (bind_Ok _ _ _ _ _ (deref_val_Ok _ _ _ _ Hp eq_refl)).
        rewrite (bind_Ok _ _ _ _ _ (deref_val_Ok _ _ _ _ Hn eq_refl)).
        by rewrite Heq.
      * intros b Hb Hb'. done.
Qed.


Lemma unique_outer_spec : ∀ fuel m this hd tl E1 es2,
  is_list m this hd tl (E1 ++ es2) →
  length es2 < fuel →
  ∃ m', unique_outer neqb fuel this (first_or (cells es2) (Some tl)) m = Ok tt m' ∧
    is_list m' this hd tl (E1 ++ uniq neqb es2) ∧
    (∀ a, a ∈ es2.*1 → a ∉ (uniq neqb es2).*1 → nodes m' !! a = None) ∧
    frame m m' (chain hd (E1 ++ es2) tl).*1 this ∧
    (∀ b, nodes m !! b = None → nodes m' !! b = None).
Proof.
  induction fuel as [|fuel IH]; intros m this hd tl E1 es2 Hl Hf; [lia|].
  pose proof (is_list_obj _ _ _ _ _ Hl) as Ho.
  destruct es2 as [|[pa px] rest].
  - exists m. split; [|split; [done|split; [|split; [apply frame_refl|done]]]].
    + cbn [unique_outer]. step. by rewrite ptr_eq_refl.
    + intros a Ha. by apply elem_of_nil in Ha.
  - pose proof (is_list_elem _ _ _ _ _ _ _ _ Hl) as Hp.
    destruct (is_list_elem_ne _ _ _ _ _ pa Hl) as [_ Hat]; [rewrite fmap_app; set_solver|].
    change (first_or (cells ((pa, px) :: rest)) (Some tl)) with (Some pa).
    destruct (unique_inner_spec rest (S fuel) m this hd tl E1 pa px Hl)
      as (m1 & Hrun1 & Hl1 & Hgone1 & Hfr1 & Hna1); [simpl in Hf; lia|].
    assert (Hl1' : is_list m1 this hd tl ((E1 ++ [(pa, px)]) ++ drop_eq neqb px rest))
      by by rewrite <-app_assoc.
    pose proof (drop_eq_length px rest) as Hlen.
    destruct (IH m1 this hd tl _ _ Hl1') as (m' & Hrun & Hl' & Hgone & Hfr & Hna);
      [simpl in Hf; lia|].
    cbn [uniq snd]. rewrite uniq_run_drop.
    exists m'. split; [|split; [|split; [|split]]].
    + cbn [unique_outer]. step. rewrite ptr_eq_Some_ne by done.
      step. rewrite (bind_Ok _ _ _ _ _ Hrun1). exact Hrun.
    + by rewrite <-app_assoc in Hl'.
    + intros b Hb Hb'. rewrite !fmap_cons in Hb, Hb'. simpl in Hb, Hb'.
      assert (Hb2 : b ∈ rest.*1) by set_solver.
      destruct (decide (b ∈ (drop_eq neqb px rest).*1)) as [Hin|Hout].
      * apply Hgone; [done|]. set_solver.
      * apply Hna. by apply Hgone1.
    + rewrite <-app_assoc in Hfr. simpl in Hfr.
      apply (frame_trans m m1 m' (chain hd (E1 ++ (pa, px) :: rest) tl).*1
               (chain hd (E1 ++ (pa, px) :: drop_eq neqb px rest) tl).*1);
        [exact Hfr1|exact Hfr|].
      intros b Hb. left. rewrite chain_fst, fmap_app, fmap_cons in Hb |- *.
      simpl in Hb |- *.
      pose proof (drop_eq_subseteq px rest) as Hsub.
      assert (Hsub' : (drop_eq neqb px rest).*1 ⊆ rest.*1).
      { intros c' (e & -> & He)%list_elem_of_fmap. apply list_elem_of_fmap.
        exists e. split; [done|]. by apply Hsub. }
      set_solver.
    + intros b Hb. by apply Hna, Hna1.
Qed.

Lemma uniq_short es : length es ≤ 1 → uniq neqb es = es.
Proof. destruct es as [|e [|? ?]]; simpl; [done|done|lia]. Qed.

Lemma unique_spec fuel m this hd tl es :
  is_list m this hd tl es →
  length es < fuel →
  ∃ m', unique neqb fuel this m = Ok tt m' ∧
    is_list m' this hd tl (uniq neqb es) ∧
    (∀ a, a ∈ es.*1 → a ∉ (uniq neqb es).*1 → nodes m' !! a = None) ∧
    frame m m' (chain hd es tl).*1 this ∧
    (∀ b, nodes m !! b = None → nodes m' !! b = None) ∧
    (length es ≤ 1 → m' = m).
Proof.
  intros Hl Hf.
  pose proof (is_list_obj _ _ _ _ _ Hl) as Ho.
  pose proof (is_list_hd _ _ _ _ _ Hl) as Hhd.
  destruct (decide (length es ≤ 1)) as [Hshort|Hlong].
  { exists m. rewrite uniq_short by done.
    split; [|split; [done|split; [done|split; [apply frame_refl|done]]]].
    unfold unique. step. by rewrite (proj2 (Z.leb_le _ _)) by lia. }
  destruct (unique_outer_spec fuel m this hd tl [] es Hl Hf)
    as (m' & Hrun & Hl' & Hgone & Hfr & Hna).
  exists m'. split; [|split; [done|split; [done|split; [done|split; [done|lia]]]]].
  unfold unique. step. rewrite (proj2 (Z.leb_gt _ _)) by lia.
  repeat step. exact Hrun.
Qed.

End unique.


Section merge.
Context {T : Type} (ltb : T → T → bool).
Implicit Types (m : @mem T) (h : gmap loc (@node T)) (a b : loc) (p q : option loc)
  (l : list (loc * option T)) (c : loc * option T) (es : list (loc * T)).

Lemma splice_cells {A} (k : option loc → @M T A) m this other oA oB
    l1 aq vq a va l2 k1 bp vbp b vb bn vbn k2 PA QA PB QB :
  this ≠ other →
  objs m !! this = Some oA → objs m !! other = Some oB →
  NoDup ((l1 ++ (aq, vq) :: (a, va) :: l2).*1 ++
         (k1 ++ (bp, vbp) :: (b, vb) :: (bn, vbn) :: k2).*1) →
  seg (nodes m) PA (l1 ++ (aq, vq) :: (a, va) :: l2) QA →
  seg (nodes m) PB (k1 ++ (bp, vbp) :: (b, vb) :: (bn, vbn) :: k2) QB →
  ∃ m', splice_seq this other (Some a) (Some b) k m = k (Some bn) m' ∧
    objs m' = <[other:=ListObj (head oB) (tail oB) (wrap (sz oB - 1))]>
                (<[this:=ListObj (head oA) (tail oA) (wrap (sz oA + 1))]> (objs m)) ∧
    seg (nodes m') PA (l1 ++ (aq, vq) :: (b, vb) :: (a, va) :: l2) QA ∧
    seg (nodes m') PB (k1 ++ (bp, vbp) :: (bn, vbn) :: k2) QB ∧
    (∀ d, d ≠ aq → d ≠ a → d ≠ bp → d ≠ b → d ≠ bn → nodes m' !! d = nodes m !! d).
Proof.
  intros Hne HoA HoB Hnd HsA HsB.
  destruct (seg_lookup2 _ _ _ _ _ _ _ HsA) as [Hq Ha]. simpl in Hq, Ha.
  destruct (seg_lookup2 _ _ _ _ _ _ _ HsB) as [Hbp Hb]. simpl in Hbp, Hb.
  assert (Hbn : nodes m !! bn = Some (Node (Some b) (first_or k2 QB) vbn)).
  { apply seg_app in HsB as [_ HsB]. simpl in HsB. naive_solver. }
  rewrite !fmap_app, !fmap_cons in Hnd. simpl in Hnd.
  apply NoDup_app in Hnd as (HndA & Hdisj & HndB).
  apply NoDup_app in HndA as (Hl1 & Hl1d & HndA). rewrite !NoDup_cons in HndA.
  apply NoDup_app in HndB as (Hk1 & Hk1d & HndB). rewrite !NoDup_cons in HndB.
  destruct HndA as (HaqA & HaA & Hl2).
  destruct HndB as (HbpB & HbB & HbnB & Hk2).
  assert (aq ≠ a) by (intros ->; apply HaqA; left).
  assert (bp ≠ b) by (intros ->; apply HbpB; left).
  assert (bp ≠ bn) by (intros ->; apply HbpB; right; left).
  assert (b ≠ bn) by (intros ->; apply HbB; left).
  assert (HinA : ∀ d, d = aq ∨ d = a ∨ d ∈ l1.*1 ∨ d ∈ l2.*1 →
            d ∈ l1.*1 ++ aq :: a :: l2.*1).
  { intros d. rewrite elem_of_app, !elem_of_cons. tauto. }
  assert (HinB : ∀ d, d = bp ∨ d = b ∨ d = bn ∨ d ∈ k1.*1 ∨ d ∈ k2.*1 →
            d ∈ k1.*1 ++ bp :: b :: bn :: k2.*1).
  { intros d. rewrite elem_of_app, !elem_of_cons. tauto. }
  assert (HAB : ∀ d d', (d = aq ∨ d = a ∨ d ∈ l1.*1 ∨ d ∈ l2.*1) →
            (d' = bp ∨ d' = b ∨ d' = bn ∨ d' ∈ k1.*1 ∨ d' ∈ k2.*1) → d ≠ d').
  { intros d d' Hd Hd' ->. apply (Hdisj d'); [by apply HinA|by apply HinB]. }
  assert (aq ≠ bp) by (apply HAB; tauto). assert (aq ≠ b) by (apply HAB; tauto).
  assert (aq ≠ bn) by (apply HAB; tauto). assert (a ≠ bp) by (apply HAB; tauto).
  assert (a ≠ b) by (apply HAB; tauto). assert (a ≠ bn) by (apply HAB; tauto).
  clear HinA HinB.
  eexists. split.
  { unfold splice_seq. repeat step. reflexivity. }
  red_fields. split; [done|]. split; [|split].
  - apply seg_app in HsA as [HsA1 HsA2]. simpl in HsA2. destruct HsA2 as (_ & _ & HsA2).
    apply seg_app. split.
    + eapply seg_frame; [|exact HsA1]. intros d Hd.
      specialize (Hl1d d Hd).
      assert (d ≠ aq ∧ d ≠ a) as [? ?].
      { split; intros ->; apply Hl1d; [left|right; left]. }
      assert (d ≠ bp ∧ d ≠ b ∧ d ≠ bn) as (? & ? & ?) by (split_and!; apply HAB; tauto).
      rewrite !lookup_insert_ne by done. done.
    + simpl. split_and!.
      * solve_lookup.
      * solve_lookup.
      * solve_lookup.
      * eapply seg_frame; [|exact HsA2]. intros d Hd.
        assert (d ≠ aq ∧ d ≠ a) as [? ?].
        { split; intros ->; [apply HaqA|apply HaA]; [by right|done]. }
        assert (d ≠ bp ∧ d ≠ b ∧ d ≠ bn) as (? & ? & ?) by (split_and!; apply HAB; tauto).
        rewrite !lookup_insert_ne by done. done.
  - apply seg_app in HsB as [HsB1 HsB2]. simpl in HsB2. destruct HsB2 as (_ & _ & _ & HsB2).
    apply seg_app. split.
    + eapply seg_frame; [|exact HsB1]. intros d Hd.
      specialize (Hk1d d Hd).
      assert (d ≠ bp ∧ d ≠ b ∧ d ≠ bn) as (? & ? & ?).
      { split_and!; intros ->; apply Hk1d; [left|right; left|right; right; left]. }
      assert (aq ≠ d ∧ a ≠ d) as (? & ?) by (split_and!; apply HAB; tauto).
      rewrite !lookup_insert_ne by done. done.
    + simpl. split_and!.
      * solve_lookup.
      * solve_lookup.
      * eapply seg_frame; [|exact HsB2]. intros d Hd.
        assert (d ≠ bp ∧ d ≠ b ∧ d ≠ bn) as (? & ? & ?).
        { split_and!; intros ->; [apply HbpB|apply HbB|apply HbnB];
            [by right; right|by right|done]. }
        assert (aq ≠ d ∧ a ≠ d) as (? & ?) by (split_and!; apply HAB; tauto).
        rewrite !lookup_insert_ne by done. done.
  - intros d ? ? ? ? ?. rewrite !lookup_insert_ne by done. done.
Qed.


Lemma splice_spec {A} (k : option loc → @M T A) m this hd tl A1 a x A2
    other ohd otl b y B2 :
  this ≠ other →
  is_list m this hd tl (A1 ++ (a, x) :: A2) →
  is_list m other ohd otl ((b, y) :: B2) →
  (chain hd (A1 ++ (a, x) :: A2) tl).*1 ## (chain ohd ((b, y) :: B2) otl).*1 →
  (Z.of_nat (length (A1 ++ (a, x) :: A2)) + 1 < size_max)%Z →
  ∃ m', splice_seq this other (Some a) (Some b) k m
        = k (first_or (cells B2) (Some otl)) m' ∧
    is_list m' this hd tl (A1 ++ (b, y) :: (a, x) :: A2) ∧
    is_list m' other ohd otl B2 ∧
    (chain hd (A1 ++ (b, y) :: (a, x) :: A2) tl).*1 ## (chain ohd B2 otl).*1 ∧
    (∀ d, d ∉ (chain hd (A1 ++ (a, x) :: A2) tl).*1 →
          d ∉ (chain ohd ((b, y) :: B2) otl).*1 → nodes m' !! d = nodes m !! d) ∧
    (∀ o : loc, o ≠ this → o ≠ other → objs m' !! o = objs m !! o).
Proof.
  intros Hne (HoA & HltA & HndA & HsA) (HoB & HltB & HndB & HsB) Hdisj Hsz.
  destruct (pre_snoc hd A1) as (l1 & aq & vq & E1).
  destruct (post_cons B2 otl) as (bn & vbn & k2 & E2 & ->).
  set (l2 := cells A2 ++ [(tl, None)]).
  assert (EA : chain hd (A1 ++ (a, x) :: A2) tl = l1 ++ (aq, vq) :: (a, Some x) :: l2).
  { rewrite chain_app, E1. simpl. by rewrite <-app_assoc. }
  assert (EA' : chain hd (A1 ++ (b, y) :: (a, x) :: A2) tl
                = l1 ++ (aq, vq) :: (b, Some y) :: (a, Some x) :: l2).
  { rewrite chain_app, E1. simpl. by rewrite <-app_assoc. }
  assert (EB : chain ohd ((b, y) :: B2) otl
               = [] ++ (ohd, None) :: (b, Some y) :: (bn, vbn) :: k2).
  { unfold chain. simpl. by rewrite E2. }
  assert (EB' : chain ohd B2 otl = [] ++ (ohd, None) :: (bn, vbn) :: k2).
  { unfold chain. simpl. by rewrite E2. }
  rewrite EA in HndA, HsA, Hdisj |- *. rewrite EB in HndB, HsB, Hdisj |- *.
  rewrite EA', EB'. clear EA EB E1 E2.
  destruct (splice_cells k m this other _ _ l1 aq vq a (Some x) l2
              [] ohd None b (Some y) bn vbn k2 None None None None Hne HoA HoB)
    as (m' & Hrun & Hobjs & HsA' & HsB' & Hfr); [|done|done|].
  { apply NoDup_app. split_and!; [done| |done]. intros d Hd Hd'. by apply (Hdisj d). }
  assert (HbA : b ∉ (l1 ++ (aq, vq) :: (a, Some x) :: l2).*1).
  { intros Hin. apply (Hdisj b Hin). simpl. right. left. }
  exists m'. split; [exact Hrun|]. split; [|split; [|split; [|split]]].
  - unfold is_list. rewrite EA', Hobjs. split_and!.
    + rewrite lookup_insert_ne by done. rewrite lookup_insert_eq. simpl. do 2 f_equal.
      rewrite wrap_small by lia. rewrite !length_app. simpl. lia.
    + rewrite length_app in Hsz |- *. simpl in Hsz |- *. lia.
    + rewrite ?fmap_app in HndA, HbA |- *. simpl in HndA, HbA |- *.
      by apply NoDup_insert_mid.
    + done.
  - unfold is_list. rewrite EB', Hobjs. split_and!.
    + rewrite lookup_insert_eq. simpl in HltB |- *. do 2 f_equal.
      rewrite wrap_small by lia. lia.
    + simpl in HltB. lia.
    + simpl in HndB |- *. by apply (NoDup_remove_mid [] _ b ohd).
    + done.
  - intros d Hd Hd'.
    rewrite fmap_app in Hd, Hdisj. simpl in Hd, Hd', Hdisj, HndB.
    rewrite elem_of_app, !elem_of_cons in Hd.
    rewrite !elem_of_cons in Hd'.
    assert (d = b ∨ d ∈ l1.*1 ++ aq :: a :: l2.*1) as [->|Hd1].
    { rewrite elem_of_app, !elem_of_cons. tauto. }
    + rewrite !NoDup_cons, !elem_of_cons in HndB. intuition congruence.
    + apply (Hdisj d Hd1). rewrite !elem_of_cons. tauto.
  - intros d Hd Hd'. rewrite fmap_app in Hd. simpl in Hd, Hd'.
    rewrite elem_of_app, !elem_of_cons in Hd. rewrite !elem_of_cons in Hd'.
    apply Hfr; intros ->; tauto.
  - intros o ? ?. rewrite Hobjs. by rewrite !lookup_insert_ne.
Qed.


Lemma mloop_nil_l B : mloop ltb [] B = ([], B).
Proof. by destruct B. Qed.

Lemma mloop_nil_r A : mloop ltb A [] = (A, []).
Proof. by destruct A. Qed.

Lemma mloop_cons e A e' B :
  mloop ltb (e :: A) (e' :: B) =
  if ltb e'.2 e.2
  then (e' :: (mloop ltb (e :: A) B).1, (mloop ltb (e :: A) B).2)
  else (e :: (mloop ltb A (e' :: B)).1, (mloop ltb A (e' :: B)).2).
Proof. done. Qed.

Lemma merged_mloop A B : merged ltb A B = (mloop ltb A B).1 ++ (mloop ltb A B).2.
Proof.
  revert B. induction A as [|e A IHA]; intros B.
  - rewrite mloop_nil_l. by destruct B.
  - induction B as [|e' B IHB].
    + rewrite mloop_nil_r. simpl. by rewrite app_nil_r.
    + rewrite mloop_cons. simpl. destruct (ltb e'.2 e.2); simpl.
      * f_equal. exact IHB.
      * f_equal. apply IHA.
Qed.

Lemma merge_loop_spec : ∀ fuel m this hd tl A1 A2 other ohd otl B2,
  this ≠ other →
  is_list m this hd tl (A1 ++ A2) →
  is_list m other ohd otl B2 →
  (chain hd (A1 ++ A2) tl).*1 ## (chain ohd B2 otl).*1 →
  (Z.of_nat (length (A1 ++ A2) + length B2) < size_max)%Z →
  length A2 + length B2 < fuel →
  ∃ m' p1',
    merge_loop ltb fuel this other (first_or (cells A2) (Some tl))
      (first_or (cells B2) (Some otl)) m
    = Ok (p1', first_or (cells (mloop ltb A2 B2).2) (Some otl)) m' ∧
    is_list m' this hd tl (A1 ++ (mloop ltb A2 B2).1) ∧
    is_list m' other ohd otl (mloop ltb A2 B2).2 ∧
    (chain hd (A1 ++ (mloop ltb A2 B2).1) tl).*1 ##
      (chain ohd (mloop ltb A2 B2).2 otl).*1 ∧
    (∀ d, d ∉ (chain hd (A1 ++ A2) tl).*1 → d ∉ (chain ohd B2 otl).*1 →
          nodes m' !! d = nodes m !! d) ∧
    (∀ o : loc, o ≠ this → o ≠ other → objs m' !! o = objs m !! o).
Proof.
  induction fuel as [|fuel IH];
    intros m this hd tl A1 A2 other ohd otl B2 Hne HlA HlB Hdisj Hsz Hf; [lia|].
  pose proof (is_list_obj _ _ _ _ _ HlA) as HoA.
  pose proof (is_list_obj _ _ _ _ _ HlB) as HoB.
  destruct A2 as [|[a x] A2].
  { rewrite mloop_nil_l. exists m, (Some tl). split; [|done].
    cbn [merge_loop]. step. by rewrite ptr_eq_refl. }
  destruct (is_list_elem_ne _ _ _ _ _ a HlA) as [_ Hat]; [rewrite fmap_app; set_solver|].
  change (first_or (cells ((a, x) :: A2)) (Some tl)) with (Some a).
  destruct B2 as [|[b y] B2].
  { rewrite mloop_nil_r. exists m, (Some a). split; [|done].
    cbn [merge_loop]. step. rewrite ptr_eq_Some_ne by done. step.
    by rewrite ptr_eq_refl. }
  destruct (is_list_elem_ne _ _ _ _ _ b HlB) as [_ Hbt]; [set_solver|].
  change (first_or (cells ((b, y) :: B2)) (Some otl)) with (Some b).
  pose proof (is_list_elem _ _ _ _ _ _ _ _ HlA) as Ha.
  pose proof (is_list_elem m other ohd otl [] b y B2 HlB) as Hb.
  rewrite mloop_cons. cbn [snd].
  destruct (ltb y x) eqn:Hlt; cbn [fst snd].
  - destruct (splice_spec (λ n2, merge_loop ltb fuel this other (Some a) n2)
                m this hd tl A1 a x A2 other ohd otl b y B2 Hne HlA HlB Hdisj)
      as (m1 & Hrun1 & HlA1 & HlB1 & Hdisj1 & Hfr1 & Hfo1).
    { rewrite length_app in Hsz |- *. simpl in Hsz |- *. lia. }
    replace (A1 ++ (b, y) :: (a, x) :: A2) with ((A1 ++ [(b, y)]) ++ (a, x) :: A2)
      in HlA1, Hdisj1 by by rewrite <-app_assoc.
    destruct (IH m1 this hd tl (A1 ++ [(b, y)]) ((a, x) :: A2) other ohd otl B2
                Hne HlA1 HlB1 Hdisj1)
      as (m' & p1' & Hrun & HlA' & HlB' & Hdisj' & Hfr & Hfo).
    { rewrite !length_app in Hsz. rewrite !length_app. simpl in Hsz |- *. lia. }
    { simpl in Hf |- *. lia. }
    rewrite <-app_assoc in HlA', Hdisj'.
    exists m', p1'. split; [|split; [done|split; [done|split; [done|split]]]].
    + cbn [merge_loop]. step. rewrite ptr_eq_Some_ne by done.
      step. rewrite ptr_eq_Some_ne by done.
      rewrite (bind_Ok _ _ _ _ _ (deref_val_Ok _ _ _ _ Hb eq_refl)).
      rewrite (bind_Ok _ _ _ _ _ (deref_val_Ok _ _ _ _ Ha eq_refl)).
      rewrite Hlt. etrans; [exact Hrun1|]. exact Hrun.
    + intros d Hd Hd'. rewrite Hfr, Hfr1; [done..| |].
      * intros Hin. rewrite chain_fst, fmap_app in Hd, Hin.
        rewrite chain_fst in Hd'. rewrite !fmap_app, !fmap_cons in Hin.
        rewrite !fmap_cons in Hd, Hd'. simpl in Hin, Hd, Hd'.
        clear -Hin Hd Hd'.
        rewrite ?elem_of_cons, ?elem_of_app, ?elem_of_cons in Hin.
        rewrite ?elem_of_cons, ?elem_of_app, ?elem_of_cons, ?elem_of_app in Hd.
        rewrite ?elem_of_cons, ?elem_of_app, ?elem_of_cons in Hd'.
        rewrite elem_of_nil in Hin. tauto.
      * intros Hin. rewrite chain_fst in Hd', Hin. rewrite !fmap_cons in Hd'.
        simpl in Hd'. clear -Hin Hd'.
        rewrite ?elem_of_cons, ?elem_of_app, ?elem_of_cons in Hin.
        rewrite ?elem_of_cons, ?elem_of_app, ?elem_of_cons in Hd'. tauto.
    + intros o ? ?. by rewrite Hfo, Hfo1.
  - assert (HlA1 : is_list m this hd tl ((A1 ++ [(a, x)]) ++ A2))
      by by rewrite <-app_assoc.
    assert (Hdisj1 : (chain hd ((A1 ++ [(a, x)]) ++ A2) tl).*1 ##
                     (chain ohd ((b, y) :: B2) otl).*1)
      by by rewrite <-app_assoc.
    destruct (IH m this hd tl (A1 ++ [(a, x)]) A2 other ohd otl ((b, y) :: B2)
                Hne HlA1 HlB Hdisj1)
      as (m' & p1' & Hrun & HlA' & HlB' & Hdisj' & Hfr & Hfo).
    { rewrite !length_app in Hsz. rewrite !length_app. simpl in Hsz |- *. lia. }
    { simpl in Hf |- *. lia. }
    rewrite <-app_assoc in HlA', Hdisj', Hfr.
    exists m', p1'. split; [|done].
    cbn [merge_loop]. step. rewrite ptr_eq_Some_ne by done.
    step. rewrite ptr_eq_Some_ne by done.
    rewrite (bind_Ok _ _ _ _ _ (deref_val_Ok _ _ _ _ Hb eq_refl)).
    rewrite (bind_Ok _ _ _ _ _ (deref_val_Ok _ _ _ _ Ha eq_refl)).
    rewrite Hlt. step. exact Hrun.
Qed.

End merge.


Ltac notin_norm H :=
  repeat (rewrite not_elem_of_cons in H || rewrite not_elem_of_app in H).

Section merge2.
Context {T : Type} (ltb : T → T → bool).
Implicit Types (m : @mem T) (h : gmap loc (@node T)) (a b : loc) (p q : option loc)
  (l : list (loc * option T)) (c : loc * option T) (es : list (loc * T)).

Lemma last_or_elem l p la : l ≠ [] → last_or l p = Some la → la ∈ l.*1.
Proof.
  revert p. induction l as [|c l IH]; intros p Hne Hla; [done|].
  simpl in Hla. destruct l as [|c' l].
  - simpl in Hla. injection Hla as <-. simpl. left.
  - rewrite fmap_cons. right. by apply (IH (Some c.1)).
Qed.

Lemma merge_count_spec : ∀ (Y : list (loc * T)) fuel m P Q la acc,
  Y ≠ [] →
  seg (nodes m) P (cells Y) Q →
  NoDup Y.*1 →
  last_or (cells Y) P = Some la →
  length Y ≤ fuel →
  (0 ≤ acc)%Z → (acc + Z.of_nat (length Y) < size_max)%Z →
  merge_count fuel (first_or (cells Y) Q) (Some la) acc m
  = Ok (acc + Z.of_nat (length Y))%Z m.
Proof.
  induction Y as [|[a x] Y IH]; intros fuel m P Q la acc Hne Hs Hnd Hla Hf Hacc Hsz;
    [done|].
  destruct fuel as [|fuel]; [simpl in Hf; lia|].
  simpl in Hs. destruct Hs as [Ha Hs]. apply NoDup_cons in Hnd as [Hnd1 Hnd2].
  change (first_or (cells ((a, x) :: Y)) Q) with (Some a).
  cbn [merge_count]. rewrite wrap_small by (simpl in Hsz; lia).
  destruct Y as [|[a' x'] Y].
  - simpl in Hla. injection Hla as <-. rewrite ptr_eq_refl. simpl.
    done.
  - assert (Hin : la ∈ ((a', x') :: Y).*1).
    { rewrite <-cells_fst. by apply (last_or_elem _ (Some a)). }
    rewrite ptr_eq_Some_ne by (intros ->; done).
    step. rewrite (IH fuel m (Some a) Q la (acc + 1)%Z); [|done..| | |].
    + f_equal. simpl. lia.
    + simpl in Hf |- *. lia.
    + lia.
    + simpl in Hsz |- *. lia.
Qed.


Lemma last_or_cons c l p : last_or (c :: l) p = last_or l (Some c.1).
Proof. done. Qed.

Lemma merge_tail_spec fuel m this hd tl A other ohd otl Y :
  this ≠ other →
  is_list m this hd tl A →
  is_list m other ohd otl Y →
  Y ≠ [] →
  (chain hd A tl).*1 ## (chain ohd Y otl).*1 →
  (Z.of_nat (length A + length Y) < size_max)%Z →
  length Y ≤ fuel →
  ∃ m', merge_tail fuel this other (first_or (cells Y) (Some otl)) m = Ok tt m' ∧
    is_list m' this hd tl (A ++ Y) ∧
    is_list m' other ohd otl [] ∧
    (∀ d, d ∉ (chain hd A tl).*1 → d ∉ (chain ohd Y otl).*1 →
          nodes m' !! d = nodes m !! d) ∧
    (∀ o : loc, o ≠ this → o ≠ other → objs m' !! o = objs m !! o).
Proof.
  intros Hne HlA HlB HY Hdisj Hsz Hf.
  pose proof HlA as (HoA & HltA & HndA & HsA).
  pose proof HlB as (HoB & HltB & HndB & HsB).
  destruct (pre_snoc hd A) as (l1 & tpa & vtp & E1).
  assert (EA : chain hd A tl = l1 ++ (tpa, vtp) :: (tl, None) :: []).
  { unfold chain. rewrite app_comm_cons, E1. by rewrite <-app_assoc. }
  assert (EA' : chain hd (A ++ Y) tl = l1 ++ (tpa, vtp) :: cells Y ++ [(tl, None)]).
  { rewrite chain_app, E1. by rewrite <-app_assoc. }
  rewrite EA in HndA, HsA, Hdisj |- *.
  destruct (seg_lookup2 _ _ _ _ _ _ _ HsA) as [Htp Htl]. simpl in Htp, Htl.
  assert (Hnd : NoDup ((l1.*1 ++ [tpa; tl]) ++ (chain ohd Y otl).*1)).
  { apply NoDup_app. rewrite fmap_app in HndA, Hdisj. split_and!; [done| |done].
    intros d Hd Hd'. by apply (Hdisj d). }
  assert (Hobj' : ∀ m', objs m' =
      <[this:=ListObj (Some hd) (Some tl) (Z.of_nat (length (A ++ Y)))]>
        (<[other:=ListObj (Some ohd) (Some otl) 0]> (objs m)) →
      (∀ o : loc, o ≠ this → o ≠ other → objs m' !! o = objs m !! o)).
  { intros m' -> o ? ?. by rewrite !lookup_insert_ne. }
  unfold chain in HsB. simpl in HsB. destruct HsB as [Hoh HsB].
  apply seg_app in HsB as [HsY Hot]. simpl in HsY, Hot. destruct Hot as [Hot _].
  rewrite first_or_app in Hoh. simpl in Hoh.
  destruct Y as [|[f fx] Yr]; [done|]. clear HY.
  destruct Yr as [|[g gx] Ymid _] using rev_ind.
  - (* a single node is moved *)
    simpl in Hoh, Hot, HsY, Hnd. destruct HsY as [Hfn _].
    rewrite <-app_assoc in Hnd. simpl in Hnd.
    assert (Hne6 : tpa ≠ tl ∧ tpa ≠ ohd ∧ tpa ≠ f ∧ tpa ≠ otl ∧ tl ≠ ohd ∧ tl ≠ f ∧
                   tl ≠ otl ∧ ohd ≠ f ∧ ohd ≠ otl ∧ f ≠ otl).
    { clear -Hnd. apply NoDup_app in Hnd as (_ & _ & Hnd).
      rewrite !NoDup_cons in Hnd. set_solver. }
    destruct Hne6 as (? & ? & ? & ? & ? & ? & ? & ? & ? & ?).
    assert (Hl1 : ∀ d, d ∈ l1.*1 →
              d ≠ tpa ∧ d ≠ tl ∧ d ≠ ohd ∧ d ≠ f ∧ d ≠ otl).
    { clear -Hnd. apply NoDup_app in Hnd as (_ & Hnd & _). intros d Hd.
      specialize (Hnd d Hd). set_solver. }
    eexists. split; [|split; [|split; [|split]]].
    + unfold merge_tail. cbn [first_or cells fmap list_fmap cell fst snd].
      repeat step.
      erewrite bind_Ok; cycle 1.
      { eapply (merge_count_spec [(f, fx)] fuel _ (Some ohd) (Some otl) f 0);
          [done| |apply NoDup_singleton|done|done|done|simpl in Hsz |- *; lia].
        simpl. split; [|done]. solve_lookup. }
      repeat step. eapply set_prev_Ok. solve_lookup.
    + unfold is_list. rewrite EA'. cbn [nodes objs]. split_and!.
      * rewrite lookup_insert_eq. do 2 f_equal.
        rewrite length_app. cbn [length] in Hsz |- *. rewrite wrap_small; lia.
      * rewrite length_app. cbn [length] in Hsz |- *. lia.
      * rewrite fmap_app. simpl. rewrite fmap_app in HndA. simpl in HndA.
        apply NoDup_insert_mid; [done|].
        intros Hin. rewrite elem_of_app, !elem_of_cons, elem_of_nil in Hin.
        destruct Hin as [Hin|[Hin|[Hin|[]]]]; [|done..].
        by destruct (Hl1 f Hin) as (_ & _ & _ & ? & _).
      * apply seg_app in HsA as [HsA1 _]. apply seg_app. split.
        { eapply seg_frame; [|exact HsA1]. intros d Hd.
          destruct (Hl1 d Hd) as (? & ? & ? & ? & ?).
          rewrite !lookup_insert_ne by done. done. }
        simpl. split_and!; [solve_lookup..|done].
    + unfold is_list. cbn [nodes objs length]. split_and!.
      * rewrite lookup_insert_ne by done. rewrite lookup_insert_eq. by do 2 f_equal.
      * done.
      * simpl. apply NoDup_cons. split; [|apply NoDup_singleton].
        by rewrite list_elem_of_singleton.
      * simpl. split_and!; [solve_lookup..|done].
    + intros d Hd Hd'. cbn [nodes]. rewrite fmap_app in Hd. simpl in Hd, Hd'.
      rewrite elem_of_app, !elem_of_cons in Hd. rewrite !elem_of_cons in Hd'.
      rewrite !lookup_insert_ne; [done|intros ->; tauto..].
    + intros o ? ?. cbn [objs]. by rewrite !lookup_insert_ne by done.
  - (* several nodes are moved *)
    clear Hobj'.
    assert (EY : cells ((f, fx) :: Ymid ++ [(g, gx)])
                 = (f, Some fx) :: cells Ymid ++ [(g, Some gx)]).
    { unfold cells. by rewrite fmap_cons, fmap_app. }
    rewrite EY in HsY, Hot, EA'. simpl in Hoh, HsY.
    rewrite last_or_cons, last_or_app in Hot. simpl in Hot.
    destruct HsY as [Hfn HsY]. rewrite first_or_app in Hfn. simpl in Hfn.
    apply seg_app in HsY as [HsM Hgn]. simpl in HsM, Hgn. destruct Hgn as [Hgn _].
    assert (EU : (l1.*1 ++ [tpa; tl]) ++ (chain ohd ((f, fx) :: Ymid ++ [(g, gx)]) otl).*1
                 = l1.*1 ++ tpa :: tl :: ohd :: f :: Ymid.*1 ++ [g; otl]).
    { rewrite chain_fst, fmap_cons, fmap_app. simpl. by rewrite <-!app_assoc. }
    rewrite EU in Hnd. clear EU.
    assert (HndU := Hnd).
    apply NoDup_app in Hnd as (Hnd1 & Hnd2 & Hnd3).
    rewrite !NoDup_cons, NoDup_app, !NoDup_cons in Hnd3.
    destruct Hnd3 as (Htpa & Htl' & Hohd & Hf' & HndM & HMd & Hg' & _ & _).
    notin_norm Htpa. notin_norm Htl'. notin_norm Hohd. notin_norm Hf'. notin_norm Hg'.
    assert (Hne6 : tpa ≠ tl ∧ tpa ≠ ohd ∧ tpa ≠ f ∧ tpa ≠ g ∧ tpa ≠ otl ∧
                   tl ≠ ohd ∧ tl ≠ f ∧ tl ≠ g ∧ tl ≠ otl ∧
                   ohd ≠ f ∧ ohd ≠ g ∧ ohd ≠ otl ∧ f ≠ g ∧ f ≠ otl ∧ g ≠ otl).
    { clear -Htpa Htl' Hohd Hf' Hg'. tauto. }
    destruct Hne6 as (? & ? & ? & ? & ? & ? & ? & ? & ? & ? & ? & ? & ? & ? & ?).
    assert (HM : ∀ d, d ∈ Ymid.*1 →
              d ≠ tpa ∧ d ≠ tl ∧ d ≠ ohd ∧ d ≠ f ∧ d ≠ g ∧ d ≠ otl).
    { clear -Htpa Htl' Hohd Hf' HMd. intros d Hd. specialize (HMd d Hd).
      notin_norm HMd.
      split_and!; try tauto; intros ->; tauto. }
    assert (Hl1 : ∀ d, d ∈ l1.*1 →
              d ≠ tpa ∧ d ≠ tl ∧ d ≠ ohd ∧ d ≠ f ∧ d ≠ g ∧ d ≠ otl ∧ d ∉ Ymid.*1).
    { clear -Hnd2. intros d Hd. specialize (Hnd2 d Hd).
      notin_norm Hnd2. tauto. }
    eexists. split; [|split; [|split; [|split]]].
    + unfold merge_tail. rewrite EY. cbn [first_or fst].
      repeat step.
      erewrite bind_Ok; cycle 1.
      { eapply (merge_count_spec ((f, fx) :: Ymid ++ [(g, gx)]) fuel _
                  (Some ohd) (Some otl) g 0);
          [done| | |by rewrite EY, last_or_cons, last_or_app|done|done|lia].
        - rewrite EY. cbn [nodes seg fst snd]. split.
          + rewrite first_or_app. solve_lookup.
          + apply seg_app. split; [|simpl; split; [solve_lookup|done]].
            eapply seg_frame; [|exact HsM]. intros d Hd. rewrite cells_fst in Hd.
            destruct (HM d Hd) as (? & ? & ? & ? & ? & ?).
            rewrite !lookup_insert_ne by done. done.
        - rewrite fmap_cons, fmap_app. simpl. apply NoDup_cons. split.
          { rewrite elem_of_app, list_elem_of_singleton. tauto. }
          apply NoDup_app. split_and!; [done| |apply NoDup_singleton].
          intros d Hd Hd'%list_elem_of_singleton. by destruct (HM d Hd) as (_ & _ & _ & _ & ? & _). }
      repeat step. eapply set_prev_Ok. solve_lookup.
    + unfold is_list. rewrite EA'. cbn [nodes objs]. split_and!.
      * rewrite lookup_insert_eq. do 2 f_equal.
        rewrite length_app. rewrite wrap_small; clear -Hsz; lia.
      * rewrite length_app. clear -Hsz. lia.
      * rewrite fmap_app, fmap_cons, fmap_app, fmap_cons, fmap_app. simpl.
        rewrite <-app_assoc. simpl. rewrite cells_fst.
        apply NoDup_app. split; [done|]. split.
        { intros d Hd. destruct (Hl1 d Hd) as (? & ? & ? & ? & ? & ? & ?).
          rewrite !not_elem_of_cons, not_elem_of_app, !not_elem_of_cons.
          split_and!; try done. apply not_elem_of_nil. }
        rewrite !NoDup_cons, !not_elem_of_cons, !not_elem_of_app, !not_elem_of_cons.
        split_and!; try tauto; try done; try apply not_elem_of_nil.
        apply NoDup_app. split; [done|]. split.
        { intros d Hd. destruct (HM d Hd) as (? & ? & ? & ? & ? & ?).
          rewrite !not_elem_of_cons. split_and!; try done. apply not_elem_of_nil. }
        rewrite !NoDup_cons, !not_elem_of_cons.
        split_and!; try done; try apply not_elem_of_nil. apply NoDup_nil_2.
      * apply seg_app in HsA as [HsA1 _]. apply seg_app. split.
        { eapply seg_frame; [|exact HsA1]. intros d Hd.
          destruct (Hl1 d Hd) as (? & ? & ? & ? & ? & ? & ?).
          rewrite !lookup_insert_ne by done. done. }
        cbn [app]. rewrite <-app_assoc. cbn [seg fst snd app]. split; [solve_lookup|]. split.
        { rewrite first_or_app. solve_lookup. }
        apply seg_app. split.
        { eapply seg_frame; [|exact HsM]. intros d Hd. rewrite cells_fst in Hd.
          destruct (HM d Hd) as (? & ? & ? & ? & ? & ?).
          rewrite !lookup_insert_ne by done. done. }
        simpl. split_and!; [solve_lookup..|done].
    + unfold is_list. cbn [nodes objs length]. split_and!.
      * rewrite lookup_insert_ne by done. rewrite lookup_insert_eq. do 2 f_equal.
        rewrite wrap_small; clear -HltB; lia.
      * done.
      * simpl. apply NoDup_cons. split; [|apply NoDup_singleton].
        by rewrite list_elem_of_singleton.
      * simpl. split_and!; [solve_lookup..|done].
    + intros d Hd Hd'. cbn [nodes]. rewrite fmap_app in Hd.
      rewrite chain_fst, fmap_cons, fmap_app in Hd'. simpl in Hd, Hd'.
      rewrite elem_of_app, !elem_of_cons in Hd.
      rewrite !elem_of_cons, !elem_of_app, !elem_of_cons in Hd'.
      rewrite !lookup_insert_ne; [done|intros ->; tauto..].
    + intros o ? ?. cbn [objs]. by rewrite !lookup_insert_ne by done.
Qed.


Lemma merged_nil_r A : merged ltb A [] = A.
Proof. by destruct A. Qed.

Lemma merged_nil_l B : merged ltb [] B = B.
Proof. by destruct B. Qed.

Lemma merged_cons e A e' B :
  merged ltb (e :: A) (e' :: B) =
  if ltb e'.2 e.2 then e' :: merged ltb (e :: A) B else e :: merged ltb A (e' :: B).
Proof. done. Qed.

Lemma merged_perm A B : merged ltb A B ≡ₚ A ++ B.
Proof.
  revert B. induction A as [|e A IHA]; intros B.
  - by rewrite merged_nil_l.
  - induction B as [|e' B IHB].
    + by rewrite merged_nil_r, app_nil_r.
    + rewrite merged_cons. destruct (ltb e'.2 e.2).
      * rewrite IHB. by rewrite <-Permutation_middle.
      * rewrite IHA. done.
Qed.

Lemma mloop_snd_length A B : length (mloop ltb A B).2 ≤ length B.
Proof.
  revert B. induction A as [|e A IHA]; intros B.
  - by rewrite mloop_nil_l.
  - induction B as [|e' B IHB].
    + by rewrite mloop_nil_r.
    + rewrite mloop_cons. destruct (ltb e'.2 e.2); cbn [snd length].
      * lia.
      * specialize (IHA (e' :: B)). cbn [length] in IHA. lia.
Qed.

Lemma merge_self fuel m this : merge ltb fuel this this m = Ok tt m.
Proof. unfold merge. by rewrite bool_decide_true. Qed.

Lemma merge_spec fuel m this hd tl A other ohd otl B :
  this ≠ other →
  is_list m this hd tl A →
  is_list m other ohd otl B →
  (chain hd A tl).*1 ## (chain ohd B otl).*1 →
  (Z.of_nat (length A + length B) < size_max)%Z →
  length A + length B < fuel →
  ∃ m', merge ltb fuel this other m = Ok tt m' ∧
    is_list m' this hd tl (merged ltb A B) ∧
    is_list m' other ohd otl [] ∧
    (∀ d, d ∉ (chain hd A tl).*1 → d ∉ (chain ohd B otl).*1 →
          nodes m' !! d = nodes m !! d) ∧
    (∀ o : loc, o ≠ this → o ≠ other → objs m' !! o = objs m !! o) ∧
    (B = [] → m' = m).
Proof.
  intros Hne HlA HlB Hdisj Hsz Hf.
  pose proof (is_list_obj _ _ _ _ _ HlA) as HoA.
  pose proof (is_list_obj _ _ _ _ _ HlB) as HoB.
  pose proof (is_list_hd _ _ _ _ _ HlA) as HhA.
  pose proof (is_list_hd _ _ _ _ _ HlB) as HhB.
  destruct (decide (B = [])) as [->|HB].
  { exists m. rewrite merged_nil_r. split; [|done].
    unfold merge. rewrite bool_decide_false by done. by step. }
  destruct (merge_loop_spec ltb fuel m this hd tl [] A other ohd otl B Hne HlA HlB Hdisj)
    as (m1 & p1' & Hrun1 & HlA1 & HlB1 & Hdisj1 & Hfr1 & Hfo1); [done|done|].
  simpl in HlA1, Hdisj1, Hfr1.
  pose proof (merged_mloop ltb A B) as EM.
  pose proof (merged_perm A B) as HP. rewrite EM in HP.
  pose proof (mloop_snd_length A B) as HlenY.
  assert (Hlen : length (mloop ltb A B).1 + length (mloop ltb A B).2
                 = length A + length B).
  { rewrite <-!length_app. by rewrite HP. }
  assert (Hsub : ∀ d, d ∈ (mloop ltb A B).1.*1 ∨ d ∈ (mloop ltb A B).2.*1 →
             d ∈ A.*1 ∨ d ∈ B.*1).
  { intros d Hd. rewrite <-!elem_of_app, <-!fmap_app in *. by rewrite <-HP. }
  set (X := (mloop ltb A B).1) in *. set (Y := (mloop ltb A B).2) in *.
  assert (Hrun0 :
    merge ltb fuel this other m =
    (bind (merge_loop ltb fuel this other (first_or (cells A) (Some tl))
             (first_or (cells B) (Some otl))) (λ ps,
     bind (get_tail (Some other)) (λ ot,
       if ptr_eq ps.2 ot then ret tt
       else merge_tail fuel this other ps.2))) m).
  { unfold merge. rewrite bool_decide_false by done. step.
    rewrite (proj2 (Z.eqb_neq _ _)) by (destruct B; [done|simpl; lia]).
    by repeat step. }
  rewrite Hrun0. clear Hrun0.
  rewrite (bind_Ok _ _ _ _ _ Hrun1). cbn [snd].
  pose proof (is_list_obj _ _ _ _ _ HlB1) as HoB1.
  step.
  destruct Y as [|[y1 yx] Y'] eqn:EY.
  - exists m1. rewrite EM, app_nil_r. cbn [first_or cells fmap list_fmap].
    rewrite ptr_eq_refl. split; [done|]. split; [done|]. split; [done|].
    split; [done|]. split; [done|]. done.
  - destruct (is_list_elem_ne _ _ _ _ _ y1 HlB1) as [_ ?]; [set_solver|].
    change (first_or (cells ((y1, yx) :: Y')) (Some otl)) with (Some y1).
    rewrite ptr_eq_Some_ne by done.
    destruct (merge_tail_spec fuel m1 this hd tl X other ohd otl ((y1, yx) :: Y')
                Hne HlA1 HlB1) as (m' & Hrun & HlA' & HlB' & Hfr & Hfo);
      [done|done| | |].
    { clear -Hlen Hsz. lia. }
    { clear -HlenY Hf. lia. }
    exists m'. rewrite EM. split; [exact Hrun|]. split; [done|]. split; [done|].
    split; [|split; [|done]].
    + intros d Hd Hd'. rewrite Hfr, Hfr1; [done..| |].
      * rewrite chain_fst in Hd, Hd' |- *. notin_norm Hd. notin_norm Hd'.
        rewrite !not_elem_of_cons, not_elem_of_app, not_elem_of_cons.
        split_and!; try tauto. intros Hin.
        destruct (Hsub d (or_introl Hin)); tauto.
      * rewrite chain_fst in Hd, Hd' |- *. notin_norm Hd. notin_norm Hd'.
        rewrite !not_elem_of_cons, not_elem_of_app, not_elem_of_cons.
        split_and!; try tauto. intros Hin.
        destruct (Hsub d (or_intror Hin)); tauto.
    + intros o ? ?. by rewrite Hfo, Hfo1.
Qed.

End merge2.

Section sort.
Context {T : Type} (ltb : T → T → bool).
Context (ext_sort : ∀ A : Type, (A → A → bool) → list A → list A).
Hypothesis ext_sort_perm : ∀ (A : Type) (cmp : A → A → bool) (l : list A),
  ext_sort A cmp l ≡ₚ l.
Implicit Types (m : @mem T) (h : gmap loc (@node T)) (a b : loc) (p q : option loc)
  (l : list (loc * option T)) (c : loc * option T) (es : list (loc * T)).

Lemma sort_collect_spec : ∀ es2 fuel m this hd tl es1,
  is_list m this hd tl (es1 ++ es2) →
  length es2 < fuel →
  sort_collect fuel this (first_or (cells es2) (Some tl))
    ((Some <$> es1.*1) ++ replicate (length es2) None) (length es1) m
  = Ok (Some <$> (es1 ++ es2).*1) m.
Proof.
  induction es2 as [|[a x] es2 IH]; intros fuel m this hd tl es1 Hl Hf;
    (destruct fuel as [|fuel]; [simpl in Hf; lia|]);
    pose proof (is_list_obj _ _ _ _ _ Hl) as Ho.
  - cbn [sort_collect]. step. cbn [first_or cells fmap list_fmap].
    rewrite ptr_eq_refl. by rewrite !app_nil_r.
  - pose proof (is_list_elem _ _ _ _ _ _ _ _ Hl) as Ha.
    destruct (is_list_elem_ne _ _ _ _ _ a Hl) as [_ ?]; [rewrite fmap_app; set_solver|].
    change (first_or (cells ((a, x) :: es2)) (Some tl)) with (Some a).
    cbn [sort_collect]. step. rewrite ptr_eq_Some_ne by done.
    unfold arr_set. rewrite decide_True; cycle 1.
    { rewrite length_app, !length_fmap, length_replicate. simpl. lia. }
    rewrite bind_ret. step.
    replace (<[length es1:=Some a]> ((Some <$> es1.*1) ++ replicate (length ((a, x) :: es2)) None))
      with ((Some <$> (es1 ++ [(a, x)]).*1) ++ replicate (length es2) None); cycle 1.
    { cbn [length]. rewrite replicate_S.
      rewrite insert_app_r_alt by (rewrite !length_fmap; lia).
      replace (length es1 - length (Some <$> es1.*1)) with 0
        by (rewrite !length_fmap; lia).
      simpl. rewrite !fmap_app. simpl. by rewrite <-app_assoc. }
    replace (S (length es1)) with (length (es1 ++ [(a, x)]))
      by (rewrite length_app; simpl; lia).
    rewrite (IH fuel m this hd tl (es1 ++ [(a, x)])).
    + by rewrite <-app_assoc.
    + by rewrite <-app_assoc.
    + simpl in Hf. lia.
Qed.



Lemma seg_snoc_set_next h P l c Q Q' :
  NoDup (l ++ [c]).*1 →
  seg h P (l ++ [c]) Q →
  seg (<[c.1:=Node (last_or l P) Q' c.2]> h) P (l ++ [c]) Q'.
Proof.
  intros Hnd Hs. apply seg_app in Hs as [Hs1 Hs2]. apply seg_app. split.
  - eapply seg_frame; [|exact Hs1]. intros a Ha. rewrite lookup_insert_ne; [done|].
    rewrite fmap_app in Hnd. apply NoDup_app in Hnd as (_ & Hnd & _).
    intros <-. apply (Hnd c.1 Ha). simpl. left.
  - simpl. split; [|done]. by rewrite lookup_insert_eq.
Qed.

Lemma arr_lookup_middle (E1 : list (loc * T)) e E2 :
  (Some <$> (E1 ++ e :: E2).*1) !! length E1 = Some (Some e.1).
Proof.
  rewrite !list_lookup_fmap, list_lookup_middle; done.
Qed.

Lemma arr_lookup_middle2 (E1 : list (loc * T)) e e' E2 :
  (Some <$> (E1 ++ e :: e' :: E2).*1) !! (length E1 + 1) = Some (Some e'.1).
Proof.
  replace (E1 ++ e :: e' :: E2) with ((E1 ++ [e]) ++ e' :: E2) by by rewrite <-app_assoc.
  replace (length E1 + 1) with (length (E1 ++ [e])) by (rewrite length_app; simpl; lia).
  apply arr_lookup_middle.
Qed.

Lemma pre_cells_snoc hd (E : list (loc * T)) e :
  (hd, None) :: cells (E ++ [e]) = ((hd, None) :: cells E) ++ [(e.1, Some e.2)].
Proof. unfold cells. by rewrite fmap_app. Qed.

Lemma sort_relink_spec hd : ∀ (E2 : list (loc * T)) m E1 ea Q,
  NoDup (hd :: (E1 ++ ea :: E2).*1) →
  seg (nodes m) None ((hd, None) :: cells (E1 ++ [ea])) Q →
  (∀ e, e ∈ E2 → ∃ n, nodes m !! e.1 = Some n ∧ val n = Some e.2) →
  ∃ h' Q',
    sort_relink (length E2) (Some <$> (E1 ++ ea :: E2).*1) (length E1 + 1) m
    = Ok tt (Mem h' (objs m)) ∧
    seg h' None ((hd, None) :: cells (E1 ++ ea :: E2)) Q' ∧
    (∀ d, d ∉ (ea :: E2).*1 → h' !! d = nodes m !! d).
Proof.
  induction E2 as [|eb E2 IH]; intros m E1 ea Q Hnd Hs Hvals.
  - exists (nodes m), Q. simpl. by rewrite mem_eta.
  - destruct (Hvals eb) as (nb & Hb & Hvb); [left|].
    rewrite pre_cells_snoc in Hs.
    assert (Hea : nodes m !! ea.1
                  = Some (Node (last_or ((hd, None) :: cells E1) None) Q (Some ea.2))).
    { apply seg_app in Hs as [_ Hs]. simpl in Hs. by destruct Hs as [Hs _]. }
    assert (Hne : ea.1 ≠ eb.1).
    { apply NoDup_cons in Hnd as [_ Hnd]. rewrite fmap_app in Hnd.
      apply NoDup_app in Hnd as (_ & _ & Hnd). rewrite !fmap_cons in Hnd.
      apply NoDup_cons in Hnd as [Hnd _]. intros E. apply Hnd. rewrite E. left. }
    set (m2 := Mem (<[eb.1:=Node (Some ea.1) (next nb) (val nb)]>
                     (<[ea.1:=Node (last_or ((hd, None) :: cells E1) None)
                                   (Some eb.1) (Some ea.2)]> (nodes m)))
                   (objs m)).
    assert (E : E1 ++ ea :: eb :: E2 = (E1 ++ [ea]) ++ eb :: E2)
      by by rewrite <-app_assoc.
    assert (Hnd' : NoDup (((hd, None) :: cells E1) ++ [(ea.1, Some ea.2)]).*1).
    { rewrite <-pre_cells_snoc, fmap_cons, cells_fst. simpl.
      rewrite E, fmap_app in Hnd. rewrite app_comm_cons in Hnd.
      by apply NoDup_app in Hnd as (Hnd & _). }
    assert (Hbnot : eb.1 ∉ (((hd, None) :: cells E1) ++ [(ea.1, Some ea.2)]).*1).
    { rewrite <-pre_cells_snoc, fmap_cons, cells_fst. simpl.
      rewrite E, fmap_app in Hnd. rewrite app_comm_cons in Hnd.
      apply NoDup_app in Hnd as (_ & Hnd & _). intros Hin.
      apply (Hnd _ Hin). rewrite fmap_cons. left. }
    destruct (IH m2 (E1 ++ [ea]) eb (next nb)) as (h' & Q' & Hrun & Hs' & Hout).
    { by rewrite <-E. }
    { rewrite pre_cells_snoc, pre_cells_snoc.
      apply seg_app. split.
      - apply (seg_frame (<[ea.1:=Node (last_or ((hd, None) :: cells E1) None)
                                        (Some eb.1) (Some ea.2)]> (nodes m))).
        + intros d Hd. simpl. rewrite lookup_insert_ne; [done|].
          intros <-. by apply Hbnot.
        + by apply (seg_snoc_set_next (nodes m) None ((hd, None) :: cells E1)
                      (ea.1, Some ea.2) Q (Some eb.1)).
      - simpl. split; [|done]. rewrite lookup_insert_eq. rewrite Hvb.
        do 2 f_equal. rewrite last_or_app. done. }
    { intros e He. destruct (Hvals e) as (n & Hn & Hv); [by right|].
      destruct (decide (e.1 = eb.1)) as [Eq|Hneb].
      { exists (Node (Some ea.1) (next nb) (val nb)). simpl. rewrite Eq.
        rewrite lookup_insert_eq. split; [done|]. simpl. rewrite Eq in Hn. congruence. }
      destruct (decide (e.1 = ea.1)) as [Eq|Hnea].
      { exfalso. apply NoDup_cons in Hnd as [_ Hnd]. rewrite fmap_app in Hnd.
        apply NoDup_app in Hnd as (_ & _ & Hnd). rewrite !fmap_cons in Hnd.
        apply NoDup_cons in Hnd as [Hnd _]. apply Hnd. right. rewrite <-Eq.
        apply list_elem_of_fmap. by exists e. }
      exists n. simpl. by rewrite !lookup_insert_ne by done. }
    exists h', Q'. split; [|split].
    + cbn [sort_relink length].
      replace (length E1 + 1 - 1) with (length E1) by lia.
      unfold arr_get.
      repeat (rewrite arr_lookup_middle || rewrite arr_lookup_middle2 || rewrite bind_ret).
      step.
      repeat (rewrite arr_lookup_middle || rewrite arr_lookup_middle2 || rewrite bind_ret).
      step. fold m2.
      replace (S (length E1 + 1)) with (length (E1 ++ [ea]) + 1)
        by (rewrite length_app; simpl; lia).
      rewrite E. exact Hrun.
    + by rewrite E.
    + intros d Hd. rewrite !fmap_cons in Hd. rewrite Hout.
      * simpl. rewrite !lookup_insert_ne; [done|..]; intros <-; apply Hd.
        -- left.
        -- right. left.
      * rewrite fmap_cons. intros Hin. apply Hd. by right.
Qed.


Lemma arr_get_Ok (arr : list (option loc)) i p :
  arr !! i = Some p → arr_get (T:=T) arr i = ret p.
Proof. unfold arr_get. by intros ->. Qed.

Lemma is_list_vals m this hd tl es e :
  is_list m this hd tl es → e ∈ es →
  ∃ n, nodes m !! e.1 = Some n ∧ val n = Some e.2.
Proof.
  intros Hl (es1 & es2 & ->)%list_elem_of_split. destruct e as [a x].
  eexists. split; [by eapply is_list_elem|done].
Qed.

(** [sort()] past its early return, for whatever order [sjtu::sort] left the
    array in. *)
Lemma sort_spec_with fuel m this hd tl es es' :
  is_list m this hd tl es →
  length es < fuel →
  ¬ length es ≤ 1 →
  sort_call ltb ext_sort (Some <$> es.*1) m = Ok (Some <$> es'.*1) m →
  es' ≡ₚ es →
  ∃ m', sort ltb ext_sort fuel this m = Ok tt m' ∧
    is_list m' this hd tl es' ∧
    objs m' = objs m ∧
    (∀ d, d ∉ (chain hd es tl).*1 → nodes m' !! d = nodes m !! d).
Proof.
  intros Hl Hf Hlong Hcall HP. pose proof Hl as (Ho & Hlt & Hnd & Hs).
  pose proof (is_list_hd _ _ _ _ _ Hl) as Hhd.
  pose proof (is_list_tl _ _ _ _ _ Hl) as Htl.
  pose proof (is_list_hd_ne_tl _ _ _ _ _ Hl) as Hht.
  pose proof (sort_collect_spec es fuel m this hd tl [] Hl Hf) as Hcoll.
  cbn [app length fmap list_fmap] in Hcoll.
  assert (Hlen : length es' = length es) by by rewrite HP.
  destruct es' as [|e0 E2]; [simpl in Hlen; lia|].
  destruct (is_list_vals m this hd tl es e0 Hl) as (n0 & Hn0 & Hv0).
  { rewrite <-HP. left. }
  assert (HndP : NoDup (hd :: (e0 :: E2).*1 ++ [tl])).
  { rewrite chain_fst in Hnd. by rewrite HP. }
  assert (Hnd0 : NoDup (hd :: ([] ++ e0 :: E2).*1)).
  { rewrite app_comm_cons in HndP. by apply NoDup_app in HndP as (? & _). }
  assert (Hne0 : hd ≠ e0.1).
  { apply NoDup_cons in Hnd0 as [Hnd0 _]. intros E. apply Hnd0. rewrite E.
    simpl. left. }
  assert (Htlnot : tl ∉ hd :: (e0 :: E2).*1).
  { rewrite app_comm_cons in HndP. apply NoDup_app in HndP as (_ & HndP & _).
    intros Hin. apply (HndP tl Hin). left. }
  set (m2 := Mem (<[e0.1:=Node (Some hd) (next n0) (val n0)]>
                   (<[hd:=Node None (Some e0.1) None]> (nodes m))) (objs m)).
  destruct (sort_relink_spec hd E2 m2 [] e0 (next n0) Hnd0)
    as (h3 & Q3 & Hrel & Hs3 & Hout3).
  { simpl. split_and!; [solve_lookup| |done].
    rewrite lookup_insert_eq. by rewrite Hv0. }
  { intros e He. destruct (is_list_vals m this hd tl es e Hl) as (n & Hn & Hv).
    { rewrite <-HP. by right. }
    exists n. split; [|done]. simpl. rewrite !lookup_insert_ne; [done|..].
    - intros E. apply NoDup_cons in Hnd0 as [Hnd0 _]. apply Hnd0.
      rewrite E. apply list_elem_of_fmap. exists e. split; [done|by right].
    - intros E. apply NoDup_cons in Hnd0 as [_ Hnd0]. simpl in Hnd0.
      apply NoDup_cons in Hnd0 as [Hnd0 _]. apply Hnd0. rewrite E.
      apply list_elem_of_fmap. by exists e. }
  cbn [app length Nat.add] in Hrel, Hs3.
  destruct (pre_snoc hd (e0 :: E2)) as (l1 & el & vl & El).
  rewrite El in Hs3.
  assert (Hel : h3 !! el = Some (Node (last_or l1 None) Q3 vl)).
  { apply seg_app in Hs3 as [_ Hs3]. simpl in Hs3. by destruct Hs3 as [Hs3 _]. }
  assert (Harr_last : (Some <$> (e0 :: E2).*1) !! (length es - 1) = Some (Some el)).
  { assert (Hfst : hd :: (e0 :: E2).*1 = l1.*1 ++ [el]).
    { rewrite <-cells_fst. change (hd :: (cells (e0 :: E2)).*1)
        with (((hd, None) :: cells (e0 :: E2)).*1). by rewrite El, fmap_app. }
    assert (length l1 = length es).
    { apply (f_equal length) in Hfst. rewrite length_app in Hfst.
      simpl in Hfst. rewrite !length_fmap in Hfst. simpl in Hlen. lia. }
    rewrite list_lookup_fmap.
    assert (Hlk : (hd :: (e0 :: E2).*1) !! length es = Some el).
    { rewrite Hfst. rewrite <-H. rewrite <-(length_fmap fst l1).
      by rewrite list_lookup_middle. }
    destruct (length es) as [|k] eqn:Ek; [lia|].
    change ((hd :: (e0 :: E2).*1) !! S k) with ((e0 :: E2).*1 !! k) in Hlk.
    replace (S k - 1) with k by lia. by rewrite Hlk. }
  assert (Hel_ne : el ≠ tl).
  { intros ->. apply Htlnot. rewrite <-cells_fst.
    change (hd :: (cells (e0 :: E2)).*1) with (((hd, None) :: cells (e0 :: E2)).*1).
    rewrite El, fmap_app. apply elem_of_app. right. left. }
  assert (Htl3 : h3 !! tl = nodes m !! tl).
  { rewrite Hout3.
    - simpl. rewrite !lookup_insert_ne; [done|..]; intros E; apply Htlnot; rewrite <-E.
      + left.
      + right. rewrite fmap_cons. left.
    - intros Hin. apply Htlnot. by right. }
  exists (Mem (<[tl:=Node (Some el) None None]>
                (<[el:=Node (last_or l1 None) (Some tl) vl]> h3)) (objs m)).
  split; [|split; [|split; [done|]]].
  - unfold sort. step. rewrite (proj2 (Z.leb_gt _ _)) by lia.
    cbv zeta. rewrite Nat2Z.id. repeat step.
    rewrite (bind_Ok _ _ _ _ _ Hcoll). rewrite (bind_Ok _ _ _ _ _ Hcall).
    assert (Harr0 : (Some <$> (e0 :: E2).*1) !! 0 = Some (Some e0.1)) by done.
    rewrite (arr_get_Ok _ _ _ Harr0).
    repeat step. fold m2.
    rewrite Nat2Z.id.
    replace (length es - 1) with (length E2) at 1 by (simpl in Hlen; lia).
    rewrite (bind_Ok _ _ _ _ _ Hrel).
    step. rewrite Nat2Z.id. rewrite (arr_get_Ok _ _ _ Harr_last).
    repeat step. rewrite Nat2Z.id. rewrite (arr_get_Ok _ _ _ Harr_last), bind_ret.
    unfold m2. cbn [objs].
    erewrite set_prev_Ok
      by (cbn [nodes]; rewrite lookup_insert_ne by done; rewrite Htl3; exact Htl).
    reflexivity.
  - split_and!; cbn [nodes objs].
    + by rewrite Hlen.
    + by rewrite Hlen.
    + by rewrite chain_fst.
    + unfold chain. rewrite app_comm_cons, El. apply seg_app. split.
      * apply (seg_frame (<[el:=Node (last_or l1 None) (Some tl) vl]> h3)).
        -- intros d Hd. rewrite lookup_insert_ne; [done|]. intros <-.
           apply Htlnot. rewrite <-cells_fst.
           change (hd :: (cells (e0 :: E2)).*1)
             with (((hd, None) :: cells (e0 :: E2)).*1). by rewrite El.
        -- apply (seg_snoc_set_next h3 None l1 (el, vl) Q3 (Some tl)); [|done].
           rewrite <-El, fmap_cons, cells_fst. simpl.
           rewrite app_comm_cons in HndP. by apply NoDup_app in HndP as (? & _).
      * simpl. split; [|done]. rewrite lookup_insert_eq. rewrite last_or_app. done.
  - intros d Hd. cbn [nodes]. rewrite chain_fst in Hd.
    assert (Hd' : d ∉ hd :: (e0 :: E2).*1 ++ [tl]) by by rewrite HP.
    clear Hd. rewrite app_comm_cons in Hd'. apply not_elem_of_app in Hd' as [Hd1 Hd2].
    assert (d ≠ el).
    { intros ->. apply Hd1. rewrite <-cells_fst.
      change (hd :: (cells (e0 :: E2)).*1) with (((hd, None) :: cells (e0 :: E2)).*1).
      rewrite El, fmap_app. apply elem_of_app. right. left. }
    assert (d ≠ tl). { intros ->. apply Hd2. left. }
    rewrite !lookup_insert_ne by done. rewrite Hout3.
    + simpl. rewrite !lookup_insert_ne; [done|..]; intros <-; apply Hd1.
      * left.
      * right. left.
    + intros Hin. apply Hd1. by right.
Qed.


End sort.

Section failures.
Context {T : Type}.
Implicit Types (m : @mem T) (a b : loc) (p q : option loc) (es : list (loc * T))
  (pos : @iterator).

(** *** The failing paths of [insert] and [erase] *)

Lemma insert_invalid this pos (x : T) m :
  owner pos ≠ Some this ∨ cur pos = None →
  insert this pos x m = Throw invalid_iterator m.
Proof.
  intros [H|H]; unfold insert, ptr_eq, is_null.
  - by rewrite bool_decide_false.
  - destruct (bool_decide (owner pos = Some this)); [|done]. by rewrite bool_decide_true.
Qed.

Lemma insert_Throw this pos (x : T) m e m' :
  insert this pos x m = Throw e m' →
  (owner pos ≠ Some this ∨ cur pos = None) ∧ e = invalid_iterator ∧ m' = m.
Proof.
  unfold insert, ptr_eq, is_null.
  destruct (decide (owner pos = Some this)) as [Ho|Ho]; cycle 1.
  { rewrite bool_decide_false by done. cbn. intros [= <- <-]. auto. }
  destruct (decide (cur pos = None)) as [Hc|Hc].
  { rewrite bool_decide_true, bool_decide_true by done. cbn. intros [= <- <-]. auto. }
  rewrite bool_decide_true, bool_decide_false by done. cbn [negb].
  unfold bind, new_node, get_prev, set_prev, set_next, incr_sz, get_sz, set_sz,
    load, store, load_obj, store_obj, bind, ret.
  cbn. repeat (case_match; try discriminate); discriminate.
Qed.

Lemma erase_invalid this pos m :
  owner pos ≠ Some this ∨ cur pos = None →
  erase (T:=T) this pos m = Throw invalid_iterator m.
Proof.
  intros [H|H]; unfold erase, ptr_eq, is_null.
  - by rewrite bool_decide_false.
  - destruct (bool_decide (owner pos = Some this)); [|done]. by rewrite bool_decide_true.
Qed.

Lemma erase_empty m this hd tl c :
  is_list m this hd tl [] →
  erase this (Iterator (Some c) (Some this)) m = Throw container_is_empty m.
Proof.
  intros Hl. pose proof (is_list_obj _ _ _ _ _ Hl) as Ho.
  unfold erase. red_fields. rewrite ptr_eq_refl, is_null_Some. cbn [negb].
  step. done.
Qed.

Lemma erase_end m this hd tl es :
  is_list m this hd tl es → es ≠ [] →
  erase this (Iterator (Some tl) (Some this)) m = Throw invalid_iterator m.
Proof.
  intros Hl Hne. pose proof (is_list_obj _ _ _ _ _ Hl) as Ho.
  unfold erase. red_fields. rewrite ptr_eq_refl, is_null_Some. cbn [negb].
  step. rewrite (proj2 (Z.eqb_neq _ _)) by (destruct es; [done|simpl; lia]).
  step. by rewrite ptr_eq_refl.
Qed.

Lemma erase_head m this hd tl es :
  is_list m this hd tl es → es ≠ [] →
  erase this (Iterator (Some hd) (Some this)) m = Throw invalid_iterator m.
Proof.
  intros Hl Hne. pose proof (is_list_obj _ _ _ _ _ Hl) as Ho.
  pose proof (is_list_hd _ _ _ _ _ Hl) as Hh.
  pose proof (is_list_hd_ne_tl _ _ _ _ _ Hl).
  unfold erase. red_fields. rewrite ptr_eq_refl, is_null_Some. cbn [negb].
  step. rewrite (proj2 (Z.eqb_neq _ _)) by (destruct es; [done|simpl; lia]).
  step. rewrite ptr_eq_Some_ne by done. step. done.
Qed.

Lemma erase_Throw this pos m e m' :
  erase (T:=T) this pos m = Throw e m' → m' = m.
Proof.
  unfold erase, ptr_eq, is_null.
  unfold bind, get_sz, get_tail, get_val, get_next, get_prev, set_prev, set_next,
    delete_node, decr_sz, get_sz, set_sz, throw,
    load, store, load_obj, store_obj, bind, ret.
  cbn. repeat (case_match; try discriminate); try discriminate; congruence.
Qed.

End failures.

Section stale.
Context {T : Type}.
Implicit Types (m : @mem T) (h : gmap loc (@node T)) (a b : loc) (p q : option loc)
  (l : list (loc * option T)) (es : list (loc * T)).

(** *** The protected [erase(node* )] *)

Lemma erase_node_cells m this o l1 app vpp a va an vn l2 P Q :
  objs m !! this = Some o →
  NoDup (l1 ++ (app, vpp) :: (a, va) :: (an, vn) :: l2).*1 →
  seg (nodes m) P (l1 ++ (app, vpp) :: (a, va) :: (an, vn) :: l2) Q →
  ∃ m', erase_node this (Some a) m = Ok (Some a) m' ∧
    objs m' = <[this:=ListObj (head o) (tail o) (wrap (sz o - 1))]> (objs m) ∧
    seg (nodes m') P (l1 ++ (app, vpp) :: (an, vn) :: l2) Q ∧
    nodes m' !! a = Some (Node None None va) ∧
    (∀ b, b ≠ app → b ≠ a → b ≠ an → nodes m' !! b = nodes m !! b).
Proof.
  intros Ho Hnd Hs.
  destruct (seg_lookup2 _ _ _ _ _ _ _ Hs) as [Hpp Hp]. simpl in Hpp, Hp.
  assert (Hn : nodes m !! an = Some (Node (Some a) (first_or l2 Q) vn)).
  { apply seg_app in Hs as [_ Hs]. simpl in Hs. naive_solver. }
  rewrite fmap_app in Hnd. apply NoDup_app in Hnd as (Hnd1 & Hnd2 & Hnd3).
  simpl in Hnd3. rewrite !NoDup_cons in Hnd3.
  assert (app ≠ a) by set_solver. assert (app ≠ an) by set_solver.
  assert (a ≠ an) by set_solver.
  eexists. split.
  { unfold erase_node. repeat step. rewrite !is_null_Some. repeat step. reflexivity. }
  red_fields. split; [done|]. split; [|split].
  - apply seg_app in Hs as [Hs1 Hs2]. simpl in Hs2. destruct Hs2 as (_ & _ & _ & Hs2).
    apply seg_app. split.
    + eapply seg_frame; [|exact Hs1]. intros b Hb.
      specialize (Hnd2 b Hb). simpl in Hnd2.
      rewrite !lookup_insert_ne by set_solver. done.
    + simpl. split_and!.
      * solve_lookup.
      * solve_lookup.
      * eapply seg_frame; [|exact Hs2]. intros b Hb.
        rewrite !lookup_insert_ne by set_solver. done.
  - solve_lookup.
  - intros b ? ? ?. rewrite !lookup_insert_ne by done. done.
Qed.

Lemma erase_node_spec m this hd tl es1 a x es2 :
  is_list m this hd tl (es1 ++ (a, x) :: es2) →
  ∃ m', erase_node this (Some a) m = Ok (Some a) m' ∧
    is_list m' this hd tl (es1 ++ es2) ∧
    nodes m' !! a = Some (Node None None (Some x)).
Proof.
  intros Hl. pose proof Hl as (Ho & Hlt & Hnd & Hs).
  destruct (pre_snoc hd es1) as (l1 & app & vpp & E1).
  destruct (post_cons es2 tl) as (an & vn & l2 & E2 & _).
  assert (Ech : chain hd (es1 ++ (a, x) :: es2) tl
                = l1 ++ (app, vpp) :: (a, Some x) :: (an, vn) :: l2).
  { rewrite chain_app, E1. simpl. by rewrite E2, <-app_assoc. }
  assert (Ech' : chain hd (es1 ++ es2) tl = l1 ++ (app, vpp) :: (an, vn) :: l2).
  { by rewrite chain_app, E1, E2, <-app_assoc. }
  rewrite Ech in *. rewrite length_app in Ho, Hlt. simpl in Ho, Hlt.
  destruct (erase_node_cells m this _ l1 app vpp a (Some x) an vn l2 None None Ho)
    as (m' & Hrun & Hobjs & Hs' & Hgone & Hfr); [done..|].
  exists m'. split; [done|]. split; [|done].
  unfold is_list. rewrite Ech', Hobjs. split_and!.
  - rewrite lookup_insert_eq. simpl. do 2 f_equal.
    rewrite wrap_small by lia. rewrite !length_app. lia.
  - rewrite length_app. lia.
  - rewrite fmap_app in Hnd |- *. simpl in Hnd |- *.
    by apply NoDup_remove_mid in Hnd.
  - done.
Qed.

(** *** Increment and decrement on an iterator whose node left the list *)

Ltac stale_run Hl :=
  pose proof (is_list_obj _ _ _ _ _ Hl);
  red_fields; rewrite ?is_null_Some, ?is_null_None;
  repeat first [ step | rewrite ptr_eq_Some_ne by done
               | rewrite (ptr_eq_ne None (Some _)) by done ].

(** The node was destroyed: the operators read it all the same. *)
Lemma destroyed_inc_dec m this hd tl es a :
  is_list m this hd tl es → a ≠ hd → a ≠ tl → nodes m !! a = None →
  iterator_pre_inc (Iterator (Some a) (Some this)) m = Fault ∧
  iterator_post_inc (Iterator (Some a) (Some this)) m = Fault ∧
  iterator_pre_dec (Iterator (Some a) (Some this)) m = Fault ∧
  iterator_post_dec (Iterator (Some a) (Some this)) m = Fault ∧
  const_iterator_pre_inc (ConstIterator (Some a) (Some this)) m = Fault ∧
  const_iterator_post_inc (ConstIterator (Some a) (Some this)) m = Fault ∧
  const_iterator_pre_dec (ConstIterator (Some a) (Some this)) m = Fault ∧
  const_iterator_post_dec (ConstIterator (Some a) (Some this)) m = Fault.
Proof.
  intros Hl ? ? Ha.
  unfold iterator_pre_inc, iterator_post_inc, iterator_pre_dec, iterator_post_dec,
    const_iterator_pre_inc, const_iterator_post_inc, const_iterator_pre_dec,
    const_iterator_post_dec.
  split_and!; stale_run Hl;
    unfold bind, get_next, get_prev, load, bind; by rewrite Ha.
Qed.

(** The node was unlinked with its links cleared: the operators step to a
    null node and return. *)
Lemma detached_inc_dec m this hd tl es a v :
  is_list m this hd tl es → a ≠ hd → a ≠ tl →
  nodes m !! a = Some (Node None None v) →
  iterator_pre_inc (Iterator (Some a) (Some this)) m
    = Ok (Iterator None (Some this)) m ∧
  iterator_post_inc (Iterator (Some a) (Some this)) m
    = Ok (Iterator (Some a) (Some this), Iterator None (Some this)) m ∧
  iterator_pre_dec (Iterator (Some a) (Some this)) m
    = Ok (Iterator None (Some this)) m ∧
  iterator_post_dec (Iterator (Some a) (Some this)) m
    = Ok (Iterator (Some a) (Some this), Iterator None (Some this)) m.
Proof.
  intros Hl ? ? Ha.
  unfold iterator_pre_inc, iterator_post_inc, iterator_pre_dec, iterator_post_dec.
  split_and!; stale_run Hl; done.
Qed.

(** Only the operation after that one meets the null node. *)
Lemma null_inc_dec m o :
  iterator_pre_inc (Iterator None o) m = Throw invalid_iterator m ∧
  iterator_post_inc (Iterator None o) m = Throw invalid_iterator m ∧
  iterator_pre_dec (Iterator None o) m = Throw invalid_iterator m ∧
  iterator_post_dec (Iterator None o) m = Throw invalid_iterator m.
Proof.
  unfold iterator_pre_inc, iterator_post_inc, iterator_pre_dec, iterator_post_dec.
  red_fields. rewrite is_null_None. by destruct (is_null o).
Qed.

End stale.

Section order.
Context {T : Type} (ltb : T → T → bool).
Implicit Types (A B : list (loc * T)) (x y z : T).

Hypothesis ltb_asym : ∀ x y, ltb x y = true → ltb y x = false.

Lemma merged_HdRel x A B :
  HdRel (λ x y, ltb y x = false) x A.*2 →
  HdRel (λ x y, ltb y x = false) x B.*2 →
  HdRel (λ x y, ltb y x = false) x (merged ltb A B).*2.
Proof.
  intros HA HB. destruct A as [|a A], B as [|b B];
    rewrite ?merged_nil_l, ?merged_nil_r; try done.
  rewrite merged_cons. rewrite !fmap_cons in HA, HB.
  destruct (ltb b.2 a.2); rewrite fmap_cons; constructor.
  - by apply HdRel_inv in HB.
  - by apply HdRel_inv in HA.
Qed.

Lemma merged_ascending A B :
  ascending ltb A.*2 → ascending ltb B.*2 → ascending ltb (merged ltb A B).*2.
Proof.
  unfold ascending. revert B. induction A as [|a A IHA]; intros B HA HB.
  { by rewrite merged_nil_l. }
  induction B as [|b B IHB].
  { by rewrite merged_nil_r. }
  rewrite merged_cons. destruct (ltb b.2 a.2) eqn:Hlt.
  - rewrite fmap_cons. apply Sorted_inv in HB as [HB HbB].
    constructor; [by apply IHB|].
    apply merged_HdRel; [|done]. constructor. by apply ltb_asym.
  - rewrite fmap_cons. apply Sorted_inv in HA as [HA HaA].
    constructor; [by apply IHA|].
    apply merged_HdRel; [done|]. by constructor.
Qed.

Hypothesis ltb_negtrans : ∀ x y z, ltb x y = true → ltb x z = true ∨ ltb z y = true.

Lemma ascending_strongly xs :
  ascending ltb xs → StronglySorted (λ x y, ltb y x = false) xs.
Proof.
  apply Sorted_StronglySorted. intros x y z Hxy Hyz.
  destruct (ltb z x) eqn:Hzx; [|done].
  destruct (ltb_negtrans z x y Hzx); congruence.
Qed.

Lemma merged_elem e A B : e ∈ merged ltb A B ↔ e ∈ A ∨ e ∈ B.
Proof. by rewrite merged_perm, elem_of_app. Qed.

Lemma merged_strict A B :
  A.*1 ## B.*1 → ascending ltb A.*2 →
  ∀ a b, a ∈ A → b ∈ B → precedes b a (merged ltb A B) → ltb b.2 a.2 = true.
Proof.
  intros Hdisj HA. apply ascending_strongly in HA.
  revert B Hdisj. induction A as [|a0 A IHA]; intros B Hdisj a b Ha Hb Hpre.
  { by apply elem_of_nil in Ha. }
  induction B as [|b0 B IHB].
  { by apply elem_of_nil in Hb. }
  assert (Hab : ∀ e, e ∈ a0 :: A → e ∈ b0 :: B → False).
  { intros e H1 H2. apply (Hdisj e.1); by apply list_elem_of_fmap_2. }
  destruct Hpre as (l1 & l2 & l3 & Hm). rewrite merged_cons in Hm.
  destruct (ltb b0.2 a0.2) eqn:Hlt.
  - destruct l1 as [|c l1]; cbn [app] in Hm.
    + (* [b0] itself: it is less than [a0], and [a] is not less than [a0] *)
      assert (b = b0) as -> by congruence.
      apply elem_of_cons in Ha as [->|Ha]; [done|].
      apply StronglySorted_inv in HA as [_ HA].
      rewrite Forall_forall in HA.
      specialize (HA a.2 (list_elem_of_fmap_2 snd _ _ Ha)). simpl in HA.
      destruct (ltb_negtrans _ _ a.2 Hlt); congruence.
    + assert (Hm' : merged ltb (a0 :: A) B = l1 ++ b :: l2 ++ a :: l3) by congruence.
      apply IHB.
      * intros e H1 H2. apply (Hdisj e); [done|]. by right.
      * assert (Hin : b ∈ merged ltb (a0 :: A) B).
        { rewrite Hm'. apply elem_of_app. right. left. }
        apply merged_elem in Hin as [Hin|Hin]; [|done].
        destruct (Hab b); done.
      * by exists l1, l2, l3.
  - destruct l1 as [|c l1]; cbn [app] in Hm.
    + assert (b = a0) as -> by congruence. destruct (Hab a0); [left|done].
    + assert (Hm' : merged ltb A (b0 :: B) = l1 ++ b :: l2 ++ a :: l3) by congruence.
      rewrite fmap_cons in HA. apply StronglySorted_inv in HA as [HA _].
      apply (IHA HA (b0 :: B)); [| |done|].
      * intros e H1 H2. apply (Hdisj e); [|done]. by right.
      * assert (Hin : a ∈ merged ltb A (b0 :: B)).
        { rewrite Hm'. rewrite app_comm_cons, app_assoc. apply elem_of_app. right. left. }
        apply merged_elem in Hin as [Hin|Hin]; [done|].
        destruct (Hab a); done.
      * by exists l1, l2, l3.
Qed.

End order.

Section uniq.
Context {T : Type} (neqb : T → T → bool).
Implicit Types (es : list (loc * T)).

Lemma uniq_run_adjacent e es :
  Sorted (λ e1 e2, neqb e1.2 e2.2 = true) (e :: uniq_run neqb e.2 es).
Proof.
  revert e. induction es as [|e' es IH]; intros e; simpl.
  { by repeat constructor. }
  destruct (neqb e.2 e'.2) eqn:Hne; simpl; [|done].
  constructor; [done|]. by constructor.
Qed.

Lemma uniq_adjacent es : Sorted (λ e1 e2, neqb e1.2 e2.2 = true) (uniq neqb es).
Proof. destruct es; [constructor|apply uniq_run_adjacent]. Qed.

Lemma uniq_run_sublist x es : uniq_run neqb x es `sublist_of` es.
Proof.
  revert x. induction es as [|e es IH]; intros x; simpl; [done|].
  destruct (neqb x e.2); simpl.
  - by apply sublist_skip.
  - by apply sublist_cons.
Qed.

Lemma uniq_sublist es : uniq neqb es `sublist_of` es.
Proof. destruct es; [done|]. simpl. apply sublist_skip, uniq_run_sublist. Qed.

End uniq.

Section push_all.
Context {T : Type}.
Implicit Types (m : @mem T) (es : list (loc * T)).

Lemma push_all_spec (xs : list T) : ∀ m this hd tl es,
  is_list m this hd tl es →
  (Z.of_nat (length es + length xs) < size_max)%Z →
  ∃ m' es', push_all this xs m = Ok tt m' ∧
    is_list m' this hd tl (es ++ es') ∧ es'.*2 = xs.
Proof.
  induction xs as [|x xs IH]; intros m this hd tl es Hl Hsz.
  { exists m, []. by rewrite app_nil_r. }
  destruct (push_back_spec m this hd tl es x Hl) as (m1 & Hrun & Hl1 & _).
  { simpl in Hsz. lia. }
  destruct (IH m1 this hd tl _ Hl1) as (m' & es' & Hrun' & Hl' & Hes').
  { rewrite length_app. simpl in *. lia. }
  exists m', ((fresh (dom (nodes m)), x) :: es'). split; [|split].
  - cbn [push_all]. by rewrite (bind_Ok _ _ _ _ _ Hrun).
  - by rewrite <-app_assoc in Hl'.
  - rewrite fmap_cons. by f_equal.
Qed.

End push_all.

(** ** The instance on integers *)

Lemma sorted_insert_perm {A} (cmp : A → A → bool) x l :
  sorted_insert cmp x l ≡ₚ x :: l.
Proof.
  induction l as [|y l IH]; simpl; [done|].
  destruct (cmp y x); [|done]. rewrite IH. apply perm_swap.
Qed.

Lemma insertion_sort_perm (A : Type) (cmp : A → A → bool) (l : list A) :
  insertion_sort A cmp l ≡ₚ l.
Proof.
  induction l as [|x l IH]; simpl; [done|].
  unfold insertion_sort in *. simpl. by rewrite sorted_insert_perm, IH.
Qed.

Ltac list_by_compute :=
  unfold is_list; split_and!;
  [ vm_compute; reflexivity
  | vm_compute; reflexivity
  | apply (bool_decide_unpack _); vm_compute; exact I
  | cbn [chain cells seg fmap list_fmap app cell fst snd first_or zip_with];
    split_and!; try exact I; vm_compute; reflexivity ].

Lemma build_135 :
  is_list (exec (build 1 [1; 3; 5]%Z) mem0) 1 1 2 (zip [3; 4; 5]%positive [1; 3; 5]%Z).
Proof. list_by_compute. Qed.

Lemma build2_135_234 :
  let m := exec (build2 [1; 3; 5]%Z [2; 3; 4]%Z) mem0 in
  is_list m 1 1 2 (zip [3; 4; 5]%positive [1; 3; 5]%Z) ∧
  is_list m 2 6 7 (zip [8; 9; 10]%positive [2; 3; 4]%Z).
Proof. split; list_by_compute. Qed.

Section pops.
Context {T : Type}.
Implicit Types (m : @mem T).



Lemma pop_empty m this hd tl :
  is_list m this hd tl [] →
  pop_back this m = Throw container_is_empty m ∧
  pop_front this m = Throw container_is_empty m.
Proof.
  intros Hl. pose proof (is_list_obj _ _ _ _ _ Hl) as Ho.
  unfold pop_back, pop_front. split; step; done.
Qed.

End pops.

(** * The claims of the specification *)

Lemma Z_ltb_asym (x y : Z) : (x <? y)%Z = true → (y <? x)%Z = false.
Proof. lia. Qed.

Lemma Z_ltb_negtrans (x y z : Z) :
  (x <? y)%Z = true → (x <? z)%Z = true ∨ (z <? y)%Z = true.
Proof. lia. Qed.


Section invariant.
Context {T : Type} (ltb neqb : T → T → bool).
Context (ext_sort : ∀ A : Type, (A → A → bool) → list A → list A).
Hypothesis ext_sort_perm : ∀ (A : Type) (cmp : A → A → bool) (l : list A),
  ext_sort A cmp l ≡ₚ l.
Implicit Types (m : @mem T) (es : list (loc * T)).


End invariant.


(** C2: let [operator<] be a strict weak order and let two distinct lists hold
    [A] and [B], both ascending.  Then [A.merge(B)] returns and the first list
    holds [merged ltb A B]: it is ascending, it consists of the very nodes of
    [A] and [B] with their values (no node is allocated or destroyed and
    nothing outside the two chains changes), and a node of [B] precedes a node
    of [A] in it only when its value is strictly less, so that of two
    equivalent elements the one from [A] comes first.  The second list is left
    empty with count zero.  Merging an empty list changes nothing, and neither
    does merging a list into itself. *)
Theorem merge_correct {T : Type} (ltb : T → T → bool) fuel (m : @mem T)
    this hd tl A other ohd otl B :
  (∀ x y, ltb x y = true → ltb y x = false) →
  (∀ x y z, ltb x y = true → ltb x z = true ∨ ltb z y = true) →
  this ≠ other →
  is_list m this hd tl A →
  is_list m other ohd otl B →
  (chain hd A tl).*1 ## (chain ohd B otl).*1 →
  (Z.of_nat (length A + length B) < size_max)%Z →
  length A + length B < fuel →
  ascending ltb A.*2 →
  ascending ltb B.*2 →
  ∃ m', merge ltb fuel this other m = Ok tt m' ∧
    is_list m' this hd tl (merged ltb A B) ∧
    ascending ltb (merged ltb A B).*2 ∧
    merged ltb A B ≡ₚ A ++ B ∧
    (∀ a b, a ∈ A → b ∈ B → precedes b a (merged ltb A B) → ltb b.2 a.2 = true) ∧
    (∀ a b, a ∈ A → b ∈ B → ltb b.2 a.2 = false → precedes a b (merged ltb A B)) ∧
    is_list m' other ohd otl [] ∧
    size other m' = Ok 0%Z m' ∧
    (∀ d, d ∉ (chain hd A tl).*1 → d ∉ (chain ohd B otl).*1 →
          nodes m' !! d = nodes m !! d) ∧
    (B = [] → m' = m) ∧
    merge ltb fuel this this m = Ok tt m.
Proof.
  intros Hasym Hneg Hne HA HB Hdisj Hsz Hf HsA HsB.
  destruct (merge_spec ltb fuel m this hd tl A other ohd otl B Hne HA HB Hdisj Hsz Hf)
    as (m' & Hrun & HA' & HB' & Hout & _ & Hnil).
  assert (HdAB : A.*1 ## B.*1).
  { intros d H1 H2. apply (Hdisj d); rewrite chain_fst; right; apply elem_of_app; by left. }
  exists m'. split_and!; try done.
  - by apply merged_ascending.
  - apply merged_perm.
  - by apply merged_strict.
  - intros a b Ha Hb Hlt.
    assert (Hnd : NoDup (merged ltb A B).*1).
    { destruct HA' as (_ & _ & Hd & _). rewrite chain_fst in Hd.
      apply NoDup_cons in Hd as [_ Hd]. by apply NoDup_app in Hd as [Hd _]. }
    assert (Hina : a ∈ merged ltb A B) by (apply merged_elem; by left).
    assert (Hinb : b ∈ merged ltb A B) by (apply merged_elem; by right).
    apply list_elem_of_split in Hina as (l1 & l2 & E).
    rewrite E in Hinb. apply elem_of_app in Hinb as [Hinb|Hinb].
    + (* [b] before [a]: then it would be strictly less *)
      apply list_elem_of_split in Hinb as (k1 & k2 & ->).
      assert (Hpre : precedes b a (merged ltb A B)).
      { exists k1, k2, l2. by rewrite E, <-app_assoc. }
      rewrite (merged_strict ltb Hneg A B HdAB HsA a b Ha Hb Hpre) in Hlt. done.
    + apply elem_of_cons in Hinb as [->|Hinb].
      * (* the same cell would be in both lists *)
        destruct (HdAB a.1); by apply list_elem_of_fmap_2.
      * apply list_elem_of_split in Hinb as (k1 & k2 & ->).
        by exists l1, k1, k2.
  - by apply (size_spec _ _ ohd otl []).
  - apply merge_self.
Qed.

Lemma merge_correct_example :
  let m := exec (build2 [1; 3; 5]%Z [2; 3; 4]%Z) mem0 in
  ∃ m', merge Z.ltb 7 1 2 m = Ok tt m' ∧
    is_list m' 1 1 2 (zip [3; 8; 4; 9; 10; 5]%positive [1; 2; 3; 3; 4; 5]%Z) ∧
    is_list m' 2 6 7 [] ∧
    size 2 m' = Ok 0%Z m'.
Proof.
  intros m.
  pose (A := zip [3; 4; 5]%positive [1; 3; 5]%Z).
  pose (B := zip [8; 9; 10]%positive [2; 3; 4]%Z).
  assert (HA : is_list m 1 1 2 A) by exact (proj1 build2_135_234).
  assert (HB : is_list m 2 6 7 B) by exact (proj2 build2_135_234).
  assert (Hne : 1%positive ≠ 2%positive) by discriminate.
  assert (Hdisj : (chain 1 A 2).*1 ## (chain 6 B 7).*1).
  { assert (Hnd : NoDup ((chain 1 A 2).*1 ++ (chain 6 B 7).*1)).
    { apply (bool_decide_unpack _). vm_compute. exact I. }
    apply NoDup_app in Hnd as (_ & Hd & _). exact Hd. }
  assert (Hsz : (Z.of_nat (length A + length B) < size_max)%Z) by reflexivity.
  assert (Hf : length A + length B < 7) by (simpl; lia).
  assert (HsA : ascending Z.ltb A.*2) by (repeat constructor).
  assert (HsB : ascending Z.ltb B.*2) by (repeat constructor).
  destruct (merge_correct Z.ltb 7 m 1 1 2 A 2 6 7 B Z_ltb_asym Z_ltb_negtrans
              Hne HA HB Hdisj Hsz Hf HsA HsB)
    as (m' & H1 & H2 & _ & _ & _ & _ & H3 & H4 & _).
  exists m'. split; [exact H1|]. split; [exact H2|]. split; [exact H3|exact H4].
Defined.

(** C3, as stated, fails: on a list whose count is zero, [erase] of a
    default-constructed iterator throws [invalid_iterator], not
    [container_is_empty], because the owner and the node of [pos] are tested
    before the count. *)
Lemma erase_empty_tests_iterator_first :
  let m := exec (list_ctor 1) mem0 in
  is_list m 1 1 2 [] ∧
  size 1 m = Ok 0%Z m ∧
  erase 1 iterator_default m = Throw invalid_iterator m ∧
  erase 1 iterator_default m ≠ Throw container_is_empty m.
Proof.
  intros m. split; [list_by_compute|]. split; [vm_compute; reflexivity|].
  split; [reflexivity|discriminate].
Qed.

(** C3, amended: for an iterator of this list at one of its elements,
    [erase(pos)] unlinks and destroys the node, decrements the count and
    returns an iterator to the node that followed, which is the tail sentinel,
    equal to [end()], when the erased element was the last.  [erase] throws
    [invalid_iterator] when [pos] has another owner or no node, whatever the
    count; otherwise [container_is_empty] when the count is zero; otherwise
    [invalid_iterator] when [pos] is [end()] or the head sentinel.  A throwing
    call changes nothing. *)
Theorem erase_contract {T : Type} (m : @mem T) this hd tl es :
  is_list m this hd tl es →
  (∀ es1 a x es2, es = es1 ++ (a, x) :: es2 →
     ∃ m', erase this (Iterator (Some a) (Some this)) m
           = Ok (Iterator (first_or (cells es2) (Some tl)) (Some this)) m' ∧
       is_list m' this hd tl (es1 ++ es2) ∧
       nodes m' !! a = None ∧
       size this m' = Ok (Z.of_nat (length es) - 1)%Z m' ∧
       (es2 = [] →
          end_ this m' = Ok (Iterator (Some tl) (Some this)) m' ∧
          iterator_eq (Iterator (first_or (cells es2) (Some tl)) (Some this))
                      (Iterator (Some tl) (Some this)) = true)) ∧
  (∀ pos, owner pos ≠ Some this ∨ cur pos = None →
     erase this pos m = Throw invalid_iterator m) ∧
  (es = [] → ∀ c, erase this (Iterator (Some c) (Some this)) m
                  = Throw container_is_empty m) ∧
  (es ≠ [] →
     erase this (Iterator (Some tl) (Some this)) m = Throw invalid_iterator m ∧
     erase this (Iterator (Some hd) (Some this)) m = Throw invalid_iterator m) ∧
  (∀ pos e m', erase this pos m = Throw e m' → m' = m).
Proof.
  intros Hl. split_and!.
  - intros es1 a x es2 ->.
    destruct (erase_spec m this hd tl es1 a x es2 Hl) as (m' & Hrun & Hl' & Hgone & _).
    exists m'. split_and!; try done.
    + rewrite (size_spec _ _ _ _ _ Hl'). f_equal. rewrite !length_app. simpl. lia.
    + intros ->. split; [by apply (end_spec _ _ hd tl (es1 ++ []))|apply ptr_eq_refl].
  - intros pos. apply erase_invalid.
  - intros -> c. by apply (erase_empty _ _ hd tl).
  - intros Hne. split.
    + by apply (erase_end _ _ hd tl es).
    + by apply (erase_head _ _ hd tl es).
  - intros pos e m'. apply erase_Throw.
Qed.

Lemma erase_contract_example :
  let m := exec (build 1 [1; 3; 5]%Z) mem0 in
  ∃ m', erase 1 (Iterator (Some 5%positive) (Some 1%positive)) m
        = Ok (Iterator (Some 2%positive) (Some 1%positive)) m' ∧
    is_list m' 1 1 2 (zip [3; 4]%positive [1; 3]%Z) ∧
    size 1 m' = Ok 2%Z m'.
Proof.
  intros m.
  destruct (erase_contract m 1 1 2 _ build_135) as [H _].
  destruct (H (zip [3; 4]%positive [1; 3]%Z) 5%positive 5%Z [] eq_refl)
    as (m' & H1 & H2 & _ & H3 & _).
  exists m'. split; [exact H1|]. split; [|exact H3].
  rewrite app_nil_r in H2. exact H2.
Defined.

(** C4: for [iterator] and [const_iterator], pre- and post-decrement of an
    [end()] iterator returns normally exactly when the list is not empty, and
    the iterator then references the last element; decrement from the first
    element, from the head sentinel, or of an iterator without owner or
    without node throws [invalid_iterator].  Memory is never changed. *)
Theorem decrement_end_contract {T : Type} :
  decrement_contract (T:=T) Iterator iterator_pre_dec (λ _ new, new) ∧
  decrement_contract (T:=T) Iterator iterator_post_dec (λ old new, (old, new)) ∧
  decrement_contract (T:=T) ConstIterator const_iterator_pre_dec (λ _ new, new) ∧
  decrement_contract (T:=T) ConstIterator const_iterator_post_dec
    (λ old new, (old, new)).
Proof.
  split_and!.
  - apply iterator_pre_dec_contract.
  - apply iterator_post_dec_contract.
  - apply const_iterator_pre_dec_contract.
  - apply const_iterator_post_dec_contract.
Qed.

Lemma decrement_end_contract_example :
  let m := exec (build 1 [1; 3; 5]%Z) mem0 in
  iterator_pre_dec (Iterator (Some 2%positive) (Some 1%positive)) m
    = Ok (Iterator (Some 5%positive) (Some 1%positive)) m ∧
  iterator_pre_dec (Iterator (Some 3%positive) (Some 1%positive)) m
    = Throw invalid_iterator m.
Proof.
  intros m.
  destruct (@decrement_end_contract Z) as [[H _] _].
  destruct (H m _ _ _ _ build_135) as (H1 & _ & H3 & _).
  split.
  - exact (H1 (zip [3; 4]%positive [1; 3]%Z) 5%positive 5%Z eq_refl).
  - exact (H3 3%positive 1%Z (zip [4; 5]%positive [3; 5]%Z) eq_refl).
Defined.

(** C5, as stated, fails: after [A.merge(B)] the iterator [it = B.begin()]
    taken before still has the owner [B] and a node, which is now linked into
    [A] and not into [B]; [B.insert(it, 5)] returns normally. *)
Lemma insert_accepts_node_of_other_list :
  let m := exec (merge Z.ltb 3 1 2) (exec (build2 [1]%Z [2]%Z) mem0) in
  begin_ 2 (exec (build2 [1]%Z [2]%Z) mem0)
    = Ok (Iterator (Some 6%positive) (Some 2%positive)) (exec (build2 [1]%Z [2]%Z) mem0) ∧
  is_list m 1 1 2 (zip [3; 6]%positive [1; 2]%Z) ∧
  is_list m 2 4 5 [] ∧
  insert 2 (Iterator (Some 6%positive) (Some 2%positive)) 5%Z m
    = Ok (Iterator (Some 7%positive) (Some 2%positive))
         (exec (insert 2 (Iterator (Some 6%positive) (Some 2%positive)) 5%Z) m) ∧
  insert 2 (Iterator (Some 6%positive) (Some 2%positive)) 5%Z m
    ≠ Throw invalid_iterator m.
Proof.
  intros m. split; [vm_compute; reflexivity|].
  split; [list_by_compute|]. split; [list_by_compute|].
  assert (H : insert 2 (Iterator (Some 6%positive) (Some 2%positive)) 5%Z m
    = Ok (Iterator (Some 7%positive) (Some 2%positive))
         (exec (insert 2 (Iterator (Some 6%positive) (Some 2%positive)) 5%Z) m)).
  { vm_compute. reflexivity. }
  split; [exact H|]. rewrite H. discriminate.
Qed.

(** C5, amended: [insert(pos, value)] throws [invalid_iterator] exactly when
    the owner of [pos] is not this list or [pos] has no node (whether the node
    is linked into this list is not tested), and changes nothing then.  When
    [pos] is an iterator of this list at one of its elements or at the tail
    sentinel, it links a new node holding [value] immediately before the node
    of [pos], increments the count and returns an iterator to the new node. *)
Theorem insert_contract {T : Type} (m : @mem T) this (x : T) :
  (∀ pos, owner pos ≠ Some this ∨ cur pos = None →
     insert this pos x m = Throw invalid_iterator m) ∧
  (∀ pos e m', insert this pos x m = Throw e m' →
     (owner pos ≠ Some this ∨ cur pos = None) ∧ e = invalid_iterator ∧ m' = m) ∧
  (∀ hd tl es1 es2,
     is_list m this hd tl (es1 ++ es2) →
     (Z.of_nat (length (es1 ++ es2)) + 1 < size_max)%Z →
     let nd := fresh (dom (nodes m)) in
     ∃ m', insert this (Iterator (first_or (cells es2) (Some tl)) (Some this)) x m
           = Ok (Iterator (Some nd) (Some this)) m' ∧
       is_list m' this hd tl (es1 ++ (nd, x) :: es2) ∧
       size this m' = Ok (Z.of_nat (length (es1 ++ es2)) + 1)%Z m' ∧
       nodes m !! nd = None).
Proof.
  split_and!.
  - intros pos. apply insert_invalid.
  - intros pos e m'. apply insert_Throw.
  - intros hd tl es1 es2 Hl Hsz nd.
    destruct (insert_spec m this hd tl es1 es2 x Hl Hsz) as (m' & Hrun & Hl' & _ & Hfresh).
    exists m'. split_and!; try done.
    rewrite (size_spec _ _ _ _ _ Hl'). f_equal. rewrite !length_app. simpl. lia.
Qed.

Lemma insert_contract_example :
  let m := exec (build 1 [1; 3; 5]%Z) mem0 in
  ∃ m', insert 1 (Iterator (Some 4%positive) (Some 1%positive)) 2%Z m
        = Ok (Iterator (Some 6%positive) (Some 1%positive)) m' ∧
    is_list m' 1 1 2 (zip [3; 6; 4; 5]%positive [1; 2; 3; 5]%Z).
Proof.
  intros m.
  destruct (insert_contract m 1 2%Z) as (_ & _ & H).
  assert (Hsz : (Z.of_nat (length (zip [3]%positive [1]%Z
                   ++ zip [4; 5]%positive [3; 5]%Z)) + 1 < size_max)%Z)
    by reflexivity.
  destruct (H 1%positive 2%positive (zip [3]%positive [1]%Z)
              (zip [4; 5]%positive [3; 5]%Z) build_135 Hsz)
    as (m' & H1 & H2 & _).
  exists m'. split; [exact H1|exact H2].
Defined.

(** C6, as stated, fails: [erase] of the first element of [[1, 2]] destroys
    the node instead of clearing its links, and an increment or a decrement
    of the iterator that still references it reads the destroyed node; that
    is undefined behaviour and not the exception [invalid_iterator]. *)
Lemma erased_iterator_not_detected :
  let m := exec (build 1 [1; 2]%Z) mem0 in
  let it := Iterator (Some 3%positive) (Some 1%positive) in
  let m' := exec (erase 1 it) m in
  is_list m 1 1 2 (zip [3; 4]%positive [1; 2]%Z) ∧
  erase 1 it m = Ok (Iterator (Some 4%positive) (Some 1%positive)) m' ∧
  nodes m' !! 3%positive = None ∧
  iterator_pre_inc it m' = Fault ∧ iterator_pre_inc it m' ≠ Throw invalid_iterator m' ∧
  iterator_pre_dec it m' = Fault ∧ iterator_pre_dec it m' ≠ Throw invalid_iterator m'.
Proof.
  intros m it m'. split; [list_by_compute|].
  split; [vm_compute; reflexivity|]. split; [vm_compute; reflexivity|].
  assert (Hi : iterator_pre_inc it m' = Fault) by (vm_compute; reflexivity).
  assert (Hd : iterator_pre_dec it m' = Fault) by (vm_compute; reflexivity).
  rewrite Hi, Hd. repeat split; discriminate.
Qed.

(** C6, amended: [erase(pos)] destroys the node it removes and does not clear
    its links, so every increment and decrement of an iterator that still
    references the node reads a destroyed node, which is undefined behaviour
    and not [invalid_iterator].  The links are cleared by the protected helper
    [erase(node* )] only, which [erase(pos)] does not call and which does not
    destroy the node; after it an increment or a decrement of such an
    iterator returns normally with a null node, and it is the operation after
    that one that throws [invalid_iterator]. *)
Theorem erase_destroys_the_node {T : Type} (m : @mem T) this hd tl es1 a x es2 :
  is_list m this hd tl (es1 ++ (a, x) :: es2) →
  let it := Iterator (Some a) (Some this) in
  let cit := ConstIterator (Some a) (Some this) in
  (∃ m', erase this it m
         = Ok (Iterator (first_or (cells es2) (Some tl)) (Some this)) m' ∧
     is_list m' this hd tl (es1 ++ es2) ∧
     nodes m' !! a = None ∧
     iterator_pre_inc it m' = Fault ∧ iterator_post_inc it m' = Fault ∧
     iterator_pre_dec it m' = Fault ∧ iterator_post_dec it m' = Fault ∧
     const_iterator_pre_inc cit m' = Fault ∧ const_iterator_post_inc cit m' = Fault ∧
     const_iterator_pre_dec cit m' = Fault ∧ const_iterator_post_dec cit m' = Fault) ∧
  (∃ m', erase_node this (Some a) m = Ok (Some a) m' ∧
     is_list m' this hd tl (es1 ++ es2) ∧
     nodes m' !! a = Some (Node None None (Some x)) ∧
     iterator_pre_inc it m' = Ok (Iterator None (Some this)) m' ∧
     iterator_post_inc it m' = Ok (it, Iterator None (Some this)) m' ∧
     iterator_pre_dec it m' = Ok (Iterator None (Some this)) m' ∧
     iterator_post_dec it m' = Ok (it, Iterator None (Some this)) m' ∧
     iterator_pre_inc (Iterator None (Some this)) m' = Throw invalid_iterator m' ∧
     iterator_post_inc (Iterator None (Some this)) m' = Throw invalid_iterator m' ∧
     iterator_pre_dec (Iterator None (Some this)) m' = Throw invalid_iterator m' ∧
     iterator_post_dec (Iterator None (Some this)) m' = Throw invalid_iterator m').
Proof.
  intros Hl it cit.
  destruct (is_list_elem_ne _ _ _ _ _ a Hl) as [Hhd Htl].
  { rewrite fmap_app. apply elem_of_app. right. left. }
  split.
  - destruct (erase_spec m this hd tl es1 a x es2 Hl) as (m' & Hrun & Hl' & Hgone & _).
    exists m'. split; [done|]. split; [done|]. split; [done|].
    exact (destroyed_inc_dec m' this hd tl _ a Hl' Hhd Htl Hgone).
  - destruct (erase_node_spec m this hd tl es1 a x es2 Hl) as (m' & Hrun & Hl' & Ha).
    exists m'. split; [done|]. split; [done|]. split; [done|].
    destruct (detached_inc_dec m' this hd tl _ a _ Hl' Hhd Htl Ha) as (H1 & H2 & H3 & H4).
    destruct (null_inc_dec m' (Some this)) as (N1 & N2 & N3 & N4).
    split_and!; done.
Qed.

Lemma erase_destroys_the_node_example :
  let m := exec (build 1 [1; 3; 5]%Z) mem0 in
  ∃ m', erase 1 (Iterator (Some 4%positive) (Some 1%positive)) m
        = Ok (Iterator (Some 5%positive) (Some 1%positive)) m' ∧
    nodes m' !! 4%positive = None ∧
    iterator_pre_inc (Iterator (Some 4%positive) (Some 1%positive)) m' = Fault.
Proof.
  intros m.
  destruct (erase_destroys_the_node m 1 1 2 (zip [3]%positive [1]%Z) 4%positive 3%Z
              (zip [5]%positive [5]%Z) build_135) as [(m' & H1 & _ & H2 & H3 & _) _].
  exists m'. split; [exact H1|]. split; [exact H2|exact H3].
Defined.

(** C7: [unique()] returns and leaves the list [uniq es]: scanning from the
    left, each element is kept and the elements after it that are equal to it
    (for which [operator!=] answers false) are unlinked and destroyed, up to
    the first one that differs, where the scan goes on.  What is kept is a
    subsequence of the list in which neighbours differ, the count is the
    number of elements kept, equal values that are not consecutive survive
    (so [1,1,2,2,1] becomes [1,2,1]), and a list of at most one element is not
    touched. *)
Theorem unique_correct {T : Type} (neqb : T → T → bool) fuel (m : @mem T) this hd tl es :
  is_list m this hd tl es →
  length es < fuel →
  ∃ m', unique neqb fuel this m = Ok tt m' ∧
    is_list m' this hd tl (uniq neqb es) ∧
    size this m' = Ok (Z.of_nat (length (uniq neqb es))) m' ∧
    (∀ e es', uniq neqb (e :: es') = e :: uniq neqb (drop_eq neqb e.2 es')) ∧
    uniq neqb es `sublist_of` es ∧
    Sorted (λ e1 e2, neqb e1.2 e2.2 = true) (uniq neqb es) ∧
    (∀ a, a ∈ es.*1 → a ∉ (uniq neqb es).*1 → nodes m' !! a = None) ∧
    (length es ≤ 1 → m' = m) ∧
    (uniq Z_neqb (zip [3; 4; 5; 6; 7]%positive [1; 1; 2; 2; 1]%Z)).*2 = [1; 2; 1]%Z.
Proof.
  intros Hl Hf.
  destruct (unique_spec neqb fuel m this hd tl es Hl Hf)
    as (m' & Hrun & Hl' & Hgone & _ & _ & Hshort).
  exists m'. split_and!; try done.
  - by apply (size_spec _ _ hd tl).
  - intros e es'. simpl. by rewrite uniq_run_drop.
  - apply uniq_sublist.
  - apply uniq_adjacent.
Qed.

Lemma unique_correct_example :
  let m := exec (build 1 [1; 1; 2; 2; 1]%Z) mem0 in
  ∃ m', unique Z_neqb 6 1 m = Ok tt m' ∧
    is_list m' 1 1 2 (zip [3; 5; 7]%positive [1; 2; 1]%Z) ∧
    size 1 m' = Ok 3%Z m'.
Proof.
  intros m.
  assert (Hl : is_list m 1 1 2 (zip [3; 4; 5; 6; 7]%positive [1; 1; 2; 2; 1]%Z))
    by list_by_compute.
  assert (Hf : length (zip [3; 4; 5; 6; 7]%positive [1; 1; 2; 2; 1]%Z) < 6)
    by (simpl; lia).
  destruct (unique_correct Z_neqb 6 m 1 1 2 _ Hl Hf) as (m' & H1 & H2 & H3 & _).
  exists m'. split; [exact H1|]. split; [exact H2|exact H3].
Defined.

(** C8: on a list of any size [reverse()] returns and leaves the same nodes in
    the same places of the chain, holding the values in reverse order: every
    node keeps its two links, no node is allocated or destroyed, nothing but
    the values of the list's elements changes, the middle node of a list of
    odd length is not changed at all, and a second [reverse()] restores the
    memory that the first one found. *)
Theorem reverse_correct {T : Type} (m : @mem T) this hd tl es :
  is_list m this hd tl es →
  ∃ m', reverse this m = Ok tt m' ∧
    is_list m' this hd tl (reversed es) ∧
    (reversed es).*1 = es.*1 ∧
    (reversed es).*2 = rev es.*2 ∧
    objs m' = objs m ∧
    (∀ a nd, nodes m !! a = Some nd →
       ∃ nd', nodes m' !! a = Some nd' ∧ prev nd' = prev nd ∧ next nd' = next nd) ∧
    (∀ a, nodes m !! a = None → nodes m' !! a = None) ∧
    (∀ a, a ∉ es.*1 → nodes m' !! a = nodes m !! a) ∧
    (∀ (F : list (loc * T)) e B, es = F ++ e :: B → length F = length B →
       nodes m' !! e.1 = nodes m !! e.1) ∧
    reverse this m' = Ok tt m.
Proof.
  intros Hl.
  destruct (reverse_spec m this hd tl es Hl) as (m' & Hrun & Hl' & Ho & Hout & Hlinks & Hmid).
  exists m'. split_and!; try done.
  - apply reversed_fst.
  - apply reversed_snd.
  - intros a Ha. rewrite Hout; [done|]. intros Hin.
    assert (Hc : a ∈ (chain hd es tl).*1).
    { rewrite chain_fst. right. apply elem_of_app. by left. }
    apply (is_list_allocated _ _ _ _ _ _ Hl) in Hc. rewrite Ha in Hc. by destruct Hc.
  - by apply (reverse_twice m this hd tl es).
Qed.

Lemma reverse_correct_example :
  let m := exec (build 1 [1; 3; 5]%Z) mem0 in
  ∃ m', reverse 1 m = Ok tt m' ∧
    is_list m' 1 1 2 (zip [3; 4; 5]%positive [5; 3; 1]%Z) ∧
    reverse 1 m' = Ok tt m.
Proof.
  intros m.
  destruct (reverse_correct m 1 1 2 _ build_135) as (m' & H1 & H2 & _ & _ & _ & _ & _ & _ & _ & H3).
  exists m'. split; [exact H1|]. split; [exact H2|exact H3].
Defined.

(** C9: starting from an empty list, a run of [push_back] calls (fewer than
    2^64 of them) returns, and then the traversal from [begin()] to [end()]
    yields the pushed values in the order of the calls and [size()] is their
    number. *)
Theorem push_back_traverse {T : Type} (xs : list T) m this hd tl fuel :
  is_list m this hd tl [] →
  (Z.of_nat (length xs) < size_max)%Z →
  length xs < fuel →
  ∃ m', push_all this xs m = Ok tt m' ∧
    traverse fuel this m' = Ok xs m' ∧
    size this m' = Ok (Z.of_nat (length xs)) m'.
Proof.
  intros Hl Hsz Hf.
  destruct (push_all_spec xs m this hd tl [] Hl) as (m' & es' & Hrun & Hl' & Hes').
  { done. }
  rewrite app_nil_l in Hl'.
  assert (Hlen : length es' = length xs) by by rewrite <-Hes', length_fmap.
  exists m'. split; [done|]. split.
  - rewrite <-Hes'. apply (traverse_spec _ _ _ _ _ _ Hl'). lia.
  - rewrite <-Hlen. by apply (size_spec _ _ hd tl).
Qed.

Lemma push_back_traverse_example :
  ∃ m', push_all 1 [1; 3; 5]%Z (exec (list_ctor 1) mem0) = Ok tt m' ∧
    traverse 4 1 m' = Ok [1; 3; 5]%Z m' ∧
    size 1 m' = Ok 3%Z m'.
Proof.
  apply (push_back_traverse [1; 3; 5]%Z (exec (list_ctor 1) mem0) 1 1 2 4).
  - list_by_compute.
  - reflexivity.
  - simpl. lia.
Defined.

(** C10: each of the eight comparison operators, on any two iterators of
    either kind and of any owners, answers by the two node pointers alone:
    [==] is true exactly when both iterators reference the same node and [!=]
    is its negation.  The owners are not consulted, the operators read no
    memory and cannot fail, and default-constructed iterators compare equal. *)
Theorem iterator_equality :
  (∀ a b : iterator, iterator_eq a b = true ↔ cur a = cur b) ∧
  (∀ (a : iterator) (b : const_iterator),
     iterator_eq_const a b = true ↔ cur a = ccur b) ∧
  (∀ a b : const_iterator, const_iterator_eq a b = true ↔ ccur a = ccur b) ∧
  (∀ (a : const_iterator) (b : iterator),
     const_iterator_eq_iter a b = true ↔ ccur a = cur b) ∧
  (∀ a b : iterator, iterator_neq a b = negb (iterator_eq a b)) ∧
  (∀ (a : iterator) (b : const_iterator),
     iterator_neq_const a b = negb (iterator_eq_const a b)) ∧
  (∀ a b : const_iterator, const_iterator_neq a b = negb (const_iterator_eq a b)) ∧
  (∀ (a : const_iterator) (b : iterator),
     const_iterator_neq_iter a b = negb (const_iterator_eq_iter a b)) ∧
  (∀ c c' o1 o2 o1' o2',
     iterator_eq (Iterator c o1) (Iterator c' o2)
     = iterator_eq (Iterator c o1') (Iterator c' o2') ∧
     iterator_eq_const (Iterator c o1) (ConstIterator c' o2)
     = iterator_eq_const (Iterator c o1') (ConstIterator c' o2') ∧
     const_iterator_eq (ConstIterator c o1) (ConstIterator c' o2)
     = const_iterator_eq (ConstIterator c o1') (ConstIterator c' o2') ∧
     const_iterator_eq_iter (ConstIterator c o1) (Iterator c' o2)
     = const_iterator_eq_iter (ConstIterator c o1') (Iterator c' o2')) ∧
  iterator_eq iterator_default iterator_default = true ∧
  iterator_eq_const iterator_default const_iterator_default = true ∧
  const_iterator_eq const_iterator_default const_iterator_default = true ∧
  const_iterator_eq_iter const_iterator_default iterator_default = true.
Proof.
  unfold iterator_eq, iterator_eq_const, const_iterator_eq, const_iterator_eq_iter,
    iterator_neq, iterator_neq_const, const_iterator_neq, const_iterator_neq_iter,
    iterator_eq, const_iterator_eq, const_iterator_eq_iter, ptr_eq.
  split_and!; try done; intros; apply bool_decide_eq_true.
Qed.

(** * The rest of the class *)

Section observers.
Context {T : Type}.
Implicit Types (m : @mem T) (a b : loc) (p q : option loc) (es : list (loc * T)).

Lemma front_elem m this hd tl a x es :
  is_list m this hd tl ((a, x) :: es) → front this m = Ok x m.
Proof.
  intros Hl. pose proof (is_list_obj _ _ _ _ _ Hl) as Ho.
  pose proof (is_list_hd _ _ _ _ _ Hl) as Hh.
  pose proof (is_list_elem m this hd tl [] a x es Hl) as Ha.
  unfold front. step. rewrite (proj2 (Z.eqb_neq _ _)) by (simpl; lia).
  repeat step. by eapply deref_val_Ok.
Qed.

Lemma back_elem m this hd tl es a x :
  is_list m this hd tl (es ++ [(a, x)]) → back this m = Ok x m.
Proof.
  intros Hl. pose proof (is_list_obj _ _ _ _ _ Hl) as Ho.
  pose proof (is_list_tl _ _ _ _ _ Hl) as Ht.
  pose proof (is_list_elem m this hd tl es a x [] Hl) as Ha.
  unfold back. step. rewrite length_app.
  rewrite (proj2 (Z.eqb_neq _ _)) by (simpl; lia).
  repeat step. rewrite cells_app, last_or_app. by eapply deref_val_Ok.
Qed.

Lemma front_back_empty m this hd tl :
  is_list m this hd tl [] →
  front this m = Throw container_is_empty m ∧ back this m = Throw container_is_empty m.
Proof.
  intros Hl. pose proof (is_list_obj _ _ _ _ _ Hl) as Ho.
  unfold front, back. split; step; done.
Qed.

Lemma cbegin_spec m this hd tl es :
  is_list m this hd tl es →
  cbegin this m = Ok (ConstIterator (first_or (cells es) (Some tl)) (Some this)) m.
Proof.
  intros Hl. pose proof (is_list_obj _ _ _ _ _ Hl) as Ho.
  pose proof (is_list_hd _ _ _ _ _ Hl) as Hh.
  unfold cbegin. step. destruct es as [|e es].
  - simpl. by step.
  - rewrite (proj2 (Z.eqb_neq _ _)) by (simpl; lia). simpl. by repeat step.
Qed.

Lemma cend_spec m this hd tl es :
  is_list m this hd tl es → cend this m = Ok (ConstIterator (Some tl) (Some this)) m.
Proof.
  intros Hl. pose proof (is_list_obj _ _ _ _ _ Hl) as Ho. unfold cend. by step.
Qed.

Lemma empty_spec m this hd tl es :
  is_list m this hd tl es → empty this m = Ok (bool_decide (es = [])) m.
Proof.
  intros Hl. pose proof (is_list_obj _ _ _ _ _ Hl) as Ho. unfold empty. step.
  by destruct es.
Qed.

Lemma first_or_tl_iff m this hd tl es :
  is_list m this hd tl es → first_or (cells es) (Some tl) = Some tl ↔ es = [].
Proof.
  intros Hl. destruct es as [|[a x] es]; [done|]. split; [|done].
  intros [= ->]. destruct (is_list_elem_ne _ _ _ _ _ tl Hl) as [_ ?]; [by left|done].
Qed.

(** *** Stepping *)

Lemma iterator_post_inc_elem m this hd tl es1 a x es2 :
  is_list m this hd tl (es1 ++ (a, x) :: es2) →
  iterator_post_inc (Iterator (Some a) (Some this)) m
  = Ok (Iterator (Some a) (Some this),
        Iterator (first_or (cells es2) (Some tl)) (Some this)) m.
Proof.
  intros Hl. pose proof (is_list_obj _ _ _ _ _ Hl) as Ho.
  pose proof (is_list_elem _ _ _ _ _ _ _ _ Hl) as Ha.
  destruct (is_list_elem_ne _ _ _ _ _ a Hl) as [? ?]; [rewrite fmap_app; set_solver|].
  unfold iterator_post_inc. dec_run.
Qed.

Lemma iterator_inc_end m this hd tl es :
  is_list m this hd tl es →
  iterator_pre_inc (Iterator (Some tl) (Some this)) m = Throw invalid_iterator m ∧
  iterator_post_inc (Iterator (Some tl) (Some this)) m = Throw invalid_iterator m.
Proof.
  intros Hl. pose proof (is_list_obj _ _ _ _ _ Hl) as Ho.
  unfold iterator_pre_inc, iterator_post_inc. split; dec_run.
Qed.

Lemma iterator_inc_head m this hd tl es :
  is_list m this hd tl es →
  iterator_pre_inc (Iterator (Some hd) (Some this)) m
  = Ok (Iterator (first_or (cells es) (Some tl)) (Some this)) m ∧
  iterator_post_inc (Iterator (Some hd) (Some this)) m
  = Ok (Iterator (Some hd) (Some this),
        Iterator (first_or (cells es) (Some tl)) (Some this)) m.
Proof.
  intros Hl. pose proof (is_list_obj _ _ _ _ _ Hl) as Ho.
  pose proof (is_list_hd _ _ _ _ _ Hl) as Hh.
  pose proof (is_list_hd_ne_tl _ _ _ _ _ Hl).
  unfold iterator_pre_inc, iterator_post_inc. split; dec_run.
Qed.

Lemma iterator_inc_unattached m c o :
  c = None ∨ o = None →
  iterator_pre_inc (Iterator c o) m = Throw invalid_iterator m ∧
  iterator_post_inc (Iterator c o) m = Throw invalid_iterator m.
Proof.
  unfold iterator_pre_inc, iterator_post_inc. red_fields.
  intros [->| ->]; [|done]. rewrite is_null_None. by destruct (is_null o).
Qed.

Lemma iterator_dec_elem m this hd tl es1 b y a x es2 :
  is_list m this hd tl (es1 ++ (b, y) :: (a, x) :: es2) →
  iterator_pre_dec (Iterator (Some a) (Some this)) m
  = Ok (Iterator (Some b) (Some this)) m ∧
  iterator_post_dec (Iterator (Some a) (Some this)) m
  = Ok (Iterator (Some a) (Some this), Iterator (Some b) (Some this)) m.
Proof.
  intros Hl. pose proof (is_list_obj _ _ _ _ _ Hl) as Ho.
  assert (Hl' : is_list m this hd tl ((es1 ++ [(b, y)]) ++ (a, x) :: es2))
    by by rewrite <-app_assoc.
  pose proof (is_list_elem _ _ _ _ _ _ _ _ Hl') as Ha.
  rewrite cells_app, last_or_app in Ha. simpl in Ha.
  destruct (is_list_elem_ne _ _ _ _ _ a Hl) as [? ?].
  { rewrite fmap_app. apply elem_of_app. right. right. left. }
  destruct (is_list_elem_ne _ _ _ _ _ b Hl) as [? ?].
  { rewrite fmap_app. apply elem_of_app. right. left. }
  unfold iterator_pre_dec, iterator_post_dec. split; dec_run.
Qed.

(** *** Dereference *)

Lemma iterator_arrow_elem m this hd tl es1 a x es2 :
  is_list m this hd tl (es1 ++ (a, x) :: es2) →
  iterator_arrow (Iterator (Some a) (Some this)) m = Ok (Some x) m.
Proof.
  intros Hl. pose proof (is_list_elem _ _ _ _ _ _ _ _ Hl) as Ha.
  unfold iterator_arrow. dec_run. by rewrite (get_val_Ok _ _ _ Ha).
Qed.

Lemma iterator_deref_sentinel m this hd tl es :
  is_list m this hd tl es →
  iterator_deref (Iterator (Some tl) (Some this)) m = Throw invalid_iterator m ∧
  iterator_deref (Iterator (Some hd) (Some this)) m = Throw invalid_iterator m ∧
  iterator_arrow (Iterator (Some tl) (Some this)) m = Throw invalid_iterator m ∧
  iterator_arrow (Iterator (Some hd) (Some this)) m = Throw invalid_iterator m.
Proof.
  intros Hl. pose proof (is_list_hd _ _ _ _ _ Hl) as Hh.
  pose proof (is_list_tl _ _ _ _ _ Hl) as Ht.
  unfold iterator_deref, iterator_arrow. split_and!; dec_run.
Qed.

Lemma iterator_deref_unattached m c o :
  c = None ∨ o = None →
  iterator_deref (T:=T) (Iterator c o) m = Throw invalid_iterator m ∧
  iterator_arrow (T:=T) (Iterator c o) m = Throw invalid_iterator m.
Proof.
  unfold iterator_deref, iterator_arrow. red_fields.
  intros [->| ->]; [|done]. rewrite is_null_None. by destruct (is_null o).
Qed.

End observers.

Section const_agrees.
Context {T : Type}.
Implicit Types (m : @mem T) (it : iterator).

Ltac unfold_ops :=
  unfold const_iterator_pre_inc, const_iterator_post_inc, const_iterator_pre_dec,
    const_iterator_post_dec, const_iterator_deref, const_iterator_arrow,
    iterator_pre_inc, iterator_post_inc, iterator_pre_dec, iterator_post_dec,
    iterator_deref, iterator_arrow, const_iterator_of,
    get_head, get_tail, get_sz, get_prev, get_next, get_val, deref_val,
    load, load_obj, bind, ret, throw, fault;
  cbn [cur owner ccur cowner].

Lemma const_iterator_agrees it m :
  const_iterator_pre_inc (const_iterator_of it) m
    = bind (iterator_pre_inc it) (λ r, ret (const_iterator_of r)) m ∧
  const_iterator_post_inc (const_iterator_of it) m
    = bind (iterator_post_inc it)
        (λ r, ret (const_iterator_of r.1, const_iterator_of r.2)) m ∧
  const_iterator_pre_dec (const_iterator_of it) m
    = bind (iterator_pre_dec it) (λ r, ret (const_iterator_of r)) m ∧
  const_iterator_post_dec (const_iterator_of it) m
    = bind (iterator_post_dec it)
        (λ r, ret (const_iterator_of r.1, const_iterator_of r.2)) m ∧
  const_iterator_deref (const_iterator_of it) m = iterator_deref it m ∧
  const_iterator_arrow (const_iterator_of it) m = iterator_arrow it m.
Proof.
  destruct it as [c o]. split_and!; unfold_ops;
    repeat (case_match; simplify_eq/=; try done).
Qed.

Lemma const_begin_end_agree this m :
  cbegin this m = bind (begin_ this) (λ r, ret (const_iterator_of r)) m ∧
  cend this m = bind (end_ this) (λ r, ret (const_iterator_of r)) m.
Proof.
  unfold cbegin, cend, begin_, end_, const_iterator_of,
    get_head, get_tail, get_sz, get_next, load, load_obj, bind, ret.
  split; repeat (case_match; simplify_eq/=; try done).
Qed.

End const_agrees.

Section destroy.
Context {T : Type}.
Implicit Types (m : @mem T) (h : gmap loc (@node T)) (a b : loc) (p q : option loc)
  (es : list (loc * T)).

(** [clear()], with everything it leaves said. *)
Lemma clear_exact m this hd tl es fuel :
  is_list m this hd tl es → length es < fuel →
  ∃ m', clear fuel this m = Ok tt m' ∧
    is_list m' this hd tl [] ∧
    (∀ a, a ∈ es.*1 → nodes m' !! a = None) ∧
    (∀ a, a ∉ (chain hd es tl).*1 → nodes m' !! a = nodes m !! a) ∧
    (∀ o : loc, o ≠ this → objs m' !! o = objs m !! o).
Proof.
  intros Hl Hf. pose proof Hl as (Ho & Hlt & Hnd & Hs).
  pose proof (is_list_hd _ _ _ _ _ Hl) as Hhd.
  pose proof (is_list_tl _ _ _ _ _ Hl) as Htl.
  pose proof (is_list_hd_ne_tl _ _ _ _ _ Hl) as Hne.
  rewrite chain_fst in Hnd. apply NoDup_cons in Hnd as [Hnd1 Hnd2].
  unfold chain in Hs. simpl in Hs. destruct Hs as [_ Hs]. apply seg_app in Hs as [Hs _].
  simpl in Hs.
  destruct (clear_loop_spec m this _ tl es (Some hd) fuel Ho eq_refl Hnd2 Hs Hf)
    as (h' & Hrun & Hh1 & Hh2).
  assert (hd ∉ es.*1) by set_solver.
  assert (tl ∉ es.*1). { apply NoDup_app in Hnd2 as (_ & Hnd2 & _). set_solver. }
  eexists. split; [|split; [|split; [|split]]].
  - unfold clear. repeat step. rewrite (bind_Ok _ _ _ _ _ Hrun).
    assert (h' !! hd = nodes m !! hd) as Hh by by apply Hh2.
    assert (h' !! tl = nodes m !! tl) as Ht by by apply Hh2.
    rewrite Hhd in Hh. rewrite Htl in Ht.
    step. step. step. step. step.
    erewrite bind_Ok by (eapply set_prev_Ok; cbn [nodes]; rewrite lookup_insert_ne by done; exact Ht).
    red_fields. eapply set_sz_Ok. done.
  - split_and!; simpl.
    + by rewrite lookup_insert_eq.
    + done.
    + apply NoDup_cons. split; [set_solver|]. apply NoDup_singleton.
    + split_and!; [solve_lookup|solve_lookup|done].
  - intros a Ha. simpl. rewrite !lookup_insert_ne by set_solver. by apply Hh1.
  - intros a Ha. cbn [nodes]. rewrite chain_fst in Ha.
    rewrite !lookup_insert_ne by set_solver. apply Hh2. set_solver.
  - intros o ?. cbn [objs]. by rewrite lookup_insert_ne.
Qed.

(** [~list()] *)
Lemma list_dtor_spec m this hd tl es fuel :
  is_list m this hd tl es → length es < fuel →
  ∃ m', list_dtor fuel this m = Ok tt m' ∧
    (∀ a, a ∈ (chain hd es tl).*1 → nodes m' !! a = None) ∧
    (∀ a, a ∉ (chain hd es tl).*1 → nodes m' !! a = nodes m !! a) ∧
    objs m' !! this = None ∧
    (∀ o : loc, o ≠ this → objs m' !! o = objs m !! o).
Proof.
  intros Hl Hf.
  destruct (clear_exact m this hd tl es fuel Hl Hf) as (m1 & Hrun & Hl1 & Hgone & Hout & Hobj).
  pose proof (is_list_obj _ _ _ _ _ Hl1) as Ho1.
  pose proof (is_list_hd _ _ _ _ _ Hl1) as Hh1.
  pose proof (is_list_tl _ _ _ _ _ Hl1) as Ht1.
  pose proof (is_list_hd_ne_tl _ _ _ _ _ Hl1) as Hne.
  eexists. split; [|split; [|split; [|split]]].
  - unfold list_dtor. rewrite (bind_Ok _ _ _ _ _ Hrun). repeat step.
    unfold free_obj. reflexivity.
  - intros a Ha. cbn [nodes]. rewrite chain_fst in Ha.
    destruct (decide (a = tl)) as [->|]; [by rewrite lookup_delete_eq|].
    rewrite lookup_delete_ne by done.
    destruct (decide (a = hd)) as [->|]; [by rewrite lookup_delete_eq|].
    rewrite lookup_delete_ne by done.
    apply Hgone. set_solver.
  - intros a Ha. cbn [nodes]. rewrite <-Hout by done. rewrite chain_fst in Ha.
    rewrite !lookup_delete_ne; [done|set_solver|set_solver].
  - cbn [objs]. by rewrite lookup_delete_eq.
  - intros o ?. cbn [objs]. rewrite lookup_delete_ne by done.
    rewrite !lookup_insert_ne by done. by apply Hobj.
Qed.

End destroy.

Section sort_sorted.
Context {T : Type} (ltb : T → T → bool).
Context (ext_sort : ∀ A : Type, (A → A → bool) → list A → list A).
Hypothesis ext_sort_perm : ∀ (A : Type) (cmp : A → A → bool) (l : list A),
  ext_sort A cmp l ≡ₚ l.
Hypothesis ext_sort_sorted : ∀ (A : Type) (cmp : A → A → bool) (l : list A),
  (∀ x y, x ∈ l → y ∈ l → cmp x y = true → cmp y x = false) →
  (∀ x y z, x ∈ l → y ∈ l → z ∈ l →
     cmp x y = true → cmp x z = true ∨ cmp z y = true) →
  Sorted (λ x y, cmp y x = false) (ext_sort A cmp l).
Hypothesis ltb_asym : ∀ x y, ltb x y = true → ltb y x = false.
Hypothesis ltb_negtrans : ∀ x y z, ltb x y = true → ltb x z = true ∨ ltb z y = true.
Implicit Types (m : @mem T) (es : list (loc * T)).

Lemma node_lt_elem m this hd tl es e1 e2 :
  is_list m this hd tl es → e1 ∈ es → e2 ∈ es →
  node_lt ltb m (Some e1.1) (Some e2.1) = ltb e1.2 e2.2.
Proof.
  intros Hl H1 H2.
  destruct (is_list_vals m this hd tl es e1 Hl H1) as (n1 & Hn1 & Hv1).
  destruct (is_list_vals m this hd tl es e2 Hl H2) as (n2 & Hn2 & Hv2).
  unfold node_lt.
  by rewrite (deref_val_Ok _ _ _ _ Hn1 Hv1), (deref_val_Ok _ _ _ _ Hn2 Hv2).
Qed.

Lemma Sorted_fmap_transfer {A B C : Type} (R1 : relation A) (R2 : relation B)
    (f : C → A) (g : C → B) (l : list C) :
  (∀ x y, x ∈ l → y ∈ l → R1 (f x) (f y) → R2 (g x) (g y)) →
  Sorted R1 (f <$> l) → Sorted R2 (g <$> l).
Proof.
  induction l as [|x l IH]; intros HR Hs; [constructor|].
  rewrite fmap_cons in Hs. apply Sorted_inv in Hs as [Hs Hhd].
  rewrite fmap_cons. constructor.
  - apply IH; [|done]. intros y z Hy Hz. apply HR; by right.
  - destruct l as [|y l]; [constructor|]. cbn [fmap list_fmap] in Hhd |- *.
    apply HdRel_inv in Hhd. constructor. apply HR; [left|right; left|done].
Qed.

Lemma sort_call_sorted m this hd tl es :
  is_list m this hd tl es →
  ∃ es', sort_call ltb ext_sort (Some <$> es.*1) m = Ok (Some <$> es'.*1) m ∧
    es' ≡ₚ es ∧ ascending ltb es'.*2.
Proof.
  intros Hl. unfold sort_call.
  assert (Hin : ∀ p, p ∈ Some <$> es.*1 → ∃ e, e ∈ es ∧ p = Some e.1).
  { intros p Hp. apply list_elem_of_fmap in Hp as (a & -> & Ha).
    apply list_elem_of_fmap in Ha as (e & -> & Ha). by exists e. }
  assert (Hall : forallb (has_value m) (Some <$> es.*1) = true).
  { apply forallb_forall. intros p Hp. apply list_elem_of_In in Hp.
    destruct (Hin p Hp) as (e & He & ->).
    destruct (is_list_vals m this hd tl es e Hl He) as (n & Hn & Hv).
    unfold has_value. by rewrite (deref_val_Ok _ _ _ _ Hn Hv). }
  rewrite Hall.
  assert (Hsorted : Sorted (λ x y, node_lt ltb m y x = false)
                      (ext_sort _ (node_lt ltb m) (Some <$> es.*1))).
  { apply ext_sort_sorted.
    - intros x y Hx Hy. destruct (Hin x Hx) as (ex & ? & ->).
      destruct (Hin y Hy) as (ey & ? & ->).
      rewrite !(node_lt_elem m this hd tl es) by done. apply ltb_asym.
    - intros x y z Hx Hy Hz. destruct (Hin x Hx) as (ex & ? & ->).
      destruct (Hin y Hy) as (ey & ? & ->). destruct (Hin z Hz) as (ez & ? & ->).
      rewrite !(node_lt_elem m this hd tl es) by done. apply ltb_negtrans. }
  pose proof (ext_sort_perm _ (node_lt ltb m) (Some <$> es.*1)) as HP.
  apply Permutation_map_inv in HP as (ns & E & HP).
  symmetry in HP. apply Permutation_map_inv in HP as (es' & E' & HP).
  exists es'. split; [|split; [by symmetry|]].
  - rewrite E, E'. done.
  - rewrite E, E' in Hsorted. rewrite <-list_fmap_compose in Hsorted.
    unfold ascending.
    revert Hsorted. apply Sorted_fmap_transfer.
    intros x y Hx Hy. simpl. rewrite (node_lt_elem m this hd tl es _ _ Hl); [done|..].
    + by rewrite HP.
    + by rewrite HP.
Qed.

Lemma sort_sorted_spec fuel m this hd tl es :
  is_list m this hd tl es →
  length es < fuel →
  ∃ m' es', sort ltb ext_sort fuel this m = Ok tt m' ∧
    is_list m' this hd tl es' ∧
    es' ≡ₚ es ∧
    ascending ltb es'.*2 ∧
    objs m' = objs m ∧
    (∀ d, d ∉ (chain hd es tl).*1 → nodes m' !! d = nodes m !! d) ∧
    (length es ≤ 1 → m' = m).
Proof.
  intros Hl Hf.
  destruct (sort_call_sorted m this hd tl es Hl) as (es' & Hcall & HP & Hasc).
  destruct (decide (length es ≤ 1)) as [Hshort|Hlong].
  - exists m, es. split; [|split; [done|split; [done|split; [|done]]]].
    + pose proof (is_list_obj _ _ _ _ _ Hl) as Ho.
      unfold sort. step. by rewrite (proj2 (Z.leb_le _ _)) by lia.
    + destruct es as [|e [|e' es]]; [constructor|repeat constructor|simpl in Hshort; lia].
  - destruct (sort_spec_with ltb ext_sort ext_sort_perm fuel m this hd tl es es' Hl Hf Hlong Hcall HP)
      as (m' & Hrun & Hl' & Ho & Hout).
    exists m', es'. split_and!; try done; lia.
Qed.

End sort_sorted.

(** Insertion sort is a sort. *)
Lemma sorted_insert_sorted {A} (cmp : A → A → bool) x l :
  (∀ y, y ∈ l → cmp y x = true → cmp x y = false) →
  Sorted (λ x y, cmp y x = false) l →
  Sorted (λ x y, cmp y x = false) (sorted_insert cmp x l).
Proof.
  induction l as [|y l IH]; intros Has Hs; simpl; [by repeat constructor|].
  destruct (cmp y x) eqn:Hyx.
  - apply Sorted_inv in Hs as [Hs Hhd]. constructor.
    + apply IH; [|done]. intros z Hz. apply Has. by right.
    + destruct l as [|z l]; simpl.
      * constructor. apply Has; [left|done].
      * destruct (cmp z x); constructor.
        -- by apply HdRel_inv in Hhd.
        -- apply Has; [left|done].
  - constructor; [done|]. by constructor.
Qed.

Lemma insertion_sort_sorted (A : Type) (cmp : A → A → bool) (l : list A) :
  (∀ x y, x ∈ l → y ∈ l → cmp x y = true → cmp y x = false) →
  (∀ x y z, x ∈ l → y ∈ l → z ∈ l →
     cmp x y = true → cmp x z = true ∨ cmp z y = true) →
  Sorted (λ x y, cmp y x = false) (insertion_sort A cmp l).
Proof.
  intros Has _. induction l as [|x l IH]; [constructor|].
  change (insertion_sort A cmp (x :: l))
    with (sorted_insert cmp x (insertion_sort A cmp l)).
  apply sorted_insert_sorted.
  - intros y Hy. rewrite insertion_sort_perm in Hy. apply Has; [by right|left].
  - apply IH. intros y z Hy Hz. apply Has; by right.
Qed.

Section insert_node.
Context {T : Type}.
Implicit Types (m : @mem T) (h : gmap loc (@node T)) (a b : loc) (p q : option loc)
  (l : list (loc * option T)) (es : list (loc * T)).

(** *** The protected [insert(node*, node* )] *)

Lemma insert_node_cells m this o l1 app vpp ap vp l2 P Q c n :
  objs m !! this = Some o →
  NoDup (l1 ++ (app, vpp) :: (ap, vp) :: l2).*1 →
  c ∉ (l1 ++ (app, vpp) :: (ap, vp) :: l2).*1 →
  nodes m !! c = Some n →
  seg (nodes m) P (l1 ++ (app, vpp) :: (ap, vp) :: l2) Q →
  ∃ m', insert_node this (Some ap) (Some c) m = Ok (Some c) m' ∧
    objs m' = <[this:=ListObj (head o) (tail o) (wrap (sz o + 1))]> (objs m) ∧
    seg (nodes m') P (l1 ++ (app, vpp) :: (c, val n) :: (ap, vp) :: l2) Q ∧
    (∀ a, a ≠ app → a ≠ ap → a ≠ c → nodes m' !! a = nodes m !! a).
Proof.
  intros Ho Hnd Hc Hn Hs.
  destruct (seg_lookup2 _ _ _ _ _ _ _ Hs) as [Hpp Hp]. simpl in Hpp, Hp.
  rewrite fmap_app in Hc. simpl in Hc.
  apply not_elem_of_app in Hc as [Hc1 Hc2].
  apply not_elem_of_cons in Hc2 as [? Hc2]. apply not_elem_of_cons in Hc2 as [? Hc2].
  assert (app ≠ ap).
  { rewrite fmap_app in Hnd. apply NoDup_app in Hnd as (_ & _ & Hnd).
    simpl in Hnd. apply NoDup_cons in Hnd. set_solver. }
  eexists. split.
  { unfold insert_node. repeat step. rewrite is_null_Some. repeat step. reflexivity. }
  red_fields. split; [done|]. split.
  - apply seg_app in Hs as [Hs1 Hs2]. simpl in Hs2. destruct Hs2 as (_ & _ & Hs2).
    apply seg_app. split.
    + eapply seg_frame; [|exact Hs1]. intros a Ha.
      rewrite fmap_app in Hnd. apply NoDup_app in Hnd as (_ & Hnd & _).
      specialize (Hnd a Ha). simpl in Hnd.
      assert (a ≠ c) by (intros ->; done).
      rewrite !lookup_insert_ne by set_solver. done.
    + simpl. split_and!.
      * solve_lookup.
      * solve_lookup.
      * solve_lookup.
      * eapply seg_frame; [|exact Hs2]. intros a Ha.
        assert (a ≠ c) by (intros ->; done).
        rewrite fmap_app in Hnd. apply NoDup_app in Hnd as (_ & _ & Hnd). simpl in Hnd.
        rewrite !NoDup_cons in Hnd.
        rewrite !lookup_insert_ne by set_solver. done.
  - intros a ? ? ?. rewrite !lookup_insert_ne by done. done.
Qed.

Lemma insert_node_spec m this hd tl es1 es2 c n x :
  is_list m this hd tl (es1 ++ es2) →
  (Z.of_nat (length (es1 ++ es2)) + 1 < size_max)%Z →
  nodes m !! c = Some n → val n = Some x →
  c ∉ (chain hd (es1 ++ es2) tl).*1 →
  ∃ m', insert_node this (first_or (cells es2) (Some tl)) (Some c) m = Ok (Some c) m' ∧
    is_list m' this hd tl (es1 ++ (c, x) :: es2) ∧
    (∀ a, a ∉ (chain hd (es1 ++ es2) tl).*1 → a ≠ c → nodes m' !! a = nodes m !! a).
Proof.
  intros (Ho & Hlt & Hnd & Hs) Hsz Hn Hv Hnotin.
  destruct (pre_snoc hd es1) as (l1 & app & vpp & E1).
  destruct (post_cons es2 tl) as (ap & vp & l2 & E2 & ->).
  assert (Ech : chain hd (es1 ++ es2) tl = l1 ++ (app, vpp) :: (ap, vp) :: l2).
  { by rewrite chain_app, E1, E2, <-app_assoc. }
  assert (Ech' : chain hd (es1 ++ (c, x) :: es2) tl
                 = l1 ++ (app, vpp) :: (c, Some x) :: (ap, vp) :: l2).
  { rewrite chain_app, E1. simpl. by rewrite E2, <-app_assoc. }
  rewrite Ech in *.
  destruct (insert_node_cells m this _ l1 app vpp ap vp l2 None None c n Ho Hnd Hnotin Hn Hs)
    as (m' & Hrun & Hobjs & Hs' & Hfr).
  rewrite Hv in Hs'.
  exists m'. split; [done|]. split.
  - unfold is_list. rewrite Ech', Hobjs. split_and!.
    + rewrite lookup_insert_eq. simpl. do 2 f_equal.
      rewrite wrap_small by lia. rewrite !length_app. simpl. lia.
    + rewrite length_app in *. simpl in *. lia.
    + rewrite fmap_app in Hnd, Hnotin |- *. simpl in Hnd, Hnotin |- *.
      by apply NoDup_insert_mid.
    + done.
  - intros a Ha Hac. rewrite fmap_app in Ha. simpl in Ha. apply Hfr; [| |done].
    + intros ->. apply Ha. apply elem_of_app. right. left.
    + intros ->. apply Ha. apply elem_of_app. right. right. left.
Qed.

End insert_node.

Section uniq_twice.
Context {T : Type} (neqb : T → T → bool).
Implicit Types (es : list (loc * T)).

Lemma uniq_run_fixed x es :
  Sorted (λ e1 e2, neqb e1.2 e2.2 = true) es →
  (∀ e, hd_error es = Some e → neqb x e.2 = true) →
  uniq_run neqb x es = es.
Proof.
  revert x. induction es as [|e es IH]; intros x Hs Hhd; [done|].
  simpl. rewrite (Hhd e eq_refl). simpl. f_equal.
  apply Sorted_inv in Hs as [Hs Hhd']. apply IH; [done|].
  intros e' He'. destruct es as [|e'' es]; simplify_eq/=. by apply HdRel_inv in Hhd'.
Qed.

Lemma uniq_fixed es :
  Sorted (λ e1 e2, neqb e1.2 e2.2 = true) es → uniq neqb es = es.
Proof.
  destruct es as [|e es]; [done|]. intros Hs. simpl. f_equal.
  apply Sorted_inv in Hs as [Hs Hhd]. apply uniq_run_fixed; [done|].
  intros e' He'. destruct es as [|e'' es]; simplify_eq/=. by apply HdRel_inv in Hhd.
Qed.

Lemma uniq_idempotent es : uniq neqb (uniq neqb es) = uniq neqb es.
Proof. apply uniq_fixed, uniq_adjacent. Qed.

End uniq_twice.

Section exact.
Context {T : Type}.
Implicit Types (m : @mem T) (h : gmap loc (@node T)) (a b : loc) (p q : option loc)
  (l : list (loc * option T)) (es : list (loc * T)).

(** [insert] and [erase], with everything they leave alone said. *)
Lemma insert_exact m this hd tl es1 es2 x :
  is_list m this hd tl (es1 ++ es2) →
  (Z.of_nat (length (es1 ++ es2)) + 1 < size_max)%Z →
  let nd := fresh (dom (nodes m)) in
  ∃ m', insert this (Iterator (first_or (cells es2) (Some tl)) (Some this)) x m
        = Ok (Iterator (Some nd) (Some this)) m' ∧
    is_list m' this hd tl (es1 ++ (nd, x) :: es2) ∧
    nodes m !! nd = None ∧
    (∀ a, a ∉ (chain hd (es1 ++ es2) tl).*1 → a ≠ nd → nodes m' !! a = nodes m !! a) ∧
    (∀ o : loc, o ≠ this → objs m' !! o = objs m !! o).
Proof.
  intros Hl Hsz nd.
  destruct (insert_spec m this hd tl es1 es2 x Hl Hsz) as (m' & Hrun & Hl' & [_ Hfo] & Hfresh).
  fold nd in Hrun, Hl', Hfresh.
  exists m'. split; [done|]. split; [done|]. split; [done|]. split; [|done].
  destruct Hl as (Ho & Hlt & Hnd & Hs).
  destruct (pre_snoc hd es1) as (l1 & app & vpp & E1).
  destruct (post_cons es2 tl) as (ap & vp & l2 & E2 & Efirst).
  assert (Ech : chain hd (es1 ++ es2) tl = l1 ++ (app, vpp) :: (ap, vp) :: l2).
  { by rewrite chain_app, E1, E2, <-app_assoc. }
  rewrite Ech in *. rewrite Efirst in Hrun.
  destruct (insert_cells m this _ l1 app vpp ap vp l2 None None x Ho Hnd Hs)
    as (m1 & Hrun1 & _ & _ & Hfr).
  fold nd in Hrun1, Hfr. rewrite Hrun in Hrun1. injection Hrun1 as <-.
  intros a Ha Hne. rewrite fmap_app in Ha. simpl in Ha. apply Hfr; [| |done].
  - intros ->. apply Ha. apply elem_of_app. right. left.
  - intros ->. apply Ha. apply elem_of_app. right. right. left.
Qed.

Lemma erase_exact m this hd tl es1 a x es2 :
  is_list m this hd tl (es1 ++ (a, x) :: es2) →
  ∃ m', erase this (Iterator (Some a) (Some this)) m
        = Ok (Iterator (first_or (cells es2) (Some tl)) (Some this)) m' ∧
    is_list m' this hd tl (es1 ++ es2) ∧
    nodes m' !! a = None ∧
    (∀ b, b ∉ (chain hd (es1 ++ (a, x) :: es2) tl).*1 → nodes m' !! b = nodes m !! b) ∧
    (∀ o : loc, o ≠ this → objs m' !! o = objs m !! o).
Proof.
  intros Hl.
  destruct (unlink_spec (λ nxt, ret (Iterator nxt (Some this))) m this hd tl es1 a x es2 Hl)
    as (m' & Hrun & Hl' & Hgone & [Hfn Hfo] & Hna).
  exists m'. split; [|split; [done|split; [done|split; [|done]]]].
  - pose proof (is_list_obj _ _ _ _ _ Hl) as Ho.
    pose proof (is_list_elem _ _ _ _ _ _ _ _ Hl) as Ha.
    destruct (is_list_elem_ne _ _ _ _ _ a Hl) as [_ ?]; [rewrite fmap_app; set_solver|].
    unfold erase. red_fields.
    rewrite ptr_eq_refl, is_null_Some. cbn [negb].
    step. rewrite length_app. simpl.
    rewrite (proj2 (Z.eqb_neq _ _)) by lia.
    step. rewrite ptr_eq_Some_ne by done.
    step. rewrite bool_decide_false by done.
    exact Hrun.
  - intros b Hb. destruct (nodes m !! b) as [n|] eqn:E.
    + rewrite <-E. apply Hfn; [done|]. by rewrite E.
    + by apply Hna.
Qed.

Lemma insert_erase_restores m this hd tl es1 es2 x :
  is_list m this hd tl (es1 ++ es2) →
  (Z.of_nat (length (es1 ++ es2)) + 1 < size_max)%Z →
  let pos := Iterator (first_or (cells es2) (Some tl)) (Some this) in
  bind (insert this pos x) (erase this) m = Ok pos m.
Proof.
  intros Hl Hsz pos.
  destruct (insert_exact m this hd tl es1 es2 x Hl Hsz)
    as (m1 & Hins & Hl1 & Hfresh & Hout1 & Hobj1).
  destruct (erase_exact m1 this hd tl es1 _ x es2 Hl1)
    as (m2 & Her & Hl2 & Hgone & Hout2 & Hobj2).
  rewrite (bind_Ok _ _ _ _ _ Hins), Her. f_equal.
  rewrite <-(mem_eta m2), <-(mem_eta m). f_equal; apply map_eq.
  - intros a. destruct (decide (a ∈ (chain hd (es1 ++ es2) tl).*1)) as [Hin|Hnin].
    + destruct Hl2 as (_ & _ & _ & Hs2), Hl as (_ & _ & _ & Hs).
      by apply (seg_agree _ _ _ _ _ _ Hs2 Hs).
    + destruct (decide (a = fresh (dom (nodes m)))) as [->|Hne].
      * by rewrite Hgone, Hfresh.
      * rewrite Hout2, Hout1; [done..|].
        rewrite chain_fst, fmap_app in Hnin. rewrite chain_fst, fmap_app, fmap_cons.
        cbn [fst].
        intros Hin. apply Hnin.
        apply elem_of_cons in Hin as [->|Hin]; [by left|]. right.
        rewrite <-app_assoc in Hin. rewrite <-app_assoc.
        apply elem_of_app in Hin as [Hin|Hin]; [apply elem_of_app; by left|].
        apply elem_of_cons in Hin as [->|Hin]; [done|].
        apply elem_of_app. by right.
  - intros o. destruct (decide (o = this)) as [->|Hne].
    + by rewrite (is_list_obj _ _ _ _ _ Hl2), (is_list_obj _ _ _ _ _ Hl).
    + by rewrite Hobj2, Hobj1.
Qed.

End exact.

Section push_pop.
Context {T : Type}.
Implicit Types (m : @mem T) (a b : loc) (es : list (loc * T)).

Lemma push_pop_back_restores m this hd tl es x :
  is_list m this hd tl es →
  (Z.of_nat (length es) + 1 < size_max)%Z →
  bind (push_back this x) (λ _, pop_back this) m = Ok tt m.
Proof.
  intros Hl Hsz.
  assert (Hl0 : is_list m this hd tl (es ++ [])) by by rewrite app_nil_r.
  assert (Hsz0 : (Z.of_nat (length (es ++ [])) + 1 < size_max)%Z) by by rewrite app_nil_r.
  pose proof (insert_erase_restores m this hd tl es [] x Hl0 Hsz0) as Hrt.
  destruct (insert_exact m this hd tl es [] x Hl0 Hsz0) as (m1 & Hins & Hl1 & _).
  cbn [cells fmap list_fmap first_or] in Hrt, Hins.
  rewrite (bind_Ok _ _ _ _ _ Hins) in Hrt.
  pose proof (is_list_obj _ _ _ _ _ Hl1) as Ho1.
  pose proof (is_list_tl _ _ _ _ _ Hl1) as Ht1.
  rewrite cells_app, last_or_app in Ht1. cbn in Ht1.
  assert (Hpush : push_back this x m = Ok tt m1).
  { unfold push_back. rewrite (bind_Ok _ _ _ _ _ (end_spec _ _ _ _ _ Hl)).
    by rewrite (bind_Ok _ _ _ _ _ Hins). }
  rewrite (bind_Ok _ _ _ _ _ Hpush).
  unfold pop_back. step. rewrite length_app.
  rewrite (proj2 (Z.eqb_neq _ _)) by (simpl; lia).
  repeat step. by rewrite (bind_Ok _ _ _ _ _ Hrt).
Qed.

Lemma push_pop_front_restores m this hd tl es x :
  is_list m this hd tl es →
  (Z.of_nat (length es) + 1 < size_max)%Z →
  bind (push_front this x) (λ _, pop_front this) m = Ok tt m.
Proof.
  intros Hl Hsz.
  pose proof (insert_erase_restores m this hd tl [] es x Hl Hsz) as Hrt.
  destruct (insert_exact m this hd tl [] es x Hl Hsz) as (m1 & Hins & Hl1 & _).
  cbv zeta in Hrt. rewrite (bind_Ok _ _ _ _ _ Hins) in Hrt.
  pose proof (is_list_obj _ _ _ _ _ Hl1) as Ho1.
  pose proof (is_list_hd _ _ _ _ _ Hl1) as Hh1.
  cbn in Hh1.
  assert (Hpush : push_front this x m = Ok tt m1).
  { unfold push_front. rewrite (bind_Ok _ _ _ _ _ (begin_spec _ _ _ _ _ Hl)).
    by rewrite (bind_Ok _ _ _ _ _ Hins). }
  rewrite (bind_Ok _ _ _ _ _ Hpush).
  unfold pop_front. step.
  rewrite (proj2 (Z.eqb_neq _ _)) by (cbn [app length]; lia).
  repeat step. by rewrite (bind_Ok _ _ _ _ _ Hrt).
Qed.

End push_pop.

Section read_only.
Context {T : Type}.

Ltac read_only_run :=
  intros m;
  unfold front, back, begin_, cbegin, end_, cend, empty, size,
    const_iterator_pre_inc, const_iterator_post_inc, const_iterator_pre_dec,
    const_iterator_post_dec, const_iterator_deref, const_iterator_arrow,
    iterator_pre_inc, iterator_post_inc, iterator_pre_dec, iterator_post_dec,
    iterator_deref, iterator_arrow,
    get_head, get_tail, get_sz, get_prev, get_next, get_val, deref_val,
    load, load_obj, bind, ret, throw, fault;
  repeat (case_match; simplify_eq/=; try done).

Lemma list_observers_read_only this :
  read_only (T:=T) (front this) ∧ read_only (T:=T) (back this) ∧
  read_only (T:=T) (begin_ this) ∧ read_only (T:=T) (cbegin this) ∧
  read_only (T:=T) (end_ this) ∧ read_only (T:=T) (cend this) ∧
  read_only (T:=T) (empty this) ∧ read_only (T:=T) (size this).
Proof. split_and!; read_only_run. Qed.

Lemma iterator_ops_read_only (it : iterator) :
  read_only (T:=T) (iterator_pre_inc it) ∧ read_only (T:=T) (iterator_post_inc it) ∧
  read_only (T:=T) (iterator_pre_dec it) ∧ read_only (T:=T) (iterator_post_dec it) ∧
  read_only (T:=T) (iterator_deref it) ∧ read_only (T:=T) (iterator_arrow it).
Proof. destruct it as [c o]. split_and!; read_only_run. Qed.

Lemma const_iterator_ops_read_only (it : const_iterator) :
  read_only (T:=T) (const_iterator_pre_inc it) ∧
  read_only (T:=T) (const_iterator_post_inc it) ∧
  read_only (T:=T) (const_iterator_pre_dec it) ∧
  read_only (T:=T) (const_iterator_post_dec it) ∧
  read_only (T:=T) (const_iterator_deref it) ∧
  read_only (T:=T) (const_iterator_arrow it).
Proof. destruct it as [c o]. split_and!; read_only_run. Qed.

End read_only.

Section interleave.
Context {T : Type} (ltb : T → T → bool).
Implicit Types (A B : list (loc * T)).

Lemma merged_sublist_l A B : A `sublist_of` merged ltb A B.
Proof.
  revert B. induction A as [|a A IHA]; intros B.
  { apply sublist_nil_l. }
  induction B as [|b B IHB].
  { by rewrite merged_nil_r. }
  rewrite merged_cons. destruct (ltb b.2 a.2).
  - by apply sublist_cons.
  - apply sublist_skip, IHA.
Qed.

Lemma merged_sublist_r A B : B `sublist_of` merged ltb A B.
Proof.
  revert B. induction A as [|a A IHA]; intros B.
  { by rewrite merged_nil_l. }
  induction B as [|b B IHB].
  { apply sublist_nil_l. }
  rewrite merged_cons. destruct (ltb b.2 a.2).
  - by apply sublist_skip.
  - apply sublist_cons, IHA.
Qed.

Lemma merged_length A B : length (merged ltb A B) = length A + length B.
Proof. by rewrite merged_perm, length_app. Qed.

End interleave.

(** * Further properties of the class *)

(** X1: [front()] and [back()] return the value of the first and of the last
    element and change nothing; on a list without elements both throw
    [container_is_empty]. *)
Theorem front_back_access {T : Type} (m : @mem T) this hd tl es :
  is_list m this hd tl es →
  (es = [] → front this m = Throw container_is_empty m ∧
             back this m = Throw container_is_empty m) ∧
  (∀ a x es', es = (a, x) :: es' → front this m = Ok x m) ∧
  (∀ es' a x, es = es' ++ [(a, x)] → back this m = Ok x m).
Proof.
  intros Hl. split_and!.
  - intros ->. by apply (front_back_empty m this hd tl).
  - intros a x es' ->. by apply (front_elem m this hd tl a x es').
  - intros es' a x ->. by apply (back_elem m this hd tl es' a x).
Qed.

Lemma front_back_access_example :
  let m := exec (build 1 [1; 3; 5]%Z) mem0 in
  front 1 m = Ok 1%Z m ∧ back 1 m = Ok 5%Z m.
Proof.
  intros m.
  destruct (front_back_access m 1 1 2 _ build_135) as (_ & Hf & Hb).
  split.
  - exact (Hf 3%positive 1%Z (zip [4; 5]%positive [3; 5]%Z) eq_refl).
  - exact (Hb (zip [3; 4]%positive [1; 3]%Z) 5%positive 5%Z eq_refl).
Defined.

(** X2: [begin()] and [cbegin()] reference the first element, or the tail
    sentinel when there is none; [end()] and [cend()] reference the tail
    sentinel; [size()] is the number of elements and [empty()] says whether
    it is zero, which is exactly when [begin() == end()]. *)
Theorem begin_end_positions {T : Type} (m : @mem T) this hd tl es :
  is_list m this hd tl es →
  begin_ this m = Ok (Iterator (first_or (cells es) (Some tl)) (Some this)) m ∧
  cbegin this m = Ok (ConstIterator (first_or (cells es) (Some tl)) (Some this)) m ∧
  end_ this m = Ok (Iterator (Some tl) (Some this)) m ∧
  cend this m = Ok (ConstIterator (Some tl) (Some this)) m ∧
  size this m = Ok (Z.of_nat (length es)) m ∧
  empty this m = Ok (bool_decide (es = [])) m ∧
  (iterator_eq (Iterator (first_or (cells es) (Some tl)) (Some this))
               (Iterator (Some tl) (Some this)) = true ↔ es = []) ∧
  (∀ a x es', es = (a, x) :: es' → first_or (cells es) (Some tl) = Some a).
Proof.
  intros Hl. split_and!.
  - by apply (begin_spec m this hd tl).
  - by apply (cbegin_spec m this hd tl).
  - by apply (end_spec m this hd tl es).
  - by apply (cend_spec m this hd tl es).
  - by apply (size_spec m this hd tl).
  - by apply (empty_spec m this hd tl).
  - unfold iterator_eq, ptr_eq. cbn [cur]. rewrite bool_decide_eq_true.
    by apply (first_or_tl_iff m this hd).
  - by intros a x es' ->.
Qed.

Lemma begin_end_positions_example :
  let m := exec (build 1 [1; 3; 5]%Z) mem0 in
  begin_ 1 m = Ok (Iterator (Some 3%positive) (Some 1%positive)) m ∧
  end_ 1 m = Ok (Iterator (Some 2%positive) (Some 1%positive)) m ∧
  empty 1 m = Ok false m.
Proof.
  intros m.
  destruct (begin_end_positions m 1 1 2 _ build_135) as (H1 & _ & H2 & _ & _ & H3 & _).
  split; [exact H1|]. split; [exact H2|exact H3].
Defined.

(** X3: increment, pre and post, of an iterator at an element moves it to the
    next element, or to the tail sentinel after the last one, and changes no
    memory; increment of [end()] and of an iterator without node or without
    owner throws [invalid_iterator]. *)
Theorem increment_steps_forward {T : Type} (m : @mem T) this hd tl es :
  is_list m this hd tl es →
  (∀ es1 a x es2, es = es1 ++ (a, x) :: es2 →
     iterator_pre_inc (Iterator (Some a) (Some this)) m
       = Ok (Iterator (first_or (cells es2) (Some tl)) (Some this)) m ∧
     iterator_post_inc (Iterator (Some a) (Some this)) m
       = Ok (Iterator (Some a) (Some this),
             Iterator (first_or (cells es2) (Some tl)) (Some this)) m) ∧
  iterator_pre_inc (Iterator (Some tl) (Some this)) m = Throw invalid_iterator m ∧
  iterator_post_inc (Iterator (Some tl) (Some this)) m = Throw invalid_iterator m ∧
  (∀ c o, c = None ∨ o = None →
     iterator_pre_inc (Iterator c o) m = Throw invalid_iterator m ∧
     iterator_post_inc (Iterator c o) m = Throw invalid_iterator m).
Proof.
  intros Hl. split_and!.
  - intros es1 a x es2 ->. split.
    + exact (iterator_pre_inc_elem m this hd tl es1 a x es2 Hl).
    + exact (iterator_post_inc_elem m this hd tl es1 a x es2 Hl).
  - by apply (iterator_inc_end m this hd tl es).
  - by apply (iterator_inc_end m this hd tl es).
  - intros c o. apply iterator_inc_unattached.
Qed.

Lemma increment_steps_forward_example :
  let m := exec (build 1 [1; 3; 5]%Z) mem0 in
  iterator_pre_inc (Iterator (Some 4%positive) (Some 1%positive)) m
    = Ok (Iterator (Some 5%positive) (Some 1%positive)) m ∧
  iterator_pre_inc (Iterator (Some 5%positive) (Some 1%positive)) m
    = Ok (Iterator (Some 2%positive) (Some 1%positive)) m.
Proof.
  intros m.
  destruct (increment_steps_forward m 1 1 2 _ build_135) as (H & _).
  split.
  - exact (proj1 (H (zip [3]%positive [1]%Z) 4%positive 3%Z
                    (zip [5]%positive [5]%Z) eq_refl)).
  - exact (proj1 (H (zip [3; 4]%positive [1; 3]%Z) 5%positive 5%Z [] eq_refl)).
Defined.

(** X4: decrement, pre and post, of an iterator at an element that has a
    predecessor moves it to that predecessor and changes no memory. *)
Theorem decrement_steps_back {T : Type} (m : @mem T) this hd tl es1 b y a x es2 :
  is_list m this hd tl (es1 ++ (b, y) :: (a, x) :: es2) →
  iterator_pre_dec (Iterator (Some a) (Some this)) m
    = Ok (Iterator (Some b) (Some this)) m ∧
  iterator_post_dec (Iterator (Some a) (Some this)) m
    = Ok (Iterator (Some a) (Some this), Iterator (Some b) (Some this)) m.
Proof. apply iterator_dec_elem. Qed.

Lemma decrement_steps_back_example :
  let m := exec (build 1 [1; 3; 5]%Z) mem0 in
  iterator_pre_dec (Iterator (Some 5%positive) (Some 1%positive)) m
    = Ok (Iterator (Some 4%positive) (Some 1%positive)) m.
Proof.
  intros m.
  exact (proj1 (decrement_steps_back m 1 1 2 (zip [3]%positive [1]%Z)
                  4%positive 3%Z 5%positive 5%Z [] build_135)).
Defined.

(** X5: [*it] and [it->] give the value of the element that [it] references
    and change no memory; on [end()], on the head sentinel and on an iterator
    without node or without owner they throw [invalid_iterator]. *)
Theorem dereference_contract {T : Type} (m : @mem T) this hd tl es :
  is_list m this hd tl es →
  (∀ es1 a x es2, es = es1 ++ (a, x) :: es2 →
     iterator_deref (Iterator (Some a) (Some this)) m = Ok x m ∧
     iterator_arrow (Iterator (Some a) (Some this)) m = Ok (Some x) m) ∧
  iterator_deref (Iterator (Some tl) (Some this)) m = Throw invalid_iterator m ∧
  iterator_deref (Iterator (Some hd) (Some this)) m = Throw invalid_iterator m ∧
  iterator_arrow (Iterator (Some tl) (Some this)) m = Throw invalid_iterator m ∧
  iterator_arrow (Iterator (Some hd) (Some this)) m = Throw invalid_iterator m ∧
  (∀ c o, c = None ∨ o = None →
     iterator_deref (Iterator c o) m = Throw invalid_iterator m ∧
     iterator_arrow (Iterator c o) m = Throw invalid_iterator m).
Proof.
  intros Hl.
  destruct (iterator_deref_sentinel m this hd tl es Hl) as (H1 & H2 & H3 & H4).
  split_and!; try done.
  - intros es1 a x es2 ->. split.
    + exact (iterator_deref_elem m this hd tl es1 a x es2 Hl).
    + exact (iterator_arrow_elem m this hd tl es1 a x es2 Hl).
  - intros c o. apply iterator_deref_unattached.
Qed.

Lemma dereference_contract_example :
  let m := exec (build 1 [1; 3; 5]%Z) mem0 in
  iterator_deref (Iterator (Some 4%positive) (Some 1%positive)) m = Ok 3%Z m ∧
  iterator_deref (Iterator (Some 2%positive) (Some 1%positive)) m
    = Throw invalid_iterator m.
Proof.
  intros m.
  destruct (dereference_contract m 1 1 2 _ build_135) as (H & He & _).
  split; [|exact He].
  exact (proj1 (H (zip [3]%positive [1]%Z) 4%positive 3%Z
                  (zip [5]%positive [5]%Z) eq_refl)).
Defined.

(** X6: stepping forward and then back, or back and then forward, returns to
    the same position: [--(++it)] is [it] for an iterator at any element, and
    [++(--it)] is [it] for an iterator at an element that has a predecessor
    and for [end()] of a list that is not empty. *)
Theorem increment_decrement_inverse {T : Type} (m : @mem T) this hd tl es :
  is_list m this hd tl es →
  (∀ es1 a x es2, es = es1 ++ (a, x) :: es2 →
     bind (iterator_pre_inc (Iterator (Some a) (Some this))) iterator_pre_dec m
     = Ok (Iterator (Some a) (Some this)) m) ∧
  (∀ es1 b y a x es2, es = es1 ++ (b, y) :: (a, x) :: es2 →
     bind (iterator_pre_dec (Iterator (Some a) (Some this))) iterator_pre_inc m
     = Ok (Iterator (Some a) (Some this)) m) ∧
  (∀ es1 a x, es = es1 ++ [(a, x)] →
     bind (iterator_pre_dec (Iterator (Some tl) (Some this))) iterator_pre_inc m
     = Ok (Iterator (Some tl) (Some this)) m).
Proof.
  intros Hl. destruct (@iterator_pre_dec_contract T) as [Hdec _].
  split_and!.
  - intros es1 a x es2 ->.
    rewrite (bind_Ok _ _ _ _ _ (iterator_pre_inc_elem _ _ _ _ _ _ _ _ Hl)).
    destruct es2 as [|[b y] es2].
    + destruct (Hdec m this hd tl _ Hl) as (H & _). by apply (H es1 a x).
    + by apply (iterator_dec_elem m this hd tl es1 a x b y es2).
  - intros es1 b y a x es2 ->.
    rewrite (bind_Ok _ _ _ _ _ (proj1 (iterator_dec_elem _ _ _ _ _ _ _ _ _ _ Hl))).
    exact (iterator_pre_inc_elem m this hd tl es1 b y ((a, x) :: es2) Hl).
  - intros es1 a x ->.
    destruct (Hdec m this hd tl _ Hl) as (H & _).
    rewrite (bind_Ok _ _ _ _ _ (H es1 a x eq_refl)).
    exact (iterator_pre_inc_elem m this hd tl es1 a x [] Hl).
Qed.

Lemma increment_decrement_inverse_example :
  let m := exec (build 1 [1; 3; 5]%Z) mem0 in
  bind (iterator_pre_inc (Iterator (Some 5%positive) (Some 1%positive)))
       iterator_pre_dec m
  = Ok (Iterator (Some 5%positive) (Some 1%positive)) m.
Proof.
  intros m.
  destruct (increment_decrement_inverse m 1 1 2 _ build_135) as (H & _).
  exact (H (zip [3; 4]%positive [1; 3]%Z) 5%positive 5%Z [] eq_refl).
Defined.

(** X7: [const_iterator] behaves as [iterator] does: converting an iterator
    and then incrementing, decrementing or dereferencing it gives what the
    same operation on the iterator gives, converted, in every memory, failures
    included; and [cbegin()] and [cend()] are [begin()] and [end()]
    converted. *)
Theorem const_iterator_mirrors_iterator {T : Type} (it : iterator) this (m : @mem T) :
  const_iterator_pre_inc (const_iterator_of it) m
    = bind (iterator_pre_inc it) (λ r, ret (const_iterator_of r)) m ∧
  const_iterator_post_inc (const_iterator_of it) m
    = bind (iterator_post_inc it)
        (λ r, ret (const_iterator_of r.1, const_iterator_of r.2)) m ∧
  const_iterator_pre_dec (const_iterator_of it) m
    = bind (iterator_pre_dec it) (λ r, ret (const_iterator_of r)) m ∧
  const_iterator_post_dec (const_iterator_of it) m
    = bind (iterator_post_dec it)
        (λ r, ret (const_iterator_of r.1, const_iterator_of r.2)) m ∧
  const_iterator_deref (const_iterator_of it) m = iterator_deref it m ∧
  const_iterator_arrow (const_iterator_of it) m = iterator_arrow it m ∧
  cbegin this m = bind (begin_ this) (λ r, ret (const_iterator_of r)) m ∧
  cend this m = bind (end_ this) (λ r, ret (const_iterator_of r)) m.
Proof.
  destruct (const_iterator_agrees it m) as (H1 & H2 & H3 & H4 & H5 & H6).
  destruct (const_begin_end_agree this m) as (H7 & H8).
  split_and!; done.
Qed.

(** X8: [clear()] returns and leaves the list empty between its two sentinels,
    which it keeps, with count zero; every element node is destroyed, and no
    other node and no other list object is touched. *)
Theorem clear_empties {T : Type} fuel (m : @mem T) this hd tl es :
  is_list m this hd tl es →
  length es < fuel →
  ∃ m', clear fuel this m = Ok tt m' ∧
    is_list m' this hd tl [] ∧
    size this m' = Ok 0%Z m' ∧
    (∀ a, a ∈ es.*1 → nodes m' !! a = None) ∧
    (∀ a, a ∉ (chain hd es tl).*1 → nodes m' !! a = nodes m !! a) ∧
    (∀ o : loc, o ≠ this → objs m' !! o = objs m !! o).
Proof.
  intros Hl Hf.
  destruct (clear_exact m this hd tl es fuel Hl Hf) as (m' & Hrun & Hl' & H1 & H2 & H3).
  exists m'. split_and!; try done. by apply (size_spec m' this hd tl []).
Qed.

Lemma clear_empties_example :
  let m := exec (build 1 [1; 3; 5]%Z) mem0 in
  ∃ m', clear 4 1 m = Ok tt m' ∧ is_list m' 1 1 2 [] ∧ size 1 m' = Ok 0%Z m'.
Proof.
  intros m.
  assert (Hf : length (zip [3; 4; 5]%positive [1; 3; 5]%Z) < 4) by (simpl; lia).
  destruct (clear_empties 4 m 1 1 2 _ build_135 Hf) as (m' & H1 & H2 & H3 & _).
  exists m'. split; [exact H1|]. split; [exact H2|exact H3].
Defined.

(** X9: the copy constructor returns a list that holds the values of the
    other list in the same order, in nodes of its own that did not exist
    before; the other list is left as it was, and a [push_back] on the copy
    does not change it. *)
Theorem copy_is_deep {T : Type} fuel (m : @mem T) this other ohd otl oes :
  this ≠ other →
  is_list m other ohd otl oes →
  length oes < fuel →
  ∃ m' hd tl es, list_copy_ctor fuel this other m = Ok tt m' ∧
    is_list m' this hd tl es ∧
    es.*2 = oes.*2 ∧
    is_list m' other ohd otl oes ∧
    (chain hd es tl).*1 ## (chain ohd oes otl).*1 ∧
    (∀ a, a ∈ (chain hd es tl).*1 → nodes m !! a = None) ∧
    (∀ x, (Z.of_nat (length oes) + 1 < size_max)%Z →
       ∃ m'', push_back this x m' = Ok tt m'' ∧
         (∃ es', is_list m'' this hd tl es' ∧ es'.*2 = oes.*2 ++ [x]) ∧
         is_list m'' other ohd otl oes).
Proof.
  intros Hne Ho Hf.
  destruct (list_copy_ctor_spec fuel m this other ohd otl oes Hne Ho Hf)
    as (m' & hd & tl & es & Hrun & Hl & Hv & Ho' & Hdisj & Hfresh & _).
  exists m', hd, tl, es. split_and!; try done.
  intros x Hsz.
  assert (Hlen : length es = length oes).
  { by rewrite <-(length_fmap snd es), Hv, length_fmap. }
  destruct (push_back_spec m' this hd tl es x Hl) as (m'' & Hrun' & Hl'' & Hfr & _).
  { by rewrite Hlen. }
  exists m''. split; [done|]. split.
  - eexists. split; [exact Hl''|]. by rewrite fmap_app, Hv.
  - apply (is_list_frame m' m'' (chain hd es tl).*1 this other ohd otl oes); try done.
    intros a Ha Ha'. by apply (Hdisj a).
Qed.

Lemma copy_is_deep_example :
  let m := exec (build 1 [1; 3; 5]%Z) mem0 in
  ∃ m' hd tl es, list_copy_ctor 4 2 1 m = Ok tt m' ∧
    is_list m' 2 hd tl es ∧ es.*2 = [1; 3; 5]%Z ∧
    is_list m' 1 1 2 (zip [3; 4; 5]%positive [1; 3; 5]%Z).
Proof.
  intros m.
  assert (Hne : 2%positive ≠ 1%positive) by discriminate.
  assert (Hf : length (zip [3; 4; 5]%positive [1; 3; 5]%Z) < 4) by (simpl; lia).
  destruct (copy_is_deep 4 m 2 1 1 2 _ Hne build_135 Hf)
    as (m' & hd & tl & es & H1 & H2 & H3 & H4 & _).
  exists m', hd, tl, es. split; [exact H1|]. split; [exact H2|].
  split; [exact H3|exact H4].
Defined.

(** X10: assignment from another list returns with this list holding the
    values of the other one in the same order, in nodes disjoint from it, and
    with the other list as it was; assignment of a list to itself changes
    nothing. *)
Theorem assignment_copies {T : Type} fuel (m : @mem T) this hd tl es other ohd otl oes :
  this ≠ other →
  is_list m this hd tl es →
  is_list m other ohd otl oes →
  (chain hd es tl).*1 ## (chain ohd oes otl).*1 →
  length es < fuel → length oes < fuel →
  (∃ m' es', assign fuel this other m = Ok tt m' ∧
     is_list m' this hd tl es' ∧
     es'.*2 = oes.*2 ∧
     is_list m' other ohd otl oes ∧
     (chain hd es' tl).*1 ## (chain ohd oes otl).*1) ∧
  assign fuel this this m = Ok tt m.
Proof.
  intros Hne Hl Ho Hd Hf Hf'. split.
  - apply (assign_spec fuel m this hd tl es other ohd otl oes); done.
  - apply assign_self.
Qed.

Lemma assignment_copies_example :
  let m := exec (build2 [1; 3; 5]%Z [2; 3; 4]%Z) mem0 in
  ∃ m' es', assign 4 1 2 m = Ok tt m' ∧
    is_list m' 1 1 2 es' ∧ es'.*2 = [2; 3; 4]%Z.
Proof.
  intros m.
  pose (A := zip [3; 4; 5]%positive [1; 3; 5]%Z).
  pose (B := zip [8; 9; 10]%positive [2; 3; 4]%Z).
  assert (HA : is_list m 1 1 2 A) by exact (proj1 build2_135_234).
  assert (HB : is_list m 2 6 7 B) by exact (proj2 build2_135_234).
  assert (Hne : 1%positive ≠ 2%positive) by discriminate.
  assert (Hdisj : (chain 1 A 2).*1 ## (chain 6 B 7).*1).
  { assert (Hnd : NoDup ((chain 1 A 2).*1 ++ (chain 6 B 7).*1)).
    { apply (bool_decide_unpack _). vm_compute. exact I. }
    apply NoDup_app in Hnd as (_ & Hd & _). exact Hd. }
  assert (Hf : length A < 4) by (simpl; lia).
  assert (Hf' : length B < 4) by (simpl; lia).
  destruct (assignment_copies 4 m 1 1 2 A 2 6 7 B Hne HA HB Hdisj Hf Hf')
    as [(m' & es' & H1 & H2 & H3 & _) _].
  exists m', es'. split; [exact H1|]. split; [exact H2|exact H3].
Defined.

(** X11: the destructor returns with every node of the list destroyed, the
    two sentinels included, and the list object gone; no other node and no
    other list object is touched. *)
Theorem destructor_releases {T : Type} fuel (m : @mem T) this hd tl es :
  is_list m this hd tl es →
  length es < fuel →
  ∃ m', list_dtor fuel this m = Ok tt m' ∧
    (∀ a, a ∈ (chain hd es tl).*1 → nodes m' !! a = None) ∧
    (∀ a, a ∉ (chain hd es tl).*1 → nodes m' !! a = nodes m !! a) ∧
    objs m' !! this = None ∧
    (∀ o : loc, o ≠ this → objs m' !! o = objs m !! o).
Proof. apply list_dtor_spec. Qed.

Lemma destructor_releases_example :
  let m := exec (build 1 [1; 3; 5]%Z) mem0 in
  ∃ m', list_dtor 4 1 m = Ok tt m' ∧
    nodes m' !! 1%positive = None ∧ nodes m' !! 4%positive = None ∧
    objs m' !! 1%positive = None.
Proof.
  intros m.
  assert (Hf : length (zip [3; 4; 5]%positive [1; 3; 5]%Z) < 4) by (simpl; lia).
  destruct (destructor_releases 4 m 1 1 2 _ build_135 Hf) as (m' & H1 & H2 & _ & H3 & _).
  exists m'. split; [exact H1|]. split; [|split; [|exact H3]].
  - apply H2. apply (bool_decide_unpack _). vm_compute. exact I.
  - apply H2. apply (bool_decide_unpack _). vm_compute. exact I.
Defined.

(** X12: when [operator<] is a strict weak order and [sjtu::sort] returns its
    range permuted and in ascending order for such a comparator, [sort()]
    returns with the same nodes holding the same values, relinked in
    ascending order; the list object and every node outside the chain are
    untouched, and a list of at most one element is not touched at all. *)
Theorem sort_ascending {T : Type} (ltb : T → T → bool)
    (ext_sort : ∀ A : Type, (A → A → bool) → list A → list A)
    fuel (m : @mem T) this hd tl es :
  (∀ (A : Type) (cmp : A → A → bool) (l : list A), ext_sort A cmp l ≡ₚ l) →
  (∀ (A : Type) (cmp : A → A → bool) (l : list A),
     (∀ x y, x ∈ l → y ∈ l → cmp x y = true → cmp y x = false) →
     (∀ x y z, x ∈ l → y ∈ l → z ∈ l →
        cmp x y = true → cmp x z = true ∨ cmp z y = true) →
     Sorted (λ x y, cmp y x = false) (ext_sort A cmp l)) →
  (∀ x y, ltb x y = true → ltb y x = false) →
  (∀ x y z, ltb x y = true → ltb x z = true ∨ ltb z y = true) →
  is_list m this hd tl es →
  length es < fuel →
  ∃ m' es', sort ltb ext_sort fuel this m = Ok tt m' ∧
    is_list m' this hd tl es' ∧
    es' ≡ₚ es ∧
    ascending ltb es'.*2 ∧
    objs m' = objs m ∧
    (∀ d, d ∉ (chain hd es tl).*1 → nodes m' !! d = nodes m !! d) ∧
    (length es ≤ 1 → m' = m).
Proof.
  intros Hperm Hsorted Hasym Hneg Hl Hf.
  by apply sort_sorted_spec.
Qed.

Lemma sort_ascending_example :
  let m := exec (build 1 [3; 1; 2]%Z) mem0 in
  ∃ m' es', sort Z.ltb insertion_sort 4 1 m = Ok tt m' ∧
    is_list m' 1 1 2 es' ∧
    es' ≡ₚ zip [3; 4; 5]%positive [3; 1; 2]%Z ∧
    ascending Z.ltb es'.*2.
Proof.
  intros m.
  assert (Hl : is_list m 1 1 2 (zip [3; 4; 5]%positive [3; 1; 2]%Z)) by list_by_compute.
  assert (Hf : length (zip [3; 4; 5]%positive [3; 1; 2]%Z) < 4) by (simpl; lia).
  destruct (sort_ascending Z.ltb insertion_sort 4 m 1 1 2 _
              insertion_sort_perm insertion_sort_sorted Z_ltb_asym Z_ltb_negtrans Hl Hf)
    as (m' & es' & H1 & H2 & H3 & H4 & _).
  exists m', es'. split; [exact H1|]. split; [exact H2|]. split; [exact H3|exact H4].
Defined.

(** X13: [erase] of the iterator that [insert] has just returned undoes the
    insertion: both calls return, the second returns the position that was
    given to the first, and the memory is again what it was before, node for
    node and count included. *)
Theorem erase_undoes_insert {T : Type} (m : @mem T) this hd tl es1 es2 x :
  is_list m this hd tl (es1 ++ es2) →
  (Z.of_nat (length (es1 ++ es2)) + 1 < size_max)%Z →
  bind (insert this (Iterator (first_or (cells es2) (Some tl)) (Some this)) x)
       (erase this) m
  = Ok (Iterator (first_or (cells es2) (Some tl)) (Some this)) m.
Proof. apply insert_erase_restores. Qed.

Lemma erase_undoes_insert_example :
  let m := exec (build 1 [1; 3; 5]%Z) mem0 in
  bind (insert 1 (Iterator (Some 4%positive) (Some 1%positive)) 2%Z) (erase 1) m
  = Ok (Iterator (Some 4%positive) (Some 1%positive)) m.
Proof.
  intros m.
  assert (Hsz : (Z.of_nat (length (zip [3]%positive [1]%Z
                   ++ zip [4; 5]%positive [3; 5]%Z)) + 1 < size_max)%Z)
    by reflexivity.
  exact (erase_undoes_insert m 1 1 2 (zip [3]%positive [1]%Z)
           (zip [4; 5]%positive [3; 5]%Z) 2%Z build_135 Hsz).
Defined.

(** X14: [push_front] and [push_back] return with the new value first and
    last, where [front()] and [back()] then find it; [pop_front] and
    [pop_back] remove and destroy the first and the last element, and throw
    [container_is_empty] on a list without elements; a [pop] at the end of
    the [push] before it restores the memory exactly. *)
Theorem push_pop_at_ends {T : Type} (m : @mem T) this hd tl es :
  is_list m this hd tl es →
  (∀ x, (Z.of_nat (length es) + 1 < size_max)%Z →
     let nd := fresh (dom (nodes m)) in
     (∃ m', push_front this x m = Ok tt m' ∧
        is_list m' this hd tl ((nd, x) :: es) ∧ front this m' = Ok x m') ∧
     (∃ m', push_back this x m = Ok tt m' ∧
        is_list m' this hd tl (es ++ [(nd, x)]) ∧ back this m' = Ok x m') ∧
     bind (push_front this x) (λ _, pop_front this) m = Ok tt m ∧
     bind (push_back this x) (λ _, pop_back this) m = Ok tt m) ∧
  (∀ a x es', es = (a, x) :: es' →
     ∃ m', pop_front this m = Ok tt m' ∧ is_list m' this hd tl es' ∧
       nodes m' !! a = None) ∧
  (∀ es' a x, es = es' ++ [(a, x)] →
     ∃ m', pop_back this m = Ok tt m' ∧ is_list m' this hd tl es' ∧
       nodes m' !! a = None) ∧
  (es = [] → pop_front this m = Throw container_is_empty m ∧
             pop_back this m = Throw container_is_empty m).
Proof.
  intros Hl. split_and!.
  - intros x Hsz nd. split_and!.
    + destruct (push_front_spec m this hd tl es x Hl Hsz) as (m' & Hrun & Hl' & _).
      exists m'. split; [done|]. split; [done|].
      exact (front_elem m' this hd tl nd x es Hl').
    + destruct (push_back_spec m this hd tl es x Hl Hsz) as (m' & Hrun & Hl' & _).
      exists m'. split; [done|]. split; [done|].
      exact (back_elem m' this hd tl es nd x Hl').
    + by apply (push_pop_front_restores m this hd tl es).
    + by apply (push_pop_back_restores m this hd tl es).
  - intros a x es' ->.
    destruct (pop_front_spec m this hd tl es' a x Hl) as (m' & ? & ? & ? & _).
    by exists m'.
  - intros es' a x ->.
    destruct (pop_back_spec m this hd tl es' a x Hl) as (m' & ? & ? & ? & _).
    by exists m'.
  - intros ->. destruct (pop_empty m this hd tl Hl). by split.
Qed.

Lemma push_pop_at_ends_example :
  let m := exec (build 1 [1; 3; 5]%Z) mem0 in
  bind (push_front 1 7%Z) (λ _, pop_front 1) m = Ok tt m ∧
  ∃ m', pop_back 1 m = Ok tt m' ∧ is_list m' 1 1 2 (zip [3; 4]%positive [1; 3]%Z).
Proof.
  intros m.
  destruct (push_pop_at_ends m 1 1 2 _ build_135) as (Hpush & _ & Hpop & _).
  split.
  - assert (Hsz : (Z.of_nat (length (zip [3; 4; 5]%positive [1; 3; 5]%Z)) + 1
                   < size_max)%Z) by reflexivity.
    exact (proj1 (proj2 (proj2 (Hpush 7%Z Hsz)))).
  - destruct (Hpop (zip [3; 4]%positive [1; 3]%Z) 5%positive 5%Z eq_refl)
      as (m' & H1 & H2 & _).
    exists m'. split; [exact H1|exact H2].
Defined.

(** X15: [insert] and [erase] leave the other iterators of the list usable:
    after an [insert] every element that was in the list still is, at its
    node and with its value, so an iterator to it dereferences as before;
    after an [erase] the same holds for every element but the erased one;
    [end()] is the same iterator before and after. *)
Theorem other_iterators_survive {T : Type} (m : @mem T) this hd tl es :
  is_list m this hd tl es →
  (∀ es1 es2 x, es = es1 ++ es2 →
     (Z.of_nat (length es) + 1 < size_max)%Z →
     ∃ it m', insert this (Iterator (first_or (cells es2) (Some tl)) (Some this)) x m
              = Ok it m' ∧
       (∀ b v, (b, v) ∈ es →
          iterator_deref (Iterator (Some b) (Some this)) m' = Ok v m') ∧
       end_ this m' = Ok (Iterator (Some tl) (Some this)) m') ∧
  (∀ es1 a x es2, es = es1 ++ (a, x) :: es2 →
     ∃ it m', erase this (Iterator (Some a) (Some this)) m = Ok it m' ∧
       (∀ b v, (b, v) ∈ es1 ++ es2 →
          iterator_deref (Iterator (Some b) (Some this)) m' = Ok v m') ∧
       end_ this m' = Ok (Iterator (Some tl) (Some this)) m').
Proof.
  intros Hl. split.
  - intros es1 es2 x -> Hsz.
    destruct (insert_spec m this hd tl es1 es2 x Hl Hsz) as (m' & Hrun & Hl' & _).
    eexists _, m'. split; [exact Hrun|]. split.
    + intros b v Hb.
      assert (Hb' : (b, v) ∈ es1 ++ (fresh (dom (nodes m)), x) :: es2).
      { apply elem_of_app in Hb as [Hb|Hb]; apply elem_of_app; [by left|].
        right. by right. }
      apply list_elem_of_split in Hb' as (k1 & k2 & E). rewrite E in Hl'.
      exact (iterator_deref_elem m' this hd tl k1 b v k2 Hl').
    + by apply (end_spec m' this hd tl _ Hl').
  - intros es1 a x es2 ->.
    destruct (erase_spec m this hd tl es1 a x es2 Hl) as (m' & Hrun & Hl' & _).
    eexists _, m'. split; [exact Hrun|]. split.
    + intros b v Hb.
      apply list_elem_of_split in Hb as (k1 & k2 & E). rewrite E in Hl'.
      exact (iterator_deref_elem m' this hd tl k1 b v k2 Hl').
    + by apply (end_spec m' this hd tl _ Hl').
Qed.

Lemma other_iterators_survive_example :
  let m := exec (build 1 [1; 3; 5]%Z) mem0 in
  ∃ it m', erase 1 (Iterator (Some 4%positive) (Some 1%positive)) m = Ok it m' ∧
    iterator_deref (Iterator (Some 5%positive) (Some 1%positive)) m' = Ok 5%Z m'.
Proof.
  intros m.
  destruct (other_iterators_survive m 1 1 2 _ build_135) as (_ & H).
  destruct (H (zip [3]%positive [1]%Z) 4%positive 3%Z (zip [5]%positive [5]%Z) eq_refl)
    as (it & m' & H1 & H2 & _).
  exists it, m'. split; [exact H1|].
  apply H2. apply (bool_decide_unpack _). vm_compute. exact I.
Defined.

(** X16: the protected helpers work on nodes that exist already:
    [insert(pos, cur)] links the node [cur], which holds a value and is not
    in the chain, immediately before [pos] and increments the count, without
    allocating; [erase(cur)] after it unlinks the node again, leaves it
    allocated with its value and with both links null, and the list as it
    was. *)
Theorem node_helpers_link_and_unlink {T : Type} (m : @mem T) this hd tl es1 es2 c n x :
  is_list m this hd tl (es1 ++ es2) →
  (Z.of_nat (length (es1 ++ es2)) + 1 < size_max)%Z →
  nodes m !! c = Some n → val n = Some x →
  c ∉ (chain hd (es1 ++ es2) tl).*1 →
  ∃ m1 m2,
    insert_node this (first_or (cells es2) (Some tl)) (Some c) m = Ok (Some c) m1 ∧
    is_list m1 this hd tl (es1 ++ (c, x) :: es2) ∧
    (∀ a, a ∉ (chain hd (es1 ++ es2) tl).*1 → a ≠ c → nodes m1 !! a = nodes m !! a) ∧
    erase_node this (Some c) m1 = Ok (Some c) m2 ∧
    is_list m2 this hd tl (es1 ++ es2) ∧
    nodes m2 !! c = Some (Node None None (Some x)).
Proof.
  intros Hl Hsz Hn Hv Hc.
  destruct (insert_node_spec m this hd tl es1 es2 c n x Hl Hsz Hn Hv Hc)
    as (m1 & Hrun1 & Hl1 & Hout1).
  destruct (erase_node_spec m1 this hd tl es1 c x es2 Hl1) as (m2 & Hrun2 & Hl2 & Hc2).
  by exists m1, m2.
Qed.

Lemma node_helpers_link_and_unlink_example :
  let m := exec (new_node (Some 7%Z)) (exec (build 1 [1; 3; 5]%Z) mem0) in
  ∃ m1 m2,
    insert_node 1 (Some 4%positive) (Some 6%positive) m = Ok (Some 6%positive) m1 ∧
    is_list m1 1 1 2 (zip [3; 6; 4; 5]%positive [1; 7; 3; 5]%Z) ∧
    erase_node 1 (Some 6%positive) m1 = Ok (Some 6%positive) m2 ∧
    is_list m2 1 1 2 (zip [3; 4; 5]%positive [1; 3; 5]%Z).
Proof.
  intros m.
  assert (Hl : is_list m 1 1 2 (zip [3]%positive [1]%Z ++ zip [4; 5]%positive [3; 5]%Z))
    by list_by_compute.
  assert (Hsz : (Z.of_nat (length (zip [3]%positive [1]%Z
                   ++ zip [4; 5]%positive [3; 5]%Z)) + 1 < size_max)%Z)
    by reflexivity.
  assert (Hn : nodes m !! 6%positive = Some (Node None None (Some 7%Z)))
    by (vm_compute; reflexivity).
  assert (Hc : 6%positive ∉ (chain 1 (zip [3]%positive [1]%Z
                   ++ zip [4; 5]%positive [3; 5]%Z) 2).*1).
  { apply (bool_decide_unpack _). vm_compute. exact I. }
  destruct (node_helpers_link_and_unlink m 1 1 2 _ _ 6%positive _ 7%Z Hl Hsz Hn eq_refl Hc)
    as (m1 & m2 & H1 & H2 & _ & H3 & H4 & _).
  exists m1, m2. split; [exact H1|]. split; [exact H2|]. split; [exact H3|exact H4].
Defined.

(** X17: [unique()] is idempotent: run on the list that a first [unique()]
    left, it returns with the same nodes holding the same values in the same
    order. *)
Theorem unique_twice {T : Type} (neqb : T → T → bool) fuel (m : @mem T) this hd tl es :
  is_list m this hd tl es →
  length es < fuel →
  ∃ m1 m2, unique neqb fuel this m = Ok tt m1 ∧
    unique neqb fuel this m1 = Ok tt m2 ∧
    is_list m1 this hd tl (uniq neqb es) ∧
    is_list m2 this hd tl (uniq neqb es).
Proof.
  intros Hl Hf.
  destruct (unique_spec neqb fuel m this hd tl es Hl Hf) as (m1 & Hrun1 & Hl1 & _).
  destruct (unique_spec neqb fuel m1 this hd tl _ Hl1) as (m2 & Hrun2 & Hl2 & _).
  { pose proof (uniq_length neqb es). lia. }
  rewrite uniq_idempotent in Hl2. by exists m1, m2.
Qed.

Lemma unique_twice_example :
  let m := exec (build 1 [1; 1; 2; 2; 1]%Z) mem0 in
  ∃ m1 m2, unique Z_neqb 6 1 m = Ok tt m1 ∧ unique Z_neqb 6 1 m1 = Ok tt m2 ∧
    is_list m2 1 1 2 (zip [3; 5; 7]%positive [1; 2; 1]%Z).
Proof.
  intros m.
  assert (Hl : is_list m 1 1 2 (zip [3; 4; 5; 6; 7]%positive [1; 1; 2; 2; 1]%Z))
    by list_by_compute.
  assert (Hf : length (zip [3; 4; 5; 6; 7]%positive [1; 1; 2; 2; 1]%Z) < 6)
    by (simpl; lia).
  destruct (unique_twice Z_neqb 6 m 1 1 2 _ Hl Hf) as (m1 & m2 & H1 & H2 & _ & H3).
  exists m1, m2. split; [exact H1|]. split; [exact H2|exact H3].
Defined.

(** X18: the default constructor returns with an empty list between two
    sentinels that it allocated ([size()] is zero, [empty()] is true); it
    changes no node that existed and no other list object, so every other
    list is as it was. *)
Theorem default_constructor_empty {T : Type} (m : @mem T) this :
  ∃ m' hd tl, list_ctor this m = Ok tt m' ∧
    is_list m' this hd tl [] ∧
    nodes m !! hd = None ∧ nodes m !! tl = None ∧
    size this m' = Ok 0%Z m' ∧
    empty this m' = Ok true m' ∧
    (∀ a, is_Some (nodes m !! a) → nodes m' !! a = nodes m !! a) ∧
    (∀ o : loc, o ≠ this → objs m' !! o = objs m !! o) ∧
    (∀ other ohd otl oes, other ≠ this →
       is_list m other ohd otl oes → is_list m' other ohd otl oes).
Proof.
  destruct (list_ctor_spec m this) as (m' & hd & tl & Hrun & Hl & Hh & Ht & Hfr).
  exists m', hd, tl. split_and!; try done.
  - by apply (size_spec m' this hd tl []).
  - by apply (empty_spec m' this hd tl []).
  - intros a Ha. destruct Hfr as [Hfn _]. apply Hfn; [|done]. apply not_elem_of_nil.
  - by destruct Hfr.
  - intros other ohd otl oes Hne Ho.
    apply (is_list_frame m m' [] this other ohd otl oes); try done.
    intros a _. apply not_elem_of_nil.
Qed.

Lemma default_constructor_empty_example :
  let m := exec (build 1 [1; 3; 5]%Z) mem0 in
  ∃ m' hd tl, list_ctor 2 m = Ok tt m' ∧ is_list m' 2 hd tl [] ∧
    is_list m' 1 1 2 (zip [3; 4; 5]%positive [1; 3; 5]%Z).
Proof.
  intros m.
  destruct (default_constructor_empty m 2)
    as (m' & hd & tl & H1 & H2 & _ & _ & _ & _ & _ & _ & H3).
  exists m', hd, tl. split; [exact H1|]. split; [exact H2|].
  apply (H3 1%positive 1%positive 2%positive); [discriminate|exact build_135].
Defined.

(** X19: whatever the order of the two lists and whatever [operator<] is,
    [merge] of two distinct lists returns with all nodes of both lists in the
    first one and none in the second; the elements that came from the first
    list are in the order they had there, and so are those that came from
    the second; the count of the first list is the sum of the two counts; a
    first list without elements receives the second list as it is. *)
Theorem merge_interleaves {T : Type} (ltb : T → T → bool) fuel (m : @mem T)
    this hd tl A other ohd otl B :
  this ≠ other →
  is_list m this hd tl A →
  is_list m other ohd otl B →
  (chain hd A tl).*1 ## (chain ohd B otl).*1 →
  (Z.of_nat (length A + length B) < size_max)%Z →
  length A + length B < fuel →
  ∃ m', merge ltb fuel this other m = Ok tt m' ∧
    is_list m' this hd tl (merged ltb A B) ∧
    is_list m' other ohd otl [] ∧
    A `sublist_of` merged ltb A B ∧
    B `sublist_of` merged ltb A B ∧
    size this m' = Ok (Z.of_nat (length A + length B)) m' ∧
    (A = [] → merged ltb A B = B).
Proof.
  intros Hne HA HB Hdisj Hsz Hf.
  destruct (merge_spec ltb fuel m this hd tl A other ohd otl B Hne HA HB Hdisj Hsz Hf)
    as (m' & Hrun & HA' & HB' & _).
  exists m'. split_and!; try done.
  - apply merged_sublist_l.
  - apply merged_sublist_r.
  - rewrite (size_spec _ _ _ _ _ HA'). by rewrite merged_length.
  - intros ->. apply merged_nil_l.
Qed.

Lemma merge_interleaves_example :
  let m := exec (build2 [5; 1]%Z [4; 2]%Z) mem0 in
  ∃ m', merge Z.ltb 5 1 2 m = Ok tt m' ∧
    is_list m' 1 1 2 (zip [7; 8; 3; 4]%positive [4; 2; 5; 1]%Z) ∧
    is_list m' 2 5 6 [].
Proof.
  intros m.
  pose (A := zip [3; 4]%positive [5; 1]%Z).
  pose (B := zip [7; 8]%positive [4; 2]%Z).
  assert (HA : is_list m 1 1 2 A) by (unfold A; list_by_compute).
  assert (HB : is_list m 2 5 6 B) by (unfold B; list_by_compute).
  assert (Hne : 1%positive ≠ 2%positive) by discriminate.
  assert (Hdisj : (chain 1 A 2).*1 ## (chain 5 B 6).*1).
  { assert (Hnd : NoDup ((chain 1 A 2).*1 ++ (chain 5 B 6).*1)).
    { apply (bool_decide_unpack _). vm_compute. exact I. }
    apply NoDup_app in Hnd as (_ & Hd & _). exact Hd. }
  assert (Hsz : (Z.of_nat (length A + length B) < size_max)%Z) by reflexivity.
  assert (Hf : length A + length B < 5) by (simpl; lia).
  destruct (merge_interleaves Z.ltb 5 m 1 1 2 A 2 5 6 B Hne HA HB Hdisj Hsz Hf)
    as (m' & H1 & H2 & H3 & _).
  exists m'. split; [exact H1|]. split; [exact H2|exact H3].
Defined.

(** X20: the observers of the list ([front], [back], [begin], [cbegin],
    [end], [cend], [empty], [size]) and every operator of the two iterator
    classes (increments, decrements, [*] and [->]) leave the memory as they
    found it, when they return and when they throw. *)
Theorem observers_read_only {T : Type} this (it : iterator) (cit : const_iterator) :
  read_only (T:=T) (front this) ∧ read_only (T:=T) (back this) ∧
  read_only (T:=T) (begin_ this) ∧ read_only (T:=T) (cbegin this) ∧
  read_only (T:=T) (end_ this) ∧ read_only (T:=T) (cend this) ∧
  read_only (T:=T) (empty this) ∧ read_only (T:=T) (size this) ∧
  read_only (T:=T) (iterator_pre_inc it) ∧ read_only (T:=T) (iterator_post_inc it) ∧
  read_only (T:=T) (iterator_pre_dec it) ∧ read_only (T:=T) (iterator_post_dec it) ∧
  read_only (T:=T) (iterator_deref it) ∧ read_only (T:=T) (iterator_arrow it) ∧
  read_only (T:=T) (const_iterator_pre_inc cit) ∧
  read_only (T:=T) (const_iterator_post_inc cit) ∧
  read_only (T:=T) (const_iterator_pre_dec cit) ∧
  read_only (T:=T) (const_iterator_post_dec cit) ∧
  read_only (T:=T) (const_iterator_deref cit) ∧
  read_only (T:=T) (const_iterator_arrow cit).
Proof.
  destruct (list_observers_read_only (T:=T) this) as (?&?&?&?&?&?&?&?).
  destruct (iterator_ops_read_only (T:=T) it) as (?&?&?&?&?&?).
  destruct (const_iterator_ops_read_only (T:=T) cit) as (?&?&?&?&?&?).
  split_and!; done.
Qed.
End sjtu.
